(** * organize_fastq.py: lane-split FASTQ consolidation

    A shallow embedding of [organize_fastq.py] and the properties of its
    four components: the Matcher ([FASTQ_RE]), the Scanner ([find_fastqs]),
    the Grouper (the [defaultdict] loop of [main]) and the Consolidator
    ([concatenate], [relocate]).

    Conventions of the embedding.
    - Text is [list ascii]; a character is a code point in U+0000..U+00FF.
      On that range [\d] is exactly [0-9] and [re.IGNORECASE] identifies
      only the two cases of an ASCII letter for the literals of the pattern.
      The Matcher is also given on Unicode text (module [Uni]), where a
      character is any code point, [\d] is the table of decimal digits of
      the Unicode database and the long s is a case of [s]; the two
      agree on U+0000..U+00FF ([FASTQ_RE_latin1]).
    - File contents are [list byte].
    - The file system is a tree of directories and regular files (no
      symbolic links, no permissions, unbounded space, names compared
      exactly); a directory keeps its entries in listing ([scandir]) order.
    - A [Path] is a pathlib path; the operating system resolves it to a
      location (the list of names from the root) against the working
      directory. *)

From Stdlib Require Import String Ascii Strings.Byte List NArith ZArith Bool Arith Lia.
From Stdlib Require Import Permutation Sorted.
From Stdlib Require DecimalString DecimalPos DecimalN.
Import ListNotations.

Set Implicit Arguments.
Local Open Scope list_scope.

(* ================================================================== *)
(** ** Text *)

Definition str := list ascii.

(** A string literal of the source. *)
Definition s (x : string) : str := list_ascii_of_string x.

Definition str_eq_dec : forall a b : str, {a = b} + {a <> b} :=
  list_eq_dec ascii_dec.

Definition str_eqb (a b : str) : bool :=
  if str_eq_dec a b then true else false.

Definition LF : ascii := "010"%char.

(** [str.lower()] on one character: only [A-Z] have a lower case that is
    an ASCII letter. *)
Definition lower (c : ascii) : ascii :=
  let n := nat_of_ascii c in
  if (65 <=? n) && (n <=? 90) then ascii_of_nat (n + 32) else c.

Definition is_digit (c : ascii) : bool :=
  let n := nat_of_ascii c in (48 <=? n) && (n <=? 57).

(** [int(text)] for a run of decimal digits (leading zeros permitted). *)
Definition digit_val (c : ascii) : N := N.of_nat (nat_of_ascii c - 48).

Definition int_of_digits (ds : str) : N :=
  fold_left (fun acc c => (10 * acc + digit_val c)%N) ds 0%N.

(* ================================================================== *)
(** ** Regular expressions, as far as [FASTQ_RE] uses them *)

Module Re.

(** One-character classes. *)
Inductive cls :=
| Any                      (* [.]     anything but a newline *)
| Not (c : ascii)          (* [[^c]]  *)
| Digit                    (* [\d]    *)
| OneOf (cs : list ascii). (* [[..]]  *)

Inductive re :=
| Bos                         (* [^] *)
| Eos                         (* [$] *)
| Lit (c : ascii)             (* a literal character *)
| Plus (k : cls)              (* [k+], greedy *)
| Set_ (k : cls)              (* one character of a class *)
| Seq (a b : re)              (* concatenation *)
| Opt (a : re)                (* [(?:a)?], greedy *)
| Grp (name : string) (a : re). (* [(?P<name>a)] *)

(** The captured groups, latest first. *)
Definition env := list (string * str).

Definition in_cls (icase : bool) (k : cls) (x : ascii) : bool :=
  match k with
  | Any => negb (Ascii.eqb x LF)
  | Not c => negb (if icase then Ascii.eqb (lower x) (lower c) else Ascii.eqb x c)
  | Digit => is_digit x
  | OneOf cs =>
      existsb (fun c => if icase then Ascii.eqb (lower x) (lower c)
                        else Ascii.eqb x c) cs
  end.

Definition lit_eqb (icase : bool) (c x : ascii) : bool :=
  if icase then Ascii.eqb (lower x) (lower c) else Ascii.eqb x c.

(** The texts left after [k+], the longest match first. *)
Fixpoint plus_cls (icase : bool) (k : cls) (t : str) : list str :=
  match t with
  | [] => []
  | x :: t' => if in_cls icase k x then plus_cls icase k t' ++ [t'] else []
  end.

Section Matcher.
(** The whole subject string and the flag of [re.compile]. *)
Variable subject : str.
Variable icase : bool.

(** [run r t e]: every way of matching [r] at the head of [t], as the
    text left and the groups captured, in the order in which the
    backtracking matcher tries them. *)
Fixpoint run (r : re) (t : str) (e : env) : list (str * env) :=
  match r with
  | Bos => if length t =? length subject then [(t, e)] else []
  | Eos => match t with
           | [] => [(t, e)]
           | [x] => if Ascii.eqb x LF then [(t, e)] else []
           | _ => []
           end
  | Lit c => match t with
             | x :: t' => if lit_eqb icase c x then [(t', e)] else []
             | [] => []
             end
  | Plus k => map (fun t' => (t', e)) (plus_cls icase k t)
  | Set_ k => match t with
              | x :: t' => if in_cls icase k x then [(t', e)] else []
              | [] => []
              end
  | Seq a b => flat_map (fun te => run b (fst te) (snd te)) (run a t e)
  | Opt a => run a t e ++ [(t, e)]
  | Grp name a =>
      map (fun te => (fst te,
                      (name, firstn (length t - length (fst te)) t) :: snd te))
          (run a t e)
  end.
End Matcher.

(** [pattern.match(subject)]: the first successful way, tried at position 0. *)
Definition match_ (icase : bool) (r : re) (subject : str) : option env :=
  match run subject icase r subject [] with
  | [] => None
  | (_, e) :: _ => Some e
  end.

(** [m.group(name)] *)
Fixpoint group (name : string) (e : env) : str :=
  match e with
  | [] => []
  | (n, v) :: e' => if String.eqb n name then v else group name e'
  end.

End Re.

Import Re.

(** [FASTQ_RE]:
    [^(?P<prefix>.+)_(?P<sample>[^_]+)_L(?P<lane>\d+)_R(?P<read>[12])]
    [(?P<ext>\.(?:f(?:ast)?q)(?:\.gz)?)$] *)
Definition ext_pattern : re :=      (* [\.(?:f(?:ast)?q)(?:\.gz)?] *)
  Seq (Lit ".")
 (Seq (Seq (Lit "f") (Seq (Opt (Seq (Lit "a") (Seq (Lit "s") (Lit "t"))))
                          (Lit "q")))
      (Opt (Seq (Lit ".") (Seq (Lit "g") (Lit "z"))))).

Definition FASTQ_pattern : re :=
  Seq Bos
 (Seq (Grp "prefix" (Plus Any))
 (Seq (Lit "_")
 (Seq (Grp "sample" (Plus (Not "_")))
 (Seq (Lit "_") (Seq (Lit "L")
 (Seq (Grp "lane" (Plus Digit))
 (Seq (Lit "_") (Seq (Lit "R")
 (Seq (Grp "read" (Set_ (OneOf ["1"; "2"]%char)))
 (Seq (Grp "ext" ext_pattern)
      Eos)))))))))).

(** [FASTQ_RE = re.compile(..., re.IGNORECASE)]; [FASTQ_RE filename] is
    [FASTQ_RE.match(filename)]. *)
Definition FASTQ_RE (filename : str) : option env :=
  match_ true FASTQ_pattern filename.

(** The match object of [FASTQ_RE], by its named groups. *)
Record FastqMatch := mkMatch {
  m_prefix : str; m_sample : str; m_lane : str; m_read : str; m_ext : str }.

Definition match_groups (e : env) : FastqMatch :=
  mkMatch (group "prefix" e) (group "sample" e) (group "lane" e)
          (group "read" e) (group "ext" e).

(* ================================================================== *)
(** ** Paths ([pathlib.Path]) *)

Record Path := mkPath { absolute : bool; parts : list str }.

Definition Path_eq_dec : forall p q : Path, {p = q} + {p <> q}.
Proof. decide equality; [apply (list_eq_dec str_eq_dec) | apply bool_dec]. Defined.

(** [p / name] for a [name] that holds no separator (here always a
    piece of a directory-entry name): pathlib drops an empty or ["."] part. *)
Definition joinpath (p : Path) (name : str) : Path :=
  if str_eqb name [] || str_eqb name (s ".") then p
  else mkPath (absolute p) (parts p ++ [name]).

(** [p.parent] (purely lexical; the parent of an anchor is itself). *)
Definition parent (p : Path) : Path := mkPath (absolute p) (removelast (parts p)).

(** The strict prefixes of a list, the shortest first. *)
Fixpoint inits {A} (l : list A) : list (list A) :=
  match l with
  | [] => []
  | x :: l' => [] :: map (cons x) (inits l')
  end.

(** [p.parents]: the strict ancestors, the nearest first. *)
Definition parents (p : Path) : list Path :=
  map (mkPath (absolute p)) (rev (inits (parts p))).

(** [Path(text)]: split at ["/"], dropping empty and ["."] parts. *)
Fixpoint split_on (sep : ascii) (t cur : str) : list str :=
  match t with
  | [] => [cur]
  | x :: t' => if Ascii.eqb x sep then cur :: split_on sep t' []
               else split_on sep t' (cur ++ [x])
  end.

Definition Path_of (t : str) : Path :=
  mkPath (match t with x :: _ => Ascii.eqb x "/" | [] => false end)
         (filter (fun c => negb (str_eqb c [] || str_eqb c (s ".")))
                 (split_on "/" t [])).

(** A location of the file system: the names from the root. *)
Definition loc := list str.

(** The process environment: the working directory and the home
    directory of each user (the empty name is the current user). *)
Record Env := mkEnv { cwd : loc; homes : str -> option loc }.

Definition norm_step (acc : loc) (c : str) : loc :=
  if str_eqb c (s "..") then removelast acc
  else if str_eqb c [] || str_eqb c (s ".") then acc
  else acc ++ [c].

(** Lexical normalisation: what path resolution does without symbolic
    links. *)
Definition norm (ps : list str) : loc := fold_left norm_step ps [].

Inductive exn :=
| FileNotFoundError | FileExistsError | NotADirectoryError
| IsADirectoryError | ShutilError | RuntimeError.

Section WithEnv.
Variable env : Env.

(** [p.resolve()] *)
Definition resolve (p : Path) : Path :=
  mkPath true (norm (if absolute p then parts p else cwd env ++ parts p)).

(** The location the operating system reaches through [p]. *)
Definition locate (p : Path) : loc := parts (resolve p).

(** [p.expanduser()] *)
Definition expanduser (p : Path) : exn + Path :=
  match absolute p, parts p with
  | false, (("~"%char :: user) :: rest) =>
      match homes env user with
      | Some h => inr (mkPath true (h ++ rest))
      | None => inl RuntimeError
      end
  | _, _ => inr p
  end.
End WithEnv.

(* ================================================================== *)
(** ** The file system *)

#[warnings="-register-all"]
Inductive node :=
| File (data : list byte)
| Dir (entries : list (str * node)).

(** What [stat] tells about a location. *)
Inductive kind := KFile (data : list byte) | KDir.

Fixpoint find_entry (c : str) (es : list (str * node)) : option node :=
  match es with
  | [] => None
  | (c', n) :: es' => if str_eqb c' c then Some n else find_entry c es'
  end.

(** A new entry goes to the end of the listing. *)
Fixpoint replace_entry (c : str) (n : node) (es : list (str * node)) :=
  match es with
  | [] => [(c, n)]
  | (c', n') :: es' =>
      if str_eqb c' c then (c, n) :: es' else (c', n') :: replace_entry c n es'
  end.

Definition remove_entry (c : str) (es : list (str * node)) :=
  filter (fun e => negb (str_eqb (fst e) c)) es.

Definition set_entry (c : str) (o : option node) (es : list (str * node)) :=
  match o with
  | Some n => replace_entry c n es
  | None => remove_entry c es
  end.

Fixpoint lookup (o : option node) (p : loc) : option node :=
  match p with
  | [] => o
  | c :: p' =>
      match o with
      | Some (Dir es) => lookup (find_entry c es) p'
      | _ => None
      end
  end.

(** Change what is at [p]; nothing happens unless the directories down
    to the parent of [p] exist. *)
Fixpoint alter (f : option node -> option node) (p : loc) (o : option node)
  : option node :=
  match p with
  | [] => f o
  | c :: p' =>
      match o with
      | Some (Dir es) => Some (Dir (set_entry c (alter f p' (find_entry c es)) es))
      | _ => o
      end
  end.

(** The disk: the entries of the root directory. *)
Definition disk : Type := list (str * node).

Definition root (fs : disk) : option node := Some (Dir fs).

Definition update (f : option node -> option node) (p : loc) (fs : disk) : disk :=
  match alter f p (root fs) with
  | Some (Dir es) => es
  | _ => fs
  end.

Definition kind_of (o : option node) : option kind :=
  match o with
  | Some (File d) => Some (KFile d)
  | Some (Dir _) => Some KDir
  | None => None
  end.

Definition stat (fs : disk) (p : loc) : option kind :=
  kind_of (lookup (root fs) p).

(** The error of a failed path walk: [ENOTDIR] when a regular file is
    used as a directory, [ENOENT] otherwise. *)
Fixpoint errno_from (n : node) (p : loc) : exn :=
  match p with
  | [] => FileNotFoundError
  | c :: p' =>
      match n with
      | File _ => NotADirectoryError
      | Dir es =>
          match find_entry c es with
          | Some n' => errno_from n' p'
          | None => FileNotFoundError
          end
      end
  end.

Definition errno (fs : disk) (p : loc) : exn := errno_from (Dir fs) p.

(* ================================================================== *)
(** ** File-system operations: state and exceptions *)

(** A computation changes the file system and returns or raises; the
    state it leaves when it raises is what is then on disk. *)
Definition M (A : Type) : Type := disk -> (exn + A) * disk.

Definition ret {A} (a : A) : M A := fun fs => (inr a, fs).
Definition bind {A B} (c : M A) (k : A -> M B) : M B :=
  fun fs => match c fs with
            | (inr a, fs') => k a fs'
            | (inl e, fs') => (inl e, fs')
            end.

Declare Scope fsmonad_scope.
Notation "x <- c ;; k" := (bind c (fun x => k))
  (at level 61, c at next level, right associativity) : fsmonad_scope.
Notation "c ;; k" := (bind c (fun _ => k))
  (at level 61, right associativity) : fsmonad_scope.
Local Open Scope fsmonad_scope.

(** [for x in l: body(x)] *)
Fixpoint for_each {A} (body : A -> M unit) (l : list A) : M unit :=
  match l with
  | [] => ret tt
  | x :: l' => body x ;; for_each body l'
  end.

(** [os.unlink] *)
Definition os_unlink (p : loc) : M unit := fun fs =>
  match stat fs p with
  | Some (KFile _) => (inr tt, update (fun _ => None) p fs)
  | Some KDir => (inl IsADirectoryError, fs)
  | None => (inl (errno fs p), fs)
  end.

(** [open(p, "wb")]: the file is created, or truncated when it exists. *)
Definition open_wb (p : loc) : M unit := fun fs =>
  match stat fs p with
  | Some KDir => (inl IsADirectoryError, fs)
  | Some (KFile _) => (inr tt, update (fun _ => Some (File [])) p fs)
  | None =>
      match stat fs (removelast p) with
      | Some KDir => (inr tt, update (fun _ => Some (File [])) p fs)
      | _ => (inl (errno fs p), fs)
      end
  end.

(** [open(p, "rb")] and reading up to the end of the file. *)
Definition read_rb (p : loc) : M (list byte) := fun fs =>
  match stat fs p with
  | Some (KFile d) => (inr d, fs)
  | Some KDir => (inl IsADirectoryError, fs)
  | None => (inl (errno fs p), fs)
  end.

(** Writing through a handle opened for writing on [p]. *)
Definition write_handle (p : loc) (d : list byte) : M unit := fun fs =>
  (inr tt, update (fun o => match o with
                            | Some (File d0) => Some (File (d0 ++ d))
                            | _ => o
                            end) p fs).

(** [Path.mkdir(parents=True, exist_ok=True)]: the missing directories
    are made from the top; an existing regular file on the way raises
    before anything is made. *)
Fixpoint makedirs (done todo : loc) : M unit := fun fs =>
  match todo with
  | [] => (inr tt, fs)
  | c :: todo' =>
      let q := done ++ [c] in
      match stat fs q with
      | Some KDir => makedirs q todo' fs
      | Some (KFile _) =>
          (inl (match todo' with
                | [] => FileExistsError
                | _ :: _ => NotADirectoryError
                end), fs)
      | None => makedirs q todo' (update (fun _ => Some (Dir [])) q fs)
      end
  end.

Definition is_prefix (a b : loc) : bool :=
  (length a <=? length b) && if list_eq_dec str_eq_dec (firstn (length a) b) a then true else false.

(** [os.rename(src, dst)] as [shutil.move] uses it, with the copying
    fallback folded in. *)
Definition os_rename (src dst : loc) : M unit := fun fs =>
  match lookup (root fs) src with
  | None => (inl (errno fs src), fs)
  | Some n =>
      if list_eq_dec str_eq_dec src dst then (inr tt, fs)
      else
        match n, stat fs dst with
        | Dir _, Some _ => (inl FileExistsError, fs)
        | File _, Some KDir => (inl IsADirectoryError, fs)
        | _, _ =>
            if match n with Dir _ => is_prefix src dst | File _ => false end
            then (inl ShutilError, fs)
            else
              match stat fs (removelast dst) with
              | Some KDir =>
                  (inr tt, update (fun _ => Some n) dst (update (fun _ => None) src fs))
              | _ => (inl (errno fs dst), fs)
              end
        end
  end.

Section Program.
Variable env : Env.

(** [Path.mkdir(parents=True, exist_ok=True)] *)
Definition Path_mkdir (p : Path) : M unit := makedirs [] (locate env p).

(** [shutil.move(src, dst)]: into [dst] when [dst] is an existing
    directory, onto [dst] otherwise. *)
Definition shutil_move (src dst : Path) : M unit := fun fs =>
  let sl := locate env src in
  let dl := locate env dst in
  match stat fs dl with
  | Some KDir =>
      if list_eq_dec str_eq_dec sl dl then (inr tt, fs)
      else
        let real_dst := locate env (joinpath dst (last (parts src) (s "."))) in
        match stat fs real_dst with
        | Some _ => (inl ShutilError, fs)
        | None => os_rename sl real_dst fs
        end
  | _ => os_rename sl dl fs
  end.

(* ---------------------------------------------------------------- *)
(** *** Scanner *)

Record FastqEntry := mkEntry { path : Path; lane : N }.

Definition dirnames (es : list (str * node)) : list str :=
  map fst (filter (fun e => match snd e with Dir _ => true | File _ => false end) es).

Definition filenames (es : list (str * node)) : list str :=
  map fst (filter (fun e => match snd e with Dir _ => false | File _ => true end) es).

(** [os.walk(top)], top-down: a directory, then its subdirectories in
    listing order. *)
Fixpoint walk_node (dirpath : Path) (n : node) : list (Path * list str * list str) :=
  match n with
  | File _ => []
  | Dir es =>
      (dirpath, dirnames es, filenames es)
      :: flat_map (fun e => match snd e with
                            | Dir _ => walk_node (joinpath dirpath (fst e)) (snd e)
                            | File _ => []
                            end) es
  end.

Definition os_walk (top : Path) (fs : disk) : list (Path * list str * list str) :=
  match lookup (root fs) (locate env top) with
  | Some n => walk_node top n
  | None => []
  end.

Definition GroupKey : Type := str * str * str.
Definition emission : Type := GroupKey * FastqEntry.

(** The body of the inner loop of [find_fastqs] for one [filename]. *)
Definition match_file (dirpath : Path) (filename : str) : list emission :=
  match FASTQ_RE filename with
  | None => []
  | Some m =>
      let sample := group "sample" m in
      let read := group "read" m in
      let ext := group "ext" m in
      let lane := int_of_digits (group "lane" m) in
      [((sample, read, ext), mkEntry (joinpath dirpath filename) lane)]
  end.

(** [find_fastqs(root, exclude=...)]: what the generator yields, in order. *)
Definition find_fastqs (top : Path) (exclude : option Path) (fs : disk)
  : list emission :=
  let exclude_resolved := option_map (resolve env) exclude in
  flat_map
    (fun w =>
       let '(dirpath, _, filenames) := w in
       let current_dir := resolve env dirpath in
       if match exclude_resolved with
          | Some x => if in_dec Path_eq_dec x (parents current_dir) then true else false
          | None => false
          end
       then []
       else flat_map (match_file dirpath) filenames)
    (os_walk top fs).

(* ---------------------------------------------------------------- *)
(** *** Grouper *)

Definition key_eq_dec : forall a b : GroupKey, {a = b} + {a <> b}.
Proof. repeat decide equality. Defined.

(** [groups[key].append(entry)] on an insertion-ordered [defaultdict(list)]. *)
Fixpoint append_group (key : GroupKey) (entry : FastqEntry)
         (groups : list (GroupKey * list FastqEntry)) :=
  match groups with
  | [] => [(key, [entry])]
  | (k, es) :: groups' =>
      if key_eq_dec k key then (k, es ++ [entry]) :: groups'
      else (k, es) :: append_group key entry groups'
  end.

Definition collect (ems : list emission) : list (GroupKey * list FastqEntry) :=
  fold_left (fun groups em => append_group (fst em) (snd em) groups) ems [].

(* ---------------------------------------------------------------- *)
(** *** Consolidator *)

(** [sorted(files, key=lambda entry: entry.lane)]: a stable sort, here by
    insertion (the result of a stable sort does not depend on the
    algorithm, see [sorted_by_lane_unique]). *)
Fixpoint insert_by_lane (e : FastqEntry) (l : list FastqEntry) :=
  match l with
  | [] => [e]
  | x :: l' => if (lane e <=? lane x)%N then e :: x :: l'
               else x :: insert_by_lane e l'
  end.

Definition sorted_by_lane (files : list FastqEntry) : list FastqEntry :=
  fold_right insert_by_lane [] files.

Definition concatenate (files : list FastqEntry) (destination : Path) : M unit :=
  Path_mkdir (parent destination) ;;
  let files_sorted := sorted_by_lane files in
  open_wb (locate env destination) ;;
  for_each (fun entry =>
              d <- read_rb (locate env (path entry)) ;;
              write_handle (locate env destination) d)
           files_sorted.

Definition relocate (entries : list FastqEntry) (destination : Path) : M unit :=
  Path_mkdir (parent destination) ;;
  match entries with
  | [e] => shutil_move (path e) destination
  | _ =>
      concatenate entries destination ;;
      for_each (fun entry => os_unlink (locate env (path entry))) entries
  end.

(** [outdir / sample / f"{sample}_R{read}{ext}"] *)
Definition dest_name (key : GroupKey) : str :=
  let '(sample, read, ext) := key in sample ++ s "_R" ++ read ++ ext.

Definition dest_path (outdir : Path) (key : GroupKey) : Path :=
  let '(sample, read, ext) := key in
  joinpath (joinpath outdir sample) (dest_name key).

(* ---------------------------------------------------------------- *)
(** *** main *)

(** What a run leaves: the exit code or the exception that ended it,
    the disk, and the lines printed to [sys.stderr]. *)
Record Outcome := mkOutcome {
  status : exn + Z; on_disk : disk; stderr : list str }.

(** The two diagnostics. *)
Definition msg_no_outdir : str :=
  s "Error: OUTDIR is not set and --outdir was not provided.".

Definition msg_no_match : str :=
  s "No FASTQ files matched the expected pattern.".

(** [parse_args().outdir]: the option, or else [os.environ.get("OUTDIR")]. *)
Definition parse_args (opt_outdir environ_OUTDIR : option str) : option str :=
  match opt_outdir with
  | Some v => Some v
  | None => environ_OUTDIR
  end.

Definition truthy (a : option str) : bool :=
  match a with
  | Some (_ :: _) => true
  | _ => false
  end.

Definition main (opt_outdir environ_OUTDIR : option str) (fs : disk) : Outcome :=
  let args_outdir := parse_args opt_outdir environ_OUTDIR in
  if negb (truthy args_outdir) then
    mkOutcome (inr 1%Z) fs [msg_no_outdir]
  else
    match expanduser env (Path_of (match args_outdir with Some v => v | None => [] end)) with
    | inl e => mkOutcome (inl e) fs []
    | inr expanded =>
        let outdir := resolve env expanded in
        match Path_mkdir outdir fs with
        | (inl e, fs1) => mkOutcome (inl e) fs1 []
        | (inr _, fs1) =>
            let groups := collect (find_fastqs (mkPath false []) (Some outdir) fs1) in
            match groups with
            | [] => mkOutcome (inr 1%Z) fs1 [msg_no_match]
            | _ :: _ =>
                match for_each (fun g => relocate (snd g) (dest_path outdir (fst g)))
                               groups fs1 with
                | (inl e, fs2) => mkOutcome (inl e) fs2 []
                | (inr _, fs2) => mkOutcome (inr 0%Z) fs2 []
                end
            end
        end
    end.
End Program.

(* ================================================================== *)
(** ** Vocabulary of the statements *)

(** What [run] enumerates, as a relation: [den r t t' e e'] when [r]
    matches at the head of [t], leaves [t'] and turns the groups [e]
    into [e']. *)
Fixpoint den (subject : str) (icase : bool) (r : re) (t t' : str) (e e' : env)
  : Prop :=
  match r with
  | Bos => length t = length subject /\ t' = t /\ e' = e
  | Eos => (t = [] \/ t = [LF]) /\ t' = t /\ e' = e
  | Lit c => exists x, t = x :: t' /\ lit_eqb icase c x = true /\ e' = e
  | Plus k =>
      exists w, w <> [] /\ Forall (fun x => in_cls icase k x = true) w /\
                t = w ++ t' /\ e' = e
  | Set_ k => exists x, t = x :: t' /\ in_cls icase k x = true /\ e' = e
  | Seq a b =>
      exists t1 e1, den subject icase a t t1 e e1 /\ den subject icase b t1 t' e1 e'
  | Opt a => den subject icase a t t' e e' \/ (t' = t /\ e' = e)
  | Grp name a =>
      exists e1, den subject icase a t t' e e1 /\
                 e' = (name, firstn (length t - length t') t) :: e1
  end.

(** A character of an extension: a letter of [.fastq.gz], in either case. *)
Definition ext_char (c : ascii) : Prop := In (lower c) (s ".fastqgz").

(** The four extensions, up to case. *)
Definition ext_ok (x : str) : Prop :=
  In (map lower x) [s ".fastq"; s ".fq"; s ".fastq.gz"; s ".fq.gz"].

(** The shape [FASTQ_RE] accepts, with the text of every group; [tail]
    is what [$] lets follow the extension. *)
Definition lane_split (filename prefix sample lane read ext tail : str) : Prop :=
  exists l r : ascii,
    filename = prefix ++ "_"%char :: sample ++ "_"%char :: l :: lane
                      ++ "_"%char :: r :: read ++ ext ++ tail /\
    prefix <> [] /\ ~ In LF prefix /\
    sample <> [] /\ ~ In "_"%char sample /\
    lower l = "l"%char /\
    lane <> [] /\ Forall (fun c => is_digit c = true) lane /\
    lower r = "r"%char /\
    (read = s "1" \/ read = s "2") /\
    ext_ok ext /\
    (tail = [] \/ tail = [LF]).

(** The acceptance rule in the words of the specification: the name
    ends with [_<sample>_L<digits>_R<1|2><ext>], up to case. *)
Definition ends_with_lane_suffix (filename : str) : Prop :=
  exists before sample lane read ext (l r : ascii),
    filename = before ++ "_"%char :: sample ++ "_"%char :: l :: lane
                      ++ "_"%char :: r :: read ++ ext /\
    sample <> [] /\ ~ In "_"%char sample /\
    lower l = "l"%char /\
    lane <> [] /\ Forall (fun c => is_digit c = true) lane /\
    lower r = "r"%char /\
    (read = s "1" \/ read = s "2") /\
    ext_ok ext.

(** The groups of a successful match, as [run] leaves them. *)
Definition groups_env (prefix sample lane read ext : str) : env :=
  [("ext"%string, ext); ("read"%string, read); ("lane"%string, lane);
   ("sample"%string, sample); ("prefix"%string, prefix)].

(** A regular file, an empty directory, or nothing: no location lies below. *)
Definition leafy (o : option node) : Prop :=
  match o with
  | Some (Dir (_ :: _)) => False
  | _ => True
  end.

(** The content and the size of a regular file. *)
Definition content (fs : disk) (p : loc) : list byte :=
  match stat fs p with
  | Some (KFile d) => d
  | _ => []
  end.

Definition size (fs : disk) (p : loc) : nat := length (content fs p).

(** The order of [sorted(..., key=lambda entry: entry.lane)]. *)
Definition lane_le (a b : FastqEntry) : Prop := (lane a <= lane b)%N.

(** The entries of one lane, in the order of the list. *)
Definition of_lane (n : N) (l : list FastqEntry) : list FastqEntry :=
  filter (fun e => (lane e =? n)%N) l.

(** A name that path resolution keeps as it is. *)
Definition plain_name (c : str) : Prop := c <> [] /\ c <> s "." /\ c <> s "..".

(** The keys the Matcher can produce. *)
Definition key_ok (k : GroupKey) : Prop :=
  let '(sample, read, ext) := k in
  sample <> [] /\ ~ In "_"%char sample /\
  (read = s "1" \/ read = s "2") /\ ext_ok ext.

(** [scanned k e]: the Scanner can emit the entry [e] under the key [k],
    for some file name that [FASTQ_RE] matches in some directory. *)
Definition scanned (k : GroupKey) (e : FastqEntry) : Prop :=
  exists dirpath filename m,
    FASTQ_RE filename = Some m /\
    k = (group "sample" m, group "read" m, group "ext" m) /\
    e = mkEntry (joinpath dirpath filename) (int_of_digits (group "lane" m)).

(** The entries emitted under one key, in the order of emission. *)
Definition group_of (k : GroupKey) (ems : list emission) : list FastqEntry :=
  map snd (filter (fun em => if key_eq_dec (fst em) k then true else false) ems).

(** [groups[k]], when [k in groups]. *)
Fixpoint get_group (k : GroupKey) (groups : list (GroupKey * list FastqEntry)) :=
  match groups with
  | [] => []
  | (k', es) :: groups' => if key_eq_dec k' k then es else get_group k groups'
  end.

(** *** A working tree for the examples

    The working directory [/w] holds two lanes of sample [A] (the second
    lane is listed first), one file of sample [B] and one of sample [C];
    the output directory [/w/out] already holds a regular file at the
    destination of [A] and a directory at the destination of [B]. *)
Definition bytes (x : string) : list byte := list_byte_of_string x.

Definition ex_env : Env := mkEnv [s "w"] (fun _ => None).

Definition ex_outdir : Path := mkPath true [s "w"; s "out"].

Definition ex_disk : disk :=
  [(s "w",
    Dir [(s "S1_A_L002_R1.fastq.gz", File (bytes "two"));
         (s "S1_A_L001_R1.fastq.gz", File (bytes "one"));
         (s "x_B_L1_R2.fq", File (bytes "bee"));
         (s "y_C_L3_R1.fq", File (bytes "sea"));
         (s "notes.txt", File (bytes "n"));
         (s "out",
          Dir [(s "A", Dir [(s "A_R1.fastq.gz", File (bytes "stale"))]);
               (s "B", Dir [(s "B_R2.fq", Dir [])])])])].

Definition ex_key_A : GroupKey := (s "A", s "1", s ".fastq.gz").
Definition ex_key_B : GroupKey := (s "B", s "2", s ".fq").
Definition ex_key_C : GroupKey := (s "C", s "1", s ".fq").

Definition ex_A2 : FastqEntry := mkEntry (mkPath false [s "S1_A_L002_R1.fastq.gz"]) 2.
Definition ex_A1 : FastqEntry := mkEntry (mkPath false [s "S1_A_L001_R1.fastq.gz"]) 1.
Definition ex_B : FastqEntry := mkEntry (mkPath false [s "x_B_L1_R2.fq"]) 1.
Definition ex_C : FastqEntry := mkEntry (mkPath false [s "y_C_L3_R1.fq"]) 3.

(** The groups of the scan that [main] makes of this tree. *)
Definition ex_groups : list (GroupKey * list FastqEntry) :=
  collect (find_fastqs ex_env (mkPath false []) (Some ex_outdir) ex_disk).

(** The key under which the Scanner emits a matched name. *)
Definition key_of (m : env) : GroupKey :=
  (group "sample" m, group "read" m, group "ext" m).

(** A tree where the output directory [/w/out] itself holds a lane-split
    file, and so does a subdirectory of it. *)
Definition ex_disk_out : disk :=
  [(s "w",
    Dir [(s "out",
          Dir [(s "S1_A_L001_R1.fastq.gz", File (bytes "kept?"));
               (s "sub", Dir [(s "S1_A_L002_R1.fastq.gz", File (bytes "deep"))])])])].

(** A tree without any lane-split file. *)
Definition ex_disk_none : disk :=
  [(s "w", Dir [(s "notes.txt", File (bytes "n"))])].

(** The keys of a list in the order of their first occurrence: the key
    order of an insertion-ordered dictionary. *)
Definition first_seen (ks : list GroupKey) : list GroupKey :=
  fold_left (fun acc k => if in_dec key_eq_dec k acc then acc else acc ++ [k]) ks [].

(** The emissions that a mapping of groups stands for. *)
Definition emissions_of (groups : list (GroupKey * list FastqEntry)) : list emission :=
  flat_map (fun g => map (pair (fst g)) (snd g)) groups.

(** Names as a file system has them: in every directory each name is
    plain and occurs once. *)
Definition plain_nameb (c : str) : bool :=
  negb (str_eqb c [] || str_eqb c (s ".") || str_eqb c (s "..")).

Fixpoint distinct (l : list str) : bool :=
  match l with
  | [] => true
  | x :: l' => negb (existsb (str_eqb x) l') && distinct l'
  end.

Fixpoint well_formed (n : node) : bool :=
  match n with
  | File _ => true
  | Dir es =>
      distinct (map fst es)
      && forallb (fun e => plain_nameb (fst e) && well_formed (snd e)) es
  end.

(** The directories of a tree, each with the names that lead to it and
    its listing, in the order of a top-down walk. *)
Fixpoint dirs_of (n : node) : list (loc * list (str * node)) :=
  match n with
  | File _ => []
  | Dir es =>
      ([], es)
      :: flat_map (fun e => map (fun x => (fst e :: fst x, snd x)) (dirs_of (snd e))) es
  end.

(** [x] is a strict ancestor of [p]. *)
Definition strictly_above (x p : loc) : Prop := exists r, r <> [] /\ p = x ++ r.

(** Between [fs] and [fs'], the location [q] is as it was, or it was
    free and is now a directory on the way to [target]. *)
Definition grows (target : loc) (fs fs' : disk) (q : loc) : Prop :=
  stat fs' q = stat fs q \/
  (stat fs q = None /\ stat fs' q = Some KDir /\ exists r, target = q ++ r).

(** Where [shutil.move] puts a file when the destination is a directory. *)
Definition moved_into env (dest : Path) (e : FastqEntry) : loc :=
  locate env (joinpath dest (last (parts (path e)) (s "."))).

(** The example tree where the directory at the destination of sample
    [B] already holds an entry with the name of the source. *)
Definition ex_disk_taken : disk :=
  [(s "w",
    Dir [(s "x_B_L1_R2.fq", File (bytes "bee"));
         (s "out",
          Dir [(s "B", Dir [(s "B_R2.fq",
                             Dir [(s "x_B_L1_R2.fq", File (bytes "old"))])])])])].

(** The example tree where sample [B] has two lanes and its destination
    is a directory. *)
Definition ex_disk_lanes : disk :=
  [(s "w",
    Dir [(s "x_B_L1_R2.fq", File (bytes "bee"));
         (s "x_B_L2_R2.fq", File (bytes "bis"));
         (s "out", Dir [(s "B", Dir [(s "B_R2.fq", Dir [])])])])].

Definition ex_B2 : FastqEntry := mkEntry (mkPath false [s "x_B_L2_R2.fq"]) 2.

(* ================================================================== *)
(** ** The Matcher on Unicode text *)

(** A file name of Python is a [str] of Unicode code points, and
    [FASTQ_RE] is a [str] pattern compiled with [re.IGNORECASE] and
    without [re.ASCII]: [\d] matches every decimal digit of the Unicode
    database (category Nd), and a literal letter matches every character
    that [re.IGNORECASE] identifies with it, which for [s] includes the
    long s (U+017F). This module runs the same [FASTQ_pattern] on code
    points of any size; the literals of the pattern are ASCII. *)
Module Uni.

Definition char := N.
Definition ustr := list char.

Definition of_ascii (c : ascii) : char := N_of_ascii c.
Definition of_str (t : str) : ustr := map of_ascii t.
Definition u (x : string) : ustr := of_str (s x).

Definition LF : char := 10%N.

(** The case folding with which [re.IGNORECASE] compares a character to
    an ASCII literal: the lower case of [A-Z], and the characters outside
    ASCII that count as a case of an ASCII letter: U+0130 and U+0131 for
    [i], U+017F for [s], U+212A for [k]. *)
Definition fold (x : char) : char :=
  if ((65 <=? x) && (x <=? 90))%N then (x + 32)%N
  else if ((x =? 304) || (x =? 305))%N then 105%N
  else if (x =? 383)%N then 115%N
  else if (x =? 8490)%N then 107%N
  else x.

Definition lit_eqb (icase : bool) (c : ascii) (x : char) : bool :=
  if icase then (fold x =? fold (of_ascii c))%N else (x =? of_ascii c)%N.

(** The captured groups, latest first. *)
Definition env := list (string * ustr).

Section Database.
(** [\d]: the decimal digits of the Unicode database of the interpreter. *)
Variable is_decimal : char -> bool.

Definition in_cls (icase : bool) (k : cls) (x : char) : bool :=
  match k with
  | Any => negb (x =? LF)%N
  | Not c => negb (lit_eqb icase c x)
  | Digit => is_decimal x
  | OneOf cs => existsb (fun c => lit_eqb icase c x) cs
  end.

(** The texts left after [k+], the longest match first. *)
Fixpoint plus_cls (icase : bool) (k : cls) (t : ustr) : list ustr :=
  match t with
  | [] => []
  | x :: t' => if in_cls icase k x then plus_cls icase k t' ++ [t'] else []
  end.

Section Matcher.
Variable subject : ustr.
Variable icase : bool.

Fixpoint run (r : re) (t : ustr) (e : env) : list (ustr * env) :=
  match r with
  | Bos => if length t =? length subject then [(t, e)] else []
  | Eos => match t with
           | [] => [(t, e)]
           | [x] => if (x =? LF)%N then [(t, e)] else []
           | _ => []
           end
  | Lit c => match t with
             | x :: t' => if lit_eqb icase c x then [(t', e)] else []
             | [] => []
             end
  | Plus k => map (fun t' => (t', e)) (plus_cls icase k t)
  | Set_ k => match t with
              | x :: t' => if in_cls icase k x then [(t', e)] else []
              | [] => []
              end
  | Seq a b => flat_map (fun te => run b (fst te) (snd te)) (run a t e)
  | Opt a => run a t e ++ [(t, e)]
  | Grp name a =>
      map (fun te => (fst te,
                      (name, firstn (length t - length (fst te)) t) :: snd te))
          (run a t e)
  end.
End Matcher.

(** [pattern.match(subject)]: the first successful way, tried at position 0. *)
Definition match_ (icase : bool) (r : re) (subject : ustr) : option env :=
  match run subject icase r subject [] with
  | [] => None
  | (_, e) :: _ => Some e
  end.

(** [FASTQ_RE.match(filename)] *)
Definition FASTQ_RE (filename : ustr) : option env :=
  match_ true FASTQ_pattern filename.

(** What [run] enumerates, as a relation. *)
Fixpoint den (subject : ustr) (icase : bool) (r : re) (t t' : ustr) (e e' : env)
  : Prop :=
  match r with
  | Bos => length t = length subject /\ t' = t /\ e' = e
  | Eos => (t = [] \/ t = [LF]) /\ t' = t /\ e' = e
  | Lit c => exists x, t = x :: t' /\ lit_eqb icase c x = true /\ e' = e
  | Plus k =>
      exists w, w <> [] /\ Forall (fun x => in_cls icase k x = true) w /\
                t = w ++ t' /\ e' = e
  | Set_ k => exists x, t = x :: t' /\ in_cls icase k x = true /\ e' = e
  | Seq a b =>
      exists t1 e1, den subject icase a t t1 e e1 /\ den subject icase b t1 t' e1 e'
  | Opt a => den subject icase a t t' e e' \/ (t' = t /\ e' = e)
  | Grp name a =>
      exists e1, den subject icase a t t' e e1 /\
                 e' = (name, firstn (length t - length t') t) :: e1
  end.

End Database.

(** [m.group(name)] *)
Fixpoint group (name : string) (e : env) : ustr :=
  match e with
  | [] => []
  | (n, v) :: e' => if String.eqb n name then v else group name e'
  end.

(** The match object of [FASTQ_RE], by its named groups. *)
Record FastqMatch := mkMatch {
  m_prefix : ustr; m_sample : ustr; m_lane : ustr; m_read : ustr; m_ext : ustr }.

Definition match_groups (e : env) : FastqMatch :=
  mkMatch (group "prefix" e) (group "sample" e) (group "lane" e)
          (group "read" e) (group "ext" e).

Definition groups_env (prefix sample lane read ext : ustr) : env :=
  [("ext"%string, ext); ("read"%string, read); ("lane"%string, lane);
   ("sample"%string, sample); ("prefix"%string, prefix)].

(** The groups of a match on a text of [list ascii], as Unicode text. *)
Definition of_env (e : Re.env) : env := map (fun nv => (fst nv, of_str (snd nv))) e.

(** The decimal digits of Unicode 14.0, the database of CPython 3.11: 66
    runs of ten code points, each given by its zero. *)
Definition zeros_14 : list N :=
  [48; 1632; 1776; 1984; 2406; 2534; 2662; 2790; 2918; 3046; 3174; 3302;
   3430; 3558; 3664; 3792; 3872; 4160; 4240; 6112; 6160; 6470; 6608; 6784;
   6800; 6992; 7088; 7232; 7248; 42528; 43216; 43264; 43472; 43504; 43600;
   44016; 65296; 66720; 68912; 69734; 69872; 69942; 70096; 70384; 70736;
   70864; 71248; 71360; 71472; 71904; 72016; 72784; 73040; 73120; 92768;
   92864; 93008; 120782; 120792; 120802; 120812; 120822; 123200; 123632;
   125264; 130032]%N.

Definition is_decimal_14 (x : char) : bool :=
  existsb (fun z => (z <=? x) && (x <? z + 10))%N zeros_14.

(** *** Vocabulary *)

(** [upper c]: the capital of an ASCII letter. *)
Definition upper (c : ascii) : ascii :=
  let n := nat_of_ascii c in
  if (97 <=? n) && (n <=? 122) then ascii_of_nat (n - 32) else c.

(** [spells c x]: the character [x] of a name stands for the lower-case
    letter [c] of the shape: it is [c], its capital, or for [s] the long
    s (U+017F). *)
Definition spells (c : ascii) (x : char) : Prop :=
  x = of_ascii c \/ x = of_ascii (upper c) \/ (c = "s"%char /\ x = 383%N).

(** The four extensions, in the spellings that the pattern accepts. *)
Definition ext_ok (x : ustr) : Prop :=
  exists w, In w [s ".fastq"; s ".fq"; s ".fastq.gz"; s ".fq.gz"] /\
            Forall2 spells w x.

(** The shape [FASTQ_RE] accepts, with the text of every group; [tail]
    is what [$] lets follow the extension. *)
Definition lane_split (is_decimal : char -> bool)
           (filename prefix sample lane read ext tail : ustr) : Prop :=
  exists l r : char,
    filename = prefix ++ of_ascii "_" :: sample ++ of_ascii "_" :: l :: lane
                      ++ of_ascii "_" :: r :: read ++ ext ++ tail /\
    prefix <> [] /\ ~ In LF prefix /\
    sample <> [] /\ ~ In (of_ascii "_") sample /\
    spells "l" l /\
    lane <> [] /\ Forall (fun c => is_decimal c = true) lane /\
    spells "r" r /\
    (read = u "1" \/ read = u "2") /\
    ext_ok ext /\
    (tail = [] \/ tail = [LF]).

End Uni.

(* ================================================================== *)
(** * Properties *)

(** ** Text *)

Lemma str_eqb_eq a b : str_eqb a b = true <-> a = b.
Proof. unfold str_eqb. destruct (str_eq_dec a b); split; congruence. Qed.

Lemma str_eqb_refl a : str_eqb a a = true.
Proof. now apply str_eqb_eq. Qed.

Lemma str_eqb_neq a b : str_eqb a b = false <-> a <> b.
Proof. unfold str_eqb. destruct (str_eq_dec a b); split; congruence. Qed.

(** A text is cut in one way only at its last character outside a
    class: the rest of the text lies inside the class. *)
Lemma last_separator (P : ascii -> Prop) :
  forall u u' a a' w w',
    Forall P w -> Forall P w' -> ~ P a -> ~ P a' ->
    u ++ a :: w = u' ++ a' :: w' ->
    u = u' /\ a = a' /\ w = w'.
Proof.
  induction u as [|x u IH]; intros u' a a' w w' Hw Hw' Ha Ha' E.
  - destruct u' as [|y u']; simpl in E.
    + now inversion E.
    + inversion E; subst. exfalso. apply Ha'.
      rewrite Forall_forall in Hw. apply Hw. apply in_or_app. right. now left.
  - destruct u' as [|y u']; simpl in E.
    + inversion E; subst. exfalso. apply Ha.
      rewrite Forall_forall in Hw'. apply Hw'. apply in_or_app. right. now left.
    + inversion E; subst.
      destruct (IH u' a a' w w' Hw Hw' Ha Ha' H1) as (-> & -> & ->). auto.
Qed.

(** ** The matcher enumerates its relation *)

Lemma plus_cls_spec icase k t t' :
  In t' (plus_cls icase k t) <->
  exists w, w <> [] /\ Forall (fun x => in_cls icase k x = true) w /\ t = w ++ t'.
Proof.
  revert t'. induction t as [|x t IH]; intros t'; simpl.
  - split; [tauto|]. intros (w & Hw & _ & E).
    destruct w; [congruence | discriminate].
  - destruct (in_cls icase k x) eqn:Hx.
    + rewrite in_app_iff, IH. simpl. split.
      * intros [(w & Hw & Hall & ->) | [<- | []]].
        -- exists (x :: w). repeat split; [discriminate | now constructor].
        -- exists [x]. repeat split; [discriminate | now repeat constructor].
      * intros (w & Hw & Hall & E). destruct w as [|y w]; [congruence|].
        inversion E; subst. inversion Hall; subst.
        destruct w as [|z w]; [right; left; reflexivity|].
        left. exists (z :: w). repeat split; [discriminate | assumption].
    + split; [intros []|]. intros (w & Hw & Hall & E).
      destruct w as [|y w]; [congruence|]. inversion E; subst.
      inversion Hall; subst. congruence.
Qed.

Lemma run_spec subject icase r :
  forall t e t' e',
    In (t', e') (run subject icase r t e) <-> den subject icase r t t' e e'.
Proof.
  induction r as [| |c|k|k|a IHa b IHb|a IHa|name a IHa]; intros t e t' e'; simpl.
  - destruct (Nat.eqb_spec (length t) (length subject)); simpl.
    + split; [intros [H|[]]; inversion H; subst; auto | intros (_ & -> & ->); auto].
    + split; [tauto | intros (? & _); contradiction].
  - destruct t as [|x [|y t]]; simpl.
    + split; [intros [H|[]]; inversion H; subst; auto | intros (_ & -> & ->); auto].
    + destruct (Ascii.eqb_spec x LF); simpl.
      * subst. split; [intros [H|[]]; inversion H; subst; auto | intros (_ & -> & ->); auto].
      * split; [tauto | intros ([H|H] & _); [discriminate | inversion H; congruence]].
    + split; [tauto | intros ([H|H] & _); discriminate].
  - destruct t as [|x t]; simpl.
    + split; [tauto | intros (x & H & _); discriminate].
    + destruct (lit_eqb icase c x) eqn:Hx; simpl.
      * split; [intros [H|[]]; inversion H; subst; eauto
               | intros (y & H & _ & ->); inversion H; subst; auto].
      * split; [tauto | intros (y & H & Hy & _); inversion H; subst; congruence].
  - rewrite in_map_iff. split.
    + intros (t0 & H & Hin). inversion H; subst.
      apply plus_cls_spec in Hin. destruct Hin as (w & ? & ? & ?). eauto.
    + intros (w & ? & ? & ? & ->). exists t'. split; [reflexivity|].
      apply plus_cls_spec. eauto.
  - destruct t as [|x t]; simpl.
    + split; [tauto | intros (x & H & _); discriminate].
    + destruct (in_cls icase k x) eqn:Hx; simpl.
      * split; [intros [H|[]]; inversion H; subst; eauto
               | intros (y & H & _ & ->); inversion H; subst; auto].
      * split; [tauto | intros (y & H & Hy & _); inversion H; subst; congruence].
  - rewrite in_flat_map. split.
    + intros ((t1, e1) & H1 & H2). apply IHa in H1. apply IHb in H2. eauto.
    + intros (t1 & e1 & H1 & H2). exists (t1, e1). split; [now apply IHa | now apply IHb].
  - rewrite in_app_iff, IHa. simpl. split.
    + intros [H | [H | []]]; [auto | inversion H; subst; auto].
    + intros [H | (-> & ->)]; auto.
  - rewrite in_map_iff. split.
    + intros ((t1, e1) & H & Hin). simpl in H. inversion H; subst.
      apply IHa in Hin. eauto.
    + intros (e1 & H & ->). exists (t', e1). split; [reflexivity | now apply IHa].
Qed.

Lemma firstn_consumed (w t' : str) :
  firstn (length (w ++ t') - length t') (w ++ t') = w.
Proof.
  rewrite length_app, Nat.add_sub. rewrite firstn_app, Nat.sub_diag.
  simpl. rewrite app_nil_r. apply firstn_all.
Qed.

(** ** Characters of the pattern *)

Lemma lit_eqb_lower c x : lit_eqb true c x = true -> lower x = lower c.
Proof. unfold lit_eqb. apply Ascii.eqb_eq. Qed.

Ltac all_ascii x :=
  destruct x as [[] [] [] [] [] [] [] []]; vm_compute; try intuition congruence.

Lemma lower_underscore x : lower x = "_"%char <-> x = "_"%char.
Proof. all_ascii x. Qed.

Lemma in_cls_any x : in_cls true Any x = true <-> x <> LF.
Proof. all_ascii x. Qed.

Lemma in_cls_not_underscore x : in_cls true (Not "_") x = true <-> x <> "_"%char.
Proof. all_ascii x. Qed.

Lemma in_cls_read x :
  in_cls true (OneOf ["1"; "2"]%char) x = true <-> x = "1"%char \/ x = "2"%char.
Proof. all_ascii x. Qed.

Lemma ext_char_plain c :
  ext_char c -> c <> "_"%char /\ c <> LF /\ is_digit c = false.
Proof. unfold ext_char. all_ascii c. Qed.

Lemma lower_l_plain c :
  lower c = "l"%char -> c <> "_"%char /\ c <> LF /\ is_digit c = false.
Proof. all_ascii c. Qed.

Lemma lower_r_plain c :
  lower c = "r"%char -> c <> "_"%char /\ c <> LF /\ is_digit c = false.
Proof. all_ascii c. Qed.

Lemma ext_ok_chars x : ext_ok x -> Forall ext_char x.
Proof.
  unfold ext_ok, ext_char. intros H. apply Forall_forall. intros c Hc.
  apply (in_map lower) in Hc. revert Hc. generalize (lower c). intros a.
  revert H. generalize (map lower x). intros m H Hc.
  cbv [s list_ascii_of_string In] in *.
  destruct H as [H|[H|[H|[H|[]]]]]; subst m; cbv [In] in Hc; tauto.
Qed.

Ltac lower_lits :=
  repeat match goal with
         | H : lit_eqb true ?c _ = true |- _ =>
             apply lit_eqb_lower in H;
             let v := eval vm_compute in (lower c) in change (lower c) with v in H
         end.

Ltac break_ex :=
  repeat match goal with
         | H : exists _, _ |- _ => destruct H
         | H : _ /\ _ |- _ => destruct H
         end.

Lemma lit_eqb_of_lower (c x : ascii) : lower x = lower c -> lit_eqb true c x = true.
Proof. intros H. unfold lit_eqb. now apply Ascii.eqb_eq. Qed.

Ltac strip_tail L T :=
  match L with
  | T => constr:(@nil ascii)
  | ?a :: ?L' => let r := strip_tail L' T in constr:(a :: r)
  end.

Lemma ext_den subject t t' e e' :
  den subject true ext_pattern t t' e e' <->
  exists x, ext_ok x /\ t = x ++ t' /\ e' = e.
Proof.
  unfold ext_pattern. cbn [den]. split.
  - intros H. break_ex.
    repeat match goal with H : _ \/ _ |- _ => destruct H end;
      break_ex; subst; lower_lits;
      match goal with
      | |- exists x, ext_ok x /\ ?L = x ++ ?T /\ _ =>
          let w := strip_tail L T in exists w; split; [| split; reflexivity]
      end;
      unfold ext_ok; cbn [map];
      repeat match goal with H : lower _ = _ |- _ => rewrite H; clear H end;
      cbv [s list_ascii_of_string In]; intuition reflexivity.
  - intros (x & Hx & -> & ->). unfold ext_ok in Hx.
    cbv [s list_ascii_of_string In] in Hx.
    destruct Hx as [H|[H|[H|[H|[]]]]];
      repeat (destruct x as [|? x]; cbn [map] in H; try discriminate H);
      injection H as ?; cbn [app].
    + eexists _, _. split; [eexists; split; [reflexivity|split; [now apply lit_eqb_of_lower|reflexivity]]|].
      eexists _, _. split.
      * eexists _, _. split; [eexists; split; [reflexivity|split; [now apply lit_eqb_of_lower|reflexivity]]|].
        eexists _, _. split.
        -- left. eexists _, _. split; [eexists; split; [reflexivity|split; [now apply lit_eqb_of_lower|reflexivity]]|].
           eexists _, _. split; eexists; (split; [reflexivity|split; [now apply lit_eqb_of_lower|reflexivity]]).
        -- eexists; split; [reflexivity|split; [now apply lit_eqb_of_lower|reflexivity]].
      * right. split; reflexivity.
    + eexists _, _. split; [eexists; split; [reflexivity|split; [now apply lit_eqb_of_lower|reflexivity]]|].
      eexists _, _. split.
      * eexists _, _. split; [eexists; split; [reflexivity|split; [now apply lit_eqb_of_lower|reflexivity]]|].
        eexists _, _. split.
        -- right. split; reflexivity.
        -- eexists; split; [reflexivity|split; [now apply lit_eqb_of_lower|reflexivity]].
      * right. split; reflexivity.
    + eexists _, _. split; [eexists; split; [reflexivity|split; [now apply lit_eqb_of_lower|reflexivity]]|].
      eexists _, _. split.
      * eexists _, _. split; [eexists; split; [reflexivity|split; [now apply lit_eqb_of_lower|reflexivity]]|].
        eexists _, _. split.
        -- left. eexists _, _. split; [eexists; split; [reflexivity|split; [now apply lit_eqb_of_lower|reflexivity]]|].
           eexists _, _. split; eexists; (split; [reflexivity|split; [now apply lit_eqb_of_lower|reflexivity]]).
        -- eexists; split; [reflexivity|split; [now apply lit_eqb_of_lower|reflexivity]].
      * left. eexists _, _. split; [eexists; split; [reflexivity|split; [now apply lit_eqb_of_lower|reflexivity]]|].
        eexists _, _. split; eexists; (split; [reflexivity|split; [now apply lit_eqb_of_lower|reflexivity]]).
    + eexists _, _. split; [eexists; split; [reflexivity|split; [now apply lit_eqb_of_lower|reflexivity]]|].
      eexists _, _. split.
      * eexists _, _. split; [eexists; split; [reflexivity|split; [now apply lit_eqb_of_lower|reflexivity]]|].
        eexists _, _. split.
        -- right. split; reflexivity.
        -- eexists; split; [reflexivity|split; [now apply lit_eqb_of_lower|reflexivity]].
      * left. eexists _, _. split; [eexists; split; [reflexivity|split; [now apply lit_eqb_of_lower|reflexivity]]|].
        eexists _, _. split; eexists; (split; [reflexivity|split; [now apply lit_eqb_of_lower|reflexivity]]).
Qed.

Lemma firstn_consumed1 (x : ascii) (t' : str) :
  firstn (length (x :: t') - length t') (x :: t') = [x].
Proof. exact (firstn_consumed [x] t'). Qed.

Lemma Forall_notin (P : ascii -> bool) (c : ascii) (w : str) :
  (forall x, P x = true <-> x <> c) ->
  Forall (fun x => P x = true) w <-> ~ In c w.
Proof.
  intros HP. rewrite Forall_forall. split.
  - intros H Hin. apply H in Hin. apply HP in Hin. congruence.
  - intros H x Hx. apply HP. intros ->. contradiction.
Qed.

Lemma FASTQ_den_iff f t' e :
  den f true FASTQ_pattern f t' [] e <->
  exists prefix sample lane read ext,
    lane_split f prefix sample lane read ext t' /\
    e = groups_env prefix sample lane read ext.
Proof.
  unfold FASTQ_pattern. cbn [den]. split.
  - intros H. break_ex.
    match goal with H : den _ _ ext_pattern _ _ _ _ |- _ => apply ext_den in H end.
    break_ex.
    repeat match goal with
    | E : ?t = ?w ++ ?t1, H : context [firstn (length ?t - length ?t1) ?t] |- _ =>
        rewrite E, firstn_consumed in H
    | E : ?t = ?x :: ?t1, H : context [firstn (length ?t - length ?t1) ?t] |- _ =>
        rewrite E, firstn_consumed1 in H
    end.
    subst. lower_lits.
    repeat match goal with
           | H : lower _ = "_"%char |- _ => apply -> lower_underscore in H
           end.
    subst.
    match goal with
    | Hp : Forall (fun x => in_cls true Any x = true) ?p,
      Hs : Forall (fun x => in_cls true (Not _) x = true) ?sa,
      Hd : Forall (fun x => in_cls true Digit x = true) ?dg,
      Hl : lower ?l = "l"%char, Hr : lower ?r = "r"%char,
      Hrd : in_cls true (OneOf _) ?d = true, Hx : ext_ok ?x |- _ =>
        exists p, sa, dg, [d], x; split; [| reflexivity];
        exists l, r;
        apply (proj1 (@Forall_notin (in_cls true Any) LF p in_cls_any)) in Hp;
        apply (proj1 (@Forall_notin (in_cls true (Not "_")) "_"%char sa
                                    in_cls_not_underscore)) in Hs;
        apply in_cls_read in Hrd;
        repeat split; auto;
        destruct Hrd as [-> | ->]; [left | right]; reflexivity
    end.
  - intros (p & sa & dg & rd & x & (l & r & -> & Hp & Hpn & Hs & Hsn & Hl & Hd & Hdd & Hr & Hrd & Hx & Ht) & ->).
    assert (Hlit : forall c, lit_eqb true c c = true)
      by (intros c; apply lit_eqb_of_lower; reflexivity).
    apply (proj2 (@Forall_notin (in_cls true Any) LF p in_cls_any)) in Hpn.
    apply (proj2 (@Forall_notin (in_cls true (Not "_")) "_"%char sa
                                in_cls_not_underscore)) in Hsn.
    eexists _, _. split; [repeat split; reflexivity|].
    eexists _, _. split.
    { eexists. split; [exists p; repeat split; try assumption; reflexivity | reflexivity]. }
    eexists _, _. split; [eexists; repeat split; apply Hlit|].
    eexists _, _. split.
    { eexists. split; [exists sa; repeat split; try assumption; reflexivity | reflexivity]. }
    eexists _, _. split; [eexists; repeat split; apply Hlit|].
    eexists _, _. split; [eexists; repeat split; now apply lit_eqb_of_lower|].
    eexists _, _. split.
    { eexists. split; [exists dg; repeat split; try assumption; reflexivity | reflexivity]. }
    eexists _, _. split; [eexists; repeat split; apply Hlit|].
    eexists _, _. split; [eexists; repeat split; now apply lit_eqb_of_lower|].
    assert (Hd1 : exists d, rd = [d] /\ in_cls true (OneOf ["1"; "2"]%char) d = true).
    { destruct Hrd as [-> | ->]; eexists; split; reflexivity. }
    destruct Hd1 as (d & -> & Hd1).
    exists (x ++ t'). eexists. split.
    { eexists. split; [exists d; repeat split; assumption | reflexivity]. }
    exists t'. eexists. split.
    { eexists. split; [apply ext_den; exists x; repeat split; assumption | reflexivity]. }
    repeat split; [assumption|].
    unfold groups_env. cbn [app]. now rewrite !firstn_consumed, firstn_consumed1.
Qed.

Ltac list_norm := repeat first [rewrite <- app_assoc | progress cbn [app]].

Lemma tail_unique (x x' tl tl' : str) :
  ~ In LF x -> ~ In LF x' ->
  (tl = [] \/ tl = [LF]) -> (tl' = [] \/ tl' = [LF]) ->
  x ++ tl = x' ++ tl' -> x = x' /\ tl = tl'.
Proof.
  intros Hx Hx' [-> | ->] [-> | ->] E.
  - rewrite !app_nil_r in E. auto.
  - rewrite app_nil_r in E. subst x. exfalso. apply Hx.
    apply in_or_app. right. now left.
  - rewrite app_nil_r in E. subst x'. exfalso. apply Hx'.
    apply in_or_app. right. now left.
  - apply app_inj_tail in E. tauto.
Qed.

Lemma ext_no_LF x : ext_ok x -> ~ In LF x.
Proof.
  intros H Hin. apply ext_ok_chars in H. rewrite Forall_forall in H.
  apply H in Hin. apply ext_char_plain in Hin. tauto.
Qed.

Lemma read_char rd : rd = s "1" \/ rd = s "2" ->
  exists d, rd = [d] /\ (d = "1" \/ d = "2")%char.
Proof. intros [-> | ->]; eexists; split; try reflexivity; auto. Qed.

Lemma ext_tail_chars x tl :
  ext_ok x -> (tl = [] \/ tl = [LF]) ->
  Forall (fun c => ext_char c \/ c = LF) (x ++ tl).
Proof.
  intros Hx Ht. apply Forall_app. split.
  - apply ext_ok_chars in Hx. eapply Forall_impl; [|exact Hx]. simpl. auto.
  - destruct Ht as [-> | ->]; [constructor | constructor; [now right | constructor]].
Qed.

Lemma read_not_ext d : (d = "1" \/ d = "2")%char -> ~ (ext_char d \/ d = LF).
Proof. intros [-> | ->]; vm_compute; intuition congruence. Qed.

Lemma lane_split_unique f p sa dg rd x tl p' sa' dg' rd' x' tl' :
  lane_split f p sa dg rd x tl -> lane_split f p' sa' dg' rd' x' tl' ->
  p = p' /\ sa = sa' /\ dg = dg' /\ rd = rd' /\ x = x' /\ tl = tl'.
Proof.
  intros (l & r & E & Hp & Hpn & Hs & Hsn & Hl & Hd & Hdd & Hr & Hrd & Hx & Ht)
         (l' & r' & E' & Hp' & Hpn' & Hs' & Hsn' & Hl' & Hd' & Hdd' & Hr' & Hrd' & Hx' & Ht').
  rewrite E in E'. clear E.
  apply read_char in Hrd, Hrd'.
  destruct Hrd as (d & -> & Hd1), Hrd' as (d' & -> & Hd1').
  cbn [app] in E'.
  (* the cut at the read digit *)
  assert (E1 : (p ++ "_" :: sa ++ "_" :: l :: dg ++ ["_"; r])%char ++ d :: (x ++ tl)
             = (p' ++ "_" :: sa' ++ "_" :: l' :: dg' ++ ["_"; r'])%char ++ d' :: (x' ++ tl'))
    by (list_norm; exact E').
  apply (@last_separator (fun c => ext_char c \/ c = LF)) in E1;
    [| now apply ext_tail_chars | now apply ext_tail_chars
     | now apply read_not_ext | now apply read_not_ext].
  destruct E1 as (E1 & -> & E2).
  apply tail_unique in E2; try assumption; try now apply ext_no_LF.
  destruct E2 as (-> & ->).
  (* the literals [_R] *)
  assert (E3 : ((p ++ "_" :: sa ++ "_" :: l :: dg) ++ ["_"])%char ++ [r]
             = ((p' ++ "_" :: sa' ++ "_" :: l' :: dg') ++ ["_"])%char ++ [r'])
    by (list_norm; exact E1).
  apply app_inj_tail in E3. destruct E3 as (E3 & _).
  apply app_inj_tail in E3. destruct E3 as (E3 & _).
  (* the cut at [L], before the digits *)
  assert (E4 : (p ++ "_" :: sa ++ ["_"])%char ++ l :: dg
             = (p' ++ "_" :: sa' ++ ["_"])%char ++ l' :: dg')
    by (list_norm; exact E3).
  apply (@last_separator (fun c => is_digit c = true)) in E4;
    [| assumption | assumption
     | apply lower_l_plain in Hl; intuition congruence
     | apply lower_l_plain in Hl'; intuition congruence].
  destruct E4 as (E4 & _ & ->).
  (* the cut at the underscore before the sample *)
  assert (E5 : (p ++ "_" :: sa)%char ++ ["_"%char] = (p' ++ "_" :: sa')%char ++ ["_"%char])
    by (list_norm; exact E4).
  apply app_inj_tail in E5. destruct E5 as (E5 & _).
  apply (@last_separator (fun c => c <> "_"%char)) in E5;
    [| apply Forall_forall; intros c Hc ->; contradiction
     | apply Forall_forall; intros c Hc ->; contradiction
     | tauto | tauto].
  destruct E5 as (-> & _ & ->). repeat split.
Qed.


(** ** The Matcher *)

(** A match of [FASTQ_RE] has the accepted shape, with the groups as the
    text of its parts. *)
Lemma FASTQ_RE_some f e :
  FASTQ_RE f = Some e ->
  exists tl, lane_split f (group "prefix" e) (group "sample" e) (group "lane" e)
                        (group "read" e) (group "ext" e) tl.
Proof.
  unfold FASTQ_RE, match_. intros H.
  destruct (run f true FASTQ_pattern f []) as [|[t' e'] rest] eqn:R; [discriminate|].
  inversion H; subst e'. clear H.
  assert (Hin : In (t', e) (run f true FASTQ_pattern f []))
    by (rewrite R; now left).
  apply run_spec, FASTQ_den_iff in Hin.
  destruct Hin as (p & sa & dg & rd & x & Hs & ->). exists t'. exact Hs.
Qed.

(** A name of the accepted shape is matched, and the groups are the
    parts of the shape. *)
Lemma FASTQ_RE_complete f p sa dg rd x tl :
  lane_split f p sa dg rd x tl ->
  exists e, FASTQ_RE f = Some e /\ match_groups e = mkMatch p sa dg rd x.
Proof.
  intros Hs.
  assert (Hin : In (tl, groups_env p sa dg rd x) (run f true FASTQ_pattern f [])).
  { apply run_spec, FASTQ_den_iff. exists p, sa, dg, rd, x. auto. }
  destruct (FASTQ_RE f) as [e|] eqn:R.
  - exists e. split; [reflexivity|].
    destruct (FASTQ_RE_some _ R) as (tl' & Hs').
    destruct (lane_split_unique Hs Hs') as (-> & -> & -> & -> & -> & _).
    reflexivity.
  - unfold FASTQ_RE, match_ in R.
    destruct (run f true FASTQ_pattern f []) as [|[? ?] ?]; [contradiction|discriminate].
Qed.

Lemma lane_split_no_LF f p sa dg rd x tl :
  ~ In LF f -> lane_split f p sa dg rd x tl -> tl = [].
Proof.
  intros Hf (l & r & E & H). destruct H as (_ & _ & _ & _ & _ & _ & _ & _ & _ & _ & [-> | ->]);
    [reflexivity|].
  exfalso. apply Hf. rewrite E.
  apply in_or_app; right; right.
  apply in_or_app; right; right; right.
  apply in_or_app; right; right; right.
  apply in_or_app; right. apply in_or_app; right. now left.
Qed.

(** C3, as the specification words it, fails: the name [_A_L001_R1.fastq]
    ends with (is) the suffix [_<sample>_L<digits>_R<1|2><ext>], yet the
    Matcher rejects it, because the pattern asks for at least one
    character of prefix before the suffix. *)
Lemma C3_empty_prefix_rejected :
  ends_with_lane_suffix (s "_A_L001_R1.fastq") /\
  FASTQ_RE (s "_A_L001_R1.fastq") = None.
Proof.
  split; [| vm_compute; reflexivity].
  exists [], (s "A"), (s "001"), (s "1"), (s ".fastq"), "L"%char, "R"%char.
  repeat split; try (vm_compute; congruence).
  - vm_compute. intuition congruence.
  - repeat constructor.
  - now left.
  - vm_compute. auto.
Qed.

(** ** Directory listings *)

Lemma find_replace_same c n es : find_entry c (replace_entry c n es) = Some n.
Proof.
  induction es as [|[c' n'] es IH]; simpl.
  - now rewrite str_eqb_refl.
  - destruct (str_eqb c' c) eqn:E; simpl.
    + now rewrite str_eqb_refl.
    + now rewrite E.
Qed.

Lemma find_replace_other c c' n es :
  c' <> c -> find_entry c' (replace_entry c n es) = find_entry c' es.
Proof.
  intros Hc. induction es as [|[c0 n0] es IH]; simpl.
  - assert (str_eqb c c' = false) as -> by (apply str_eqb_neq; congruence).
    reflexivity.
  - destruct (str_eqb c0 c) eqn:E; simpl.
    + apply str_eqb_eq in E. subst c0.
      assert (str_eqb c c' = false) as -> by (apply str_eqb_neq; congruence).
      reflexivity.
    + now rewrite IH.
Qed.

Lemma find_remove_same c es : find_entry c (remove_entry c es) = None.
Proof.
  unfold remove_entry. induction es as [|[c' n'] es IH]; simpl; [reflexivity|].
  destruct (str_eqb c' c) eqn:E; simpl; [assumption|]. now rewrite E.
Qed.

Lemma find_remove_other c c' es :
  c' <> c -> find_entry c' (remove_entry c es) = find_entry c' es.
Proof.
  intros Hc. unfold remove_entry.
  induction es as [|[c0 n0] es IH]; simpl; [reflexivity|].
  destruct (str_eqb c0 c) eqn:E; simpl.
  - apply str_eqb_eq in E. subst c0.
    assert (str_eqb c c' = false) as -> by (apply str_eqb_neq; congruence).
    assumption.
  - now rewrite IH.
Qed.

Lemma find_set_same c o es : find_entry c (set_entry c o es) = o.
Proof. destruct o; simpl; [apply find_replace_same | apply find_remove_same]. Qed.

Lemma find_set_other c c' o es :
  c' <> c -> find_entry c' (set_entry c o es) = find_entry c' es.
Proof.
  intros. destruct o; simpl; [now apply find_replace_other | now apply find_remove_other].
Qed.

(** ** Locations of the tree *)

Lemma lookup_none p : lookup None p = None.
Proof. destruct p; reflexivity. Qed.

Lemma lookup_app o a b : lookup o (a ++ b) = lookup (lookup o a) b.
Proof.
  revert o. induction a as [|c a IH]; intros o; simpl; [reflexivity|].
  destruct o as [[d|es]|]; try apply IH; now rewrite lookup_none.
Qed.

Lemma leafy_below o c r : leafy o -> lookup o (c :: r) = None.
Proof. destruct o as [[d|[|e es]]|]; simpl; try tauto; intros _; apply lookup_none. Qed.

(** What is at [p] after a change at [p], when the parent of [p] is a
    directory. *)
Lemma lookup_alter_same f p : forall o,
  (p = [] \/ exists es, lookup o (removelast p) = Some (Dir es)) ->
  lookup (alter f p o) p = f (lookup o p).
Proof.
  induction p as [|c p IH]; intros o H; [reflexivity|].
  assert (Ho : exists es, o = Some (Dir es)).
  { destruct H as [H | (es & H)]; [discriminate|].
    destruct p as [|c' p]; simpl in H; [eauto|].
    destruct o as [[d|es0]|]; try discriminate. eauto. }
  destruct Ho as (es & ->). cbn [alter lookup]. rewrite find_set_same.
  apply IH. destruct p as [|c' p]; [now left|]. right.
  destruct H as [H | (es' & H)]; [discriminate|]. simpl in H. eauto.
Qed.

(** A change at a leaf [p] that leaves a leaf is not seen elsewhere. *)
Lemma kind_alter_other f p : forall o q,
  q <> p -> leafy (lookup o p) -> leafy (f (lookup o p)) ->
  kind_of (lookup (alter f p o) q) = kind_of (lookup o q).
Proof.
  induction p as [|c p IH]; intros o q Hq Hl Hl'.
  - destruct q as [|c' q]; [congruence|]. cbn [alter]. cbn [lookup] in Hl, Hl'.
    now rewrite (@leafy_below (f o) c' q Hl'), (@leafy_below o c' q Hl).
  - destruct o as [[d|es]|]; try reflexivity. cbn [alter].
    destruct q as [|c' q]; [reflexivity|]. cbn [lookup].
    destruct (str_eq_dec c' c) as [->|Hc].
    + rewrite find_set_same. apply IH; [congruence | exact Hl | exact Hl'].
    + now rewrite find_set_other.
Qed.

Lemma alter_root_dir f p fs :
  p <> [] -> exists es, alter f p (root fs) = Some (Dir es).
Proof. destruct p; [congruence|]. intros _. simpl. eauto. Qed.

Lemma root_update f p fs : p <> [] -> root (update f p fs) = alter f p (root fs).
Proof.
  intros Hp. unfold update. destruct (alter_root_dir f fs Hp) as (es & ->).
  reflexivity.
Qed.

Lemma stat_root fs : stat fs [] = Some KDir.
Proof. reflexivity. Qed.

(** Whatever exists lies in a directory. *)
Lemma stat_prefix_dir fs a b k :
  stat fs (a ++ b) = Some k -> b <> [] -> stat fs a = Some KDir.
Proof.
  unfold stat. rewrite lookup_app. intros H Hb.
  destruct (lookup (root fs) a) as [[d|es]|]; [|reflexivity|].
  - destruct b; [congruence|]. discriminate.
  - rewrite lookup_none in H. discriminate.
Qed.

Lemma stat_parent_dir fs p k :
  stat fs p = Some k -> p <> [] -> stat fs (removelast p) = Some KDir.
Proof.
  intros H Hp. destruct (exists_last Hp) as (a & c & ->).
  rewrite removelast_last. eapply stat_prefix_dir; [exact H | discriminate].
Qed.

Lemma stat_dir_lookup fs p :
  stat fs p = Some KDir -> exists es, lookup (root fs) p = Some (Dir es).
Proof.
  unfold stat. destruct (lookup (root fs) p) as [[d|es]|]; try discriminate. eauto.
Qed.

Lemma stat_file_lookup fs p d :
  stat fs p = Some (KFile d) <-> lookup (root fs) p = Some (File d).
Proof.
  unfold stat. destruct (lookup (root fs) p) as [[d'|es]|]; simpl;
    split; intros H; inversion H; reflexivity.
Qed.

Lemma stat_none_lookup fs p : stat fs p = None <-> lookup (root fs) p = None.
Proof.
  unfold stat. destruct (lookup (root fs) p) as [[d'|es]|]; simpl;
    split; intros H; inversion H; reflexivity.
Qed.

Lemma stat_update_same f p fs :
  p <> [] -> stat fs (removelast p) = Some KDir ->
  stat (update f p fs) p = kind_of (f (lookup (root fs) p)).
Proof.
  intros Hp Hd. unfold stat at 1. rewrite root_update by assumption.
  rewrite lookup_alter_same; [reflexivity|]. right. now apply stat_dir_lookup.
Qed.

Lemma stat_update_other f p q fs :
  p <> [] -> q <> p ->
  leafy (lookup (root fs) p) -> leafy (f (lookup (root fs) p)) ->
  stat (update f p fs) q = stat fs q.
Proof.
  intros Hp Hq Hl Hl'. unfold stat. rewrite root_update by assumption.
  now apply kind_alter_other.
Qed.

(** ** File-system operations *)

Lemma leafy_file_lookup fs p d : stat fs p = Some (KFile d) -> leafy (lookup (root fs) p).
Proof. intros H. apply stat_file_lookup in H. now rewrite H. Qed.

Lemma leafy_none_lookup fs p : stat fs p = None -> leafy (lookup (root fs) p).
Proof. intros H. apply stat_none_lookup in H. now rewrite H. Qed.

Lemma os_unlink_spec p fs fs' :
  os_unlink p fs = (inr tt, fs') -> p <> [] ->
  (exists d, stat fs p = Some (KFile d)) /\ stat fs' p = None /\
  forall q, q <> p -> stat fs' q = stat fs q.
Proof.
  unfold os_unlink. intros H Hp.
  destruct (stat fs p) as [[d|]|] eqn:S; inversion H; subst fs'.
  split; [eauto|]. split.
  - rewrite stat_update_same; [reflexivity | assumption |].
    eapply stat_parent_dir; eauto.
  - intros q Hq. apply stat_update_other; try assumption; [|exact I].
    eapply leafy_file_lookup; eauto.
Qed.

Lemma os_unlink_file p fs d :
  stat fs p = Some (KFile d) ->
  os_unlink p fs = (inr tt, update (fun _ => None) p fs).
Proof. unfold os_unlink. now intros ->. Qed.

Lemma open_wb_spec p fs fs' :
  open_wb p fs = (inr tt, fs') -> p <> [] ->
  stat fs' p = Some (KFile []) /\ forall q, q <> p -> stat fs' q = stat fs q.
Proof.
  unfold open_wb. intros H Hp.
  destruct (stat fs p) as [[d|]|] eqn:S.
  - inversion H; subst fs'. split.
    + rewrite stat_update_same; [reflexivity | assumption |].
      eapply stat_parent_dir; eauto.
    + intros q Hq. apply stat_update_other; try assumption; [|exact I].
      eapply leafy_file_lookup; eauto.
  - discriminate.
  - destruct (stat fs (removelast p)) as [[d|]|] eqn:S'; try discriminate.
    inversion H; subst fs'. split.
    + rewrite stat_update_same; [reflexivity | assumption | assumption].
    + intros q Hq. apply stat_update_other; try assumption; [|exact I].
      now apply leafy_none_lookup.
Qed.

Lemma open_wb_file p fs d :
  stat fs p = Some (KFile d) ->
  open_wb p fs = (inr tt, update (fun _ => Some (File [])) p fs).
Proof. unfold open_wb. now intros ->. Qed.

Lemma read_rb_spec p fs fs' d :
  read_rb p fs = (inr d, fs') -> fs' = fs /\ stat fs p = Some (KFile d).
Proof.
  unfold read_rb. destruct (stat fs p) as [[d'|]|]; intros H; inversion H; auto.
Qed.

Lemma read_rb_file p fs d : stat fs p = Some (KFile d) -> read_rb p fs = (inr d, fs).
Proof. unfold read_rb. now intros ->. Qed.

Lemma write_handle_spec p d d0 fs :
  p <> [] -> stat fs p = Some (KFile d0) ->
  exists fs', write_handle p d fs = (inr tt, fs') /\
              stat fs' p = Some (KFile (d0 ++ d)) /\
              forall q, q <> p -> stat fs' q = stat fs q.
Proof.
  intros Hp S. eexists. split; [reflexivity|].
  pose proof (proj1 (stat_file_lookup _ _ _) S) as L. split.
  - rewrite stat_update_same; [now rewrite L | assumption |].
    eapply stat_parent_dir; eauto.
  - intros q Hq. apply stat_update_other; try assumption; now rewrite L.
Qed.

(** [Path.mkdir(parents=True, exist_ok=True)] only adds directories, on
    the way to the one it is asked for. *)
Lemma makedirs_spec todo : forall done fs fs',
  makedirs done todo fs = (inr tt, fs') -> stat fs done = Some KDir ->
  stat fs' (done ++ todo) = Some KDir /\
  forall q, stat fs' q = stat fs q \/
            (stat fs q = None /\ stat fs' q = Some KDir /\
             exists r, done ++ todo = q ++ r).
Proof.
  induction todo as [|c todo IH]; intros done fs fs' H Hd; simpl in H.
  - inversion H; subst. rewrite app_nil_r. auto.
  - assert (Hq0 : done ++ [c] <> []) by (destruct done; discriminate).
    destruct (stat fs (done ++ [c])) as [[d|]|] eqn:S.
    + discriminate.
    + apply IH in H; [|assumption].
      rewrite <- app_assoc in H. exact H.
    + set (fs1 := update (fun _ => Some (Dir [])) (done ++ [c]) fs) in *.
      assert (S1 : stat fs1 (done ++ [c]) = Some KDir).
      { unfold fs1. rewrite stat_update_same; [reflexivity | assumption |].
        now rewrite removelast_last. }
      assert (F1 : forall q, q <> done ++ [c] -> stat fs1 q = stat fs q).
      { intros q Hq. apply stat_update_other; try assumption; [|exact I].
        now apply leafy_none_lookup. }
      apply IH in H; [|assumption]. rewrite <- app_assoc in H.
      destruct H as (H1 & H2). split; [exact H1|].
      intros q. destruct (list_eq_dec str_eq_dec q (done ++ [c])) as [->|Hq].
      * right. split; [assumption|]. split.
        -- destruct (H2 (done ++ [c])) as [E | (E & _)]; congruence.
        -- exists todo. now rewrite <- app_assoc.
      * rewrite <- (F1 q Hq). apply H2.
Qed.

Lemma makedirs_existing todo : forall done fs,
  stat fs (done ++ todo) = Some KDir -> makedirs done todo fs = (inr tt, fs).
Proof.
  induction todo as [|c todo IH]; intros done fs H; simpl; [reflexivity|].
  assert (S : stat fs (done ++ [c]) = Some KDir).
  { destruct todo as [|c' todo]; [exact H|].
    apply stat_prefix_dir with (b := c' :: todo) (k := KDir); [|discriminate].
    now rewrite <- app_assoc. }
  rewrite S. apply IH. now rewrite <- app_assoc.
Qed.

Lemma makedirs_keeps todo done fs fs' q k :
  makedirs done todo fs = (inr tt, fs') -> stat fs done = Some KDir ->
  stat fs q = Some k -> stat fs' q = Some k.
Proof.
  intros H Hd S. destruct (makedirs_spec _ _ _ H Hd) as (_ & F).
  destruct (F q) as [E | (E & _)]; congruence.
Qed.

Lemma makedirs_files todo done fs fs' q d :
  makedirs done todo fs = (inr tt, fs') -> stat fs done = Some KDir ->
  stat fs' q = Some (KFile d) -> stat fs q = Some (KFile d).
Proof.
  intros H Hd S. destruct (makedirs_spec _ _ _ H Hd) as (_ & F).
  destruct (F q) as [E | (_ & E & _)]; congruence.
Qed.

(** ** Sorting by lane *)

Lemma insert_by_lane_perm e l : Permutation (insert_by_lane e l) (e :: l).
Proof.
  induction l as [|x l IH]; simpl; [reflexivity|].
  destruct (lane e <=? lane x)%N; [reflexivity|].
  rewrite IH. apply perm_swap.
Qed.

Lemma sorted_by_lane_perm l : Permutation (sorted_by_lane l) l.
Proof.
  induction l as [|e l IH]; simpl; [reflexivity|].
  rewrite insert_by_lane_perm. now constructor.
Qed.

Lemma insert_by_lane_sorted e l :
  Sorted lane_le l -> Sorted lane_le (insert_by_lane e l).
Proof.
  induction l as [|x l IH]; intros H; simpl.
  - repeat constructor.
  - destruct (lane e <=? lane x)%N eqn:E.
    + constructor; [assumption|]. constructor. now apply N.leb_le.
    + inversion H as [|? ? Hs Hr]; subst. constructor; [now apply IH|].
      assert (Hx : lane_le x e).
      { unfold lane_le. apply N.leb_gt in E. lia. }
      destruct l as [|y l]; simpl.
      * now constructor.
      * destruct (lane e <=? lane y)%N; constructor; [assumption|].
        now inversion Hr.
Qed.

Lemma sorted_by_lane_sorted l : Sorted lane_le (sorted_by_lane l).
Proof.
  induction l as [|e l IH]; simpl; [constructor | now apply insert_by_lane_sorted].
Qed.

Lemma insert_by_lane_stable n e l :
  of_lane n (insert_by_lane e l) = of_lane n (e :: l).
Proof.
  unfold of_lane. induction l as [|x l IH]; [reflexivity|].
  cbn [insert_by_lane]. destruct (lane e <=? lane x)%N eqn:E; [reflexivity|].
  cbn [filter] in *. rewrite IH.
  destruct (lane x =? n)%N eqn:Ex, (lane e =? n)%N eqn:Ee; try reflexivity.
  apply N.eqb_eq in Ex, Ee. apply N.leb_gt in E. lia.
Qed.

(** A stable sort: the entries of one lane keep their order. *)
Lemma sorted_by_lane_stable n l : of_lane n (sorted_by_lane l) = of_lane n l.
Proof.
  induction l as [|e l IH]; [reflexivity|].
  cbn [sorted_by_lane fold_right]. rewrite insert_by_lane_stable.
  unfold of_lane in *. cbn [filter]. fold (sorted_by_lane l). now rewrite IH.
Qed.

(** ** Sequencing *)

Lemma bind_ok {A B} (c : M A) (k : A -> M B) fs fs' b :
  bind c k fs = (inr b, fs') ->
  exists a fs1, c fs = (inr a, fs1) /\ k a fs1 = (inr b, fs').
Proof.
  unfold bind. destruct (c fs) as [[e|a] fs1]; [discriminate|]. eauto.
Qed.

Lemma bind_intro {A B} (c : M A) (k : A -> M B) fs fs1 a :
  c fs = (inr a, fs1) -> bind c k fs = k a fs1.
Proof. unfold bind. now intros ->. Qed.

Lemma flat_map_ext_in {A B} (f g : A -> list B) l :
  (forall a, In a l -> f a = g a) -> flat_map f l = flat_map g l.
Proof.
  induction l as [|x l IH]; intros H; simpl; [reflexivity|].
  rewrite H by now left. f_equal. apply IH. intros a Ha. apply H. now right.
Qed.

Section Loops.
Variable A : Type.
Variable loc_of : A -> loc.
Variable dl : loc.
Hypothesis dl_not_root : dl <> [].

(** The loop of [concatenate]: each source is appended to the destination. *)
Lemma copy_loop files : forall fs fs' acc,
  (forall e, In e files -> loc_of e <> dl) ->
  stat fs dl = Some (KFile acc) ->
  for_each (fun e => d <- read_rb (loc_of e) ;; write_handle dl d) files fs
  = (inr tt, fs') ->
  stat fs' dl = Some (KFile (acc ++ flat_map (fun e => content fs (loc_of e)) files)) /\
  (forall q, q <> dl -> stat fs' q = stat fs q) /\
  (forall e, In e files -> exists d, stat fs (loc_of e) = Some (KFile d)).
Proof.
  induction files as [|e files IH]; intros fs fs' acc Hne S H; simpl in H.
  - inversion H; subst. simpl. rewrite app_nil_r. repeat split; auto.
    intros e [].
  - apply bind_ok in H. destruct H as ([] & fs1 & H1 & H2).
    apply bind_ok in H1. destruct H1 as (d & fs0 & Hr & Hw).
    apply read_rb_spec in Hr. destruct Hr as (-> & Sd).
    destruct (@write_handle_spec dl d acc fs dl_not_root S) as (fs1' & Hw' & S1 & F1).
    rewrite Hw in Hw'. inversion Hw'; subst fs1'. clear Hw'.
    apply IH with (acc := acc ++ d) in H2;
      [| intros; apply Hne; now right | assumption].
    destruct H2 as (S2 & F2 & Hall).
    assert (Hc : forall a, In a files -> content fs1 (loc_of a) = content fs (loc_of a)).
    { intros a Ha. unfold content. rewrite F1; [reflexivity|].
      apply Hne. now right. }
    split; [|split].
    + rewrite S2. cbn [flat_map]. rewrite <- app_assoc.
      rewrite (flat_map_ext_in _ _ _ Hc). unfold content at 2. now rewrite Sd.
    + intros q Hq. rewrite F2 by assumption. now apply F1.
    + intros a [<- | Ha]; [eauto|].
      destruct (Hall a Ha) as (d' & Hd'). exists d'.
      rewrite <- Hd'. symmetry. apply F1. apply Hne. now right.
Qed.

Lemma copy_loop_runs files : forall fs acc,
  (forall e, In e files -> loc_of e <> dl /\ exists d, stat fs (loc_of e) = Some (KFile d)) ->
  stat fs dl = Some (KFile acc) ->
  exists fs',
    for_each (fun e => d <- read_rb (loc_of e) ;; write_handle dl d) files fs
    = (inr tt, fs').
Proof.
  induction files as [|e files IH]; intros fs acc Hs S; simpl; [eexists; reflexivity|].
  destruct (Hs e (or_introl eq_refl)) as (Hne & d & Sd).
  destruct (@write_handle_spec dl d acc fs dl_not_root S) as (fs1 & Hw & S1 & F1).
  destruct (IH fs1 (acc ++ d)) as (fs' & H'); [|assumption|].
  - intros a Ha. destruct (Hs a (or_intror Ha)) as (Hn & d' & Hd').
    split; [assumption|]. exists d'. now rewrite F1.
  - exists fs'. erewrite bind_intro; [exact H'|].
    erewrite bind_intro; [exact Hw|]. now apply read_rb_file.
Qed.

(** The last loop of [relocate]: every source is removed. *)
Lemma unlink_loop es : forall fs fs',
  (forall e, In e es -> loc_of e <> []) ->
  for_each (fun e => os_unlink (loc_of e)) es fs = (inr tt, fs') ->
  (forall e, In e es -> stat fs' (loc_of e) = None) /\
  (forall q, (forall e, In e es -> loc_of e <> q) -> stat fs' q = stat fs q).
Proof.
  induction es as [|e es IH]; intros fs fs' Hnr H; simpl in H.
  - inversion H; subst. split; [intros e [] | auto].
  - apply bind_ok in H. destruct H as ([] & fs1 & H1 & H2).
    apply os_unlink_spec in H1; [|apply Hnr; now left].
    destruct H1 as (_ & S1 & F1).
    apply IH in H2; [|intros; apply Hnr; now right].
    destruct H2 as (N2 & F2). split.
    + intros a [<- | Ha]; [|now apply N2].
      destruct (in_dec (list_eq_dec str_eq_dec) (loc_of e) (map loc_of es)) as [Hin|Hin].
      * apply in_map_iff in Hin. destruct Hin as (a & Ea & Ha).
        rewrite <- Ea. now apply N2.
      * rewrite F2; [assumption|]. intros a Ha Ea. apply Hin.
        rewrite <- Ea. now apply in_map.
    + intros q Hq. rewrite F2 by (intros; apply Hq; now right).
      apply F1. intros ->. now apply (Hq e (or_introl eq_refl)).
Qed.

Lemma unlink_loop_runs es : forall fs,
  NoDup (map loc_of es) ->
  (forall e, In e es -> loc_of e <> [] /\ exists d, stat fs (loc_of e) = Some (KFile d)) ->
  exists fs', for_each (fun e => os_unlink (loc_of e)) es fs = (inr tt, fs').
Proof.
  induction es as [|e es IH]; intros fs Hnd Hs; simpl; [eexists; reflexivity|].
  inversion Hnd as [|? ? Hnin Hnd']; subst.
  destruct (Hs e (or_introl eq_refl)) as (Hr & d & Sd).
  pose proof (@os_unlink_file (loc_of e) fs d Sd) as Hu.
  pose proof Hu as Hu'. apply os_unlink_spec in Hu'; [|assumption].
  destruct Hu' as (_ & _ & F1).
  destruct (IH (update (fun _ => None) (loc_of e) fs)) as (fs' & H'); [assumption| |].
  - intros a Ha. destruct (Hs a (or_intror Ha)) as (Hra & d' & Sd').
    split; [assumption|]. exists d'. rewrite F1; [assumption|].
    intros Ea. apply Hnin. rewrite <- Ea. now apply in_map.
  - exists fs'. erewrite bind_intro; [exact H' | exact Hu].
Qed.
End Loops.

(** ** Paths and locations *)

Lemma norm_last ps c : plain_name c -> norm (ps ++ [c]) = norm ps ++ [c].
Proof.
  intros (H0 & H1 & H2). unfold norm. rewrite fold_left_app. simpl.
  unfold norm_step.
  assert (str_eqb c (s "..") = false) as -> by now apply str_eqb_neq.
  assert (str_eqb c [] = false) as -> by now apply str_eqb_neq.
  assert (str_eqb c (s ".") = false) as -> by now apply str_eqb_neq.
  reflexivity.
Qed.

Lemma joinpath_plain p c :
  plain_name c -> joinpath p c = mkPath (absolute p) (parts p ++ [c]).
Proof.
  intros (H0 & H1 & _). unfold joinpath.
  assert (str_eqb c [] = false) as -> by now apply str_eqb_neq.
  assert (str_eqb c (s ".") = false) as -> by now apply str_eqb_neq.
  reflexivity.
Qed.

Lemma locate_joinpath env p c :
  plain_name c -> locate env (joinpath p c) = locate env p ++ [c].
Proof.
  intros Hc. rewrite joinpath_plain by assumption.
  unfold locate, resolve. cbn [parts absolute].
  destruct (absolute p).
  - now apply norm_last.
  - rewrite app_assoc. now apply norm_last.
Qed.

Lemma parent_joinpath p c : plain_name c -> parent (joinpath p c) = p.
Proof.
  intros Hc. rewrite joinpath_plain by assumption. unfold parent.
  cbn [parts absolute]. rewrite removelast_last. now destruct p.
Qed.

(** ** Names of sources and of destinations *)

Lemma not_underscore_chars (w : str) :
  Forall (fun c => c <> "_"%char) w <-> ~ In "_"%char w.
Proof.
  rewrite Forall_forall. split.
  - intros H Hin. now apply (H _ Hin).
  - intros H c Hc ->. contradiction.
Qed.

Lemma ext_no_underscore x : ext_ok x -> ~ In "_"%char x.
Proof.
  intros H Hin. apply ext_ok_chars in H. rewrite Forall_forall in H.
  apply H in Hin. apply ext_char_plain in Hin. tauto.
Qed.

Lemma read_no_underscore rd : rd = s "1" \/ rd = s "2" -> ~ In "_"%char rd.
Proof. intros [-> | ->]; vm_compute; intuition congruence. Qed.

Lemma matched_key_ok f m :
  FASTQ_RE f = Some m -> key_ok (group "sample" m, group "read" m, group "ext" m).
Proof.
  intros H. destruct (FASTQ_RE_some _ H) as (tl & l & r & H').
  unfold key_ok. tauto.
Qed.

Lemma underscore_plain (c : str) : In "_"%char c -> plain_name c.
Proof.
  intros H. repeat split; intros ->; vm_compute in H; intuition congruence.
Qed.

Lemma matched_plain f m : FASTQ_RE f = Some m -> plain_name f.
Proof.
  intros H. destruct (FASTQ_RE_some _ H) as (tl & l & r & E & _).
  apply underscore_plain. rewrite E. apply in_or_app. right. now left.
Qed.

Lemma dest_name_plain k : plain_name (dest_name k).
Proof.
  destruct k as [[sa rd] x]. apply underscore_plain. unfold dest_name.
  apply in_or_app. right. now left.
Qed.

(** The text of a destination name after its sample holds no underscore. *)
Lemma dest_tail_chars rd x :
  (rd = s "1" \/ rd = s "2") -> ext_ok x ->
  Forall (fun c => c <> "_"%char) ("R"%char :: rd ++ x).
Proof.
  intros Hrd Hx. constructor; [discriminate|]. apply Forall_app. split.
  - now apply not_underscore_chars, read_no_underscore.
  - now apply not_underscore_chars, ext_no_underscore.
Qed.

(** No destination name is a lane-split name: the Scanner never takes an
    output of the program for an input. *)
Lemma dest_name_unmatched k : key_ok k -> FASTQ_RE (dest_name k) = None.
Proof.
  destruct k as [[sa rd] x]. intros (Hs & Hsn & Hrd & Hx).
  destruct (FASTQ_RE (dest_name (sa, rd, x))) as [m|] eqn:Hm; [|reflexivity].
  exfalso. destruct (FASTQ_RE_some _ Hm) as (tl & l & r & E & H).
  destruct H as (_ & _ & _ & _ & _ & _ & _ & Hr & Hrd' & Hx' & Ht).
  unfold dest_name in E. cbn [s list_ascii_of_string app] in E.
  set (p := group "prefix" m) in *. set (sa' := group "sample" m) in *.
  set (dg := group "lane" m) in *. set (rd' := group "read" m) in *.
  set (x' := group "ext" m) in *.
  assert (E1 : sa ++ "_"%char :: ("R"%char :: rd ++ x)
             = (p ++ "_" :: sa' ++ "_" :: l :: dg)%char ++ "_"%char :: (r :: rd' ++ x' ++ tl))
    by (list_norm; exact E).
  apply (@last_separator (fun c => c <> "_"%char)) in E1.
  - destruct E1 as (E1 & _). apply Hsn. rewrite E1.
    apply in_or_app. right. now left.
  - now apply dest_tail_chars.
  - constructor; [apply lower_r_plain in Hr; tauto|].
    apply Forall_app. split; [now apply not_underscore_chars, read_no_underscore|].
    apply Forall_app. split; [now apply not_underscore_chars, ext_no_underscore|].
    destruct Ht as [-> | ->]; repeat constructor. discriminate.
  - tauto.
  - tauto.
Qed.

(** The destination name determines the key. *)
Lemma dest_name_inj k1 k2 :
  key_ok k1 -> key_ok k2 -> dest_name k1 = dest_name k2 -> k1 = k2.
Proof.
  destruct k1 as [[sa1 rd1] x1], k2 as [[sa2 rd2] x2].
  intros (_ & Hn1 & Hr1 & Hx1) (_ & Hn2 & Hr2 & Hx2) E.
  unfold dest_name in E. cbn [s list_ascii_of_string app] in E.
  apply (@last_separator (fun c => c <> "_"%char)) in E;
    [| now apply dest_tail_chars | now apply dest_tail_chars | tauto | tauto].
  destruct E as (-> & _ & E). inversion E as [E'].
  apply read_char in Hr1, Hr2.
  destruct Hr1 as (d1 & -> & _), Hr2 as (d2 & -> & _).
  inversion E'. reflexivity.
Qed.

(** ** Destinations and sources on the disk *)

Lemma locate_dest env outdir k :
  exists pl, locate env (dest_path outdir k) = pl ++ [dest_name k] /\
             locate env (parent (dest_path outdir k)) = pl.
Proof.
  destruct k as [[sa rd] x]. unfold dest_path.
  exists (locate env (joinpath outdir sa)).
  rewrite parent_joinpath by apply dest_name_plain.
  split; [|reflexivity]. apply locate_joinpath, dest_name_plain.
Qed.

Lemma locate_dest_not_root env outdir k : locate env (dest_path outdir k) <> [].
Proof.
  destruct (locate_dest env outdir k) as (pl & -> & _). destruct pl; discriminate.
Qed.

Lemma locate_dest_parent env outdir k :
  locate env (parent (dest_path outdir k))
  = removelast (locate env (dest_path outdir k)).
Proof.
  destruct (locate_dest env outdir k) as (pl & -> & ->). now rewrite removelast_last.
Qed.

(** Distinct keys have distinct destinations. *)
Lemma locate_dest_inj env outdir k1 k2 :
  key_ok k1 -> key_ok k2 ->
  locate env (dest_path outdir k1) = locate env (dest_path outdir k2) -> k1 = k2.
Proof.
  intros H1 H2 E.
  destruct (locate_dest env outdir k1) as (pl1 & E1 & _).
  destruct (locate_dest env outdir k2) as (pl2 & E2 & _).
  rewrite E1, E2 in E. apply app_inj_tail in E. destruct E as (_ & E).
  now apply dest_name_inj.
Qed.

Lemma scanned_key_ok k e : scanned k e -> key_ok k.
Proof. intros (d & f & m & Hm & -> & _). eapply matched_key_ok; eauto. Qed.

Lemma locate_scanned env k e :
  scanned k e ->
  exists dl f, locate env (path e) = dl ++ [f] /\ FASTQ_RE f <> None.
Proof.
  intros (d & f & m & Hm & _ & ->). exists (locate env d), f. cbn [path].
  split; [|congruence]. apply locate_joinpath. eapply matched_plain; eauto.
Qed.

Lemma locate_scanned_not_root env k e : scanned k e -> locate env (path e) <> [].
Proof.
  intros H. destruct (locate_scanned env H) as (dl & f & -> & _).
  destruct dl; discriminate.
Qed.

(** A source is never a destination. *)
Lemma source_not_dest env outdir k e k' :
  scanned k e -> key_ok k' ->
  locate env (path e) <> locate env (dest_path outdir k').
Proof.
  intros Hs Hk E. destruct (locate_scanned env Hs) as (dl & f & E1 & Hf).
  destruct (locate_dest env outdir k') as (pl & E2 & _).
  rewrite E1, E2 in E. apply app_inj_tail in E. destruct E as (_ & ->).
  apply Hf. now apply dest_name_unmatched.
Qed.

(** ** The Scanner *)

Lemma match_file_scanned dirpath filename k e :
  In (k, e) (match_file dirpath filename) -> scanned k e.
Proof.
  unfold match_file. destruct (FASTQ_RE filename) as [m|] eqn:Hm; simpl; [|intros []].
  intros [H | []]. inversion H; subst. exists dirpath, filename, m. auto.
Qed.

Lemma find_fastqs_scanned env top exclude fs k e :
  In (k, e) (find_fastqs env top exclude fs) -> scanned k e.
Proof.
  unfold find_fastqs. rewrite in_flat_map.
  intros ([[dirpath dn] fns] & _ & H).
  destruct (match option_map (resolve env) exclude with
            | Some x => _ | None => false end); [contradiction|].
  apply in_flat_map in H. destruct H as (f & _ & H).
  eapply match_file_scanned; eauto.
Qed.

(** ** The Grouper *)

Lemma get_group_append k0 k e g :
  get_group k0 (append_group k e g)
  = if key_eq_dec k k0 then get_group k g ++ [e] else get_group k0 g.
Proof.
  induction g as [|[k' es] g IH]; simpl.
  - destruct (key_eq_dec k k0); reflexivity.
  - destruct (key_eq_dec k' k) as [->|Hk]; simpl.
    + destruct (key_eq_dec k k0); reflexivity.
    + destruct (key_eq_dec k' k0) as [->|Hk0].
      * destruct (key_eq_dec k k0); [congruence | reflexivity].
      * exact IH.
Qed.

Lemma keys_append k e g k0 :
  In k0 (map fst (append_group k e g)) <-> k0 = k \/ In k0 (map fst g).
Proof.
  induction g as [|[k' es] g IH]; simpl.
  - intuition.
  - destruct (key_eq_dec k' k) as [->|Hk]; simpl; [intuition|].
    rewrite IH. intuition.
Qed.

Lemma keys_append_nodup k e g :
  NoDup (map fst g) -> NoDup (map fst (append_group k e g)).
Proof.
  induction g as [|[k' es] g IH]; simpl; intros H.
  - repeat constructor. intros [].
  - inversion H; subst. destruct (key_eq_dec k' k) as [->|Hk]; simpl.
    + now constructor.
    + constructor; [|now apply IH].
      rewrite keys_append. intros [-> | Hin]; [congruence | contradiction].
Qed.

Lemma get_group_in k es g :
  NoDup (map fst g) -> In (k, es) g -> get_group k g = es.
Proof.
  induction g as [|[k' es'] g IH]; simpl; intros Hn Hin; [contradiction|].
  destruct Hin as [H | H].
  - inversion H; subst. now destruct (key_eq_dec k k).
  - inversion Hn; subst. destruct (key_eq_dec k' k) as [->|Hk].
    + exfalso. apply H2. change k with (fst (k, es)). now apply in_map.
    + now apply IH.
Qed.

Lemma in_get_group k g : In k (map fst g) -> In (k, get_group k g) g.
Proof.
  induction g as [|[k' es'] g IH]; simpl; [tauto|].
  destruct (key_eq_dec k' k) as [->|Hk]; [auto|].
  intros [-> | H]; [congruence | auto].
Qed.

Lemma collect_from ems : forall g,
  NoDup (map fst g) ->
  let g' := fold_left (fun groups em => append_group (fst em) (snd em) groups) ems g in
  NoDup (map fst g') /\
  (forall k, get_group k g' = get_group k g ++ group_of k ems) /\
  (forall k, In k (map fst g') <-> In k (map fst g) \/ In k (map fst ems)).
Proof.
  induction ems as [|[k e] ems IH]; intros g Hn; simpl.
  - split; [assumption|]. split; [intros; now rewrite app_nil_r | tauto].
  - destruct (IH (append_group k e g) (@keys_append_nodup k e g Hn)) as (H1 & H2 & H3).
    split; [exact H1|]. split.
    + intros k0. rewrite H2, get_group_append. unfold group_of. cbn [filter fst].
      destruct (key_eq_dec k k0) as [->|]; simpl; [now rewrite <- app_assoc | reflexivity].
    + intros k0. rewrite H3, keys_append. simpl. intuition congruence.
Qed.

(** The mapping of the Grouper: one group per key that was emitted,
    holding the entries emitted under that key in the order of emission. *)
Lemma collect_spec ems :
  NoDup (map fst (collect ems)) /\
  (forall k es, In (k, es) (collect ems) <->
                In k (map fst ems) /\ es = group_of k ems).
Proof.
  destruct (@collect_from ems [] (NoDup_nil _)) as (H1 & H2 & H3).
  fold (collect ems) in H1, H2, H3. split; [exact H1|].
  intros k es. split.
  - intros Hin.
    assert (Hk : In k (map fst (collect ems)))
      by (change k with (fst (k, es)); now apply in_map).
    apply H3 in Hk. destruct Hk as [[] | Hk]. split; [exact Hk|].
    rewrite <- (@get_group_in k es _ H1 Hin). now rewrite H2.
  - intros (Hk & ->).
    assert (Hk' : In k (map fst (collect ems))) by (apply H3; now right).
    apply in_get_group in Hk'. now rewrite H2 in Hk'.
Qed.

Lemma in_group_of k e ems : In e (group_of k ems) <-> In (k, e) ems.
Proof.
  unfold group_of. rewrite in_map_iff. split.
  - intros ([k' e'] & <- & H). apply filter_In in H. destruct H as (H & Hk).
    simpl in *. destruct (key_eq_dec k' k); [now subst | discriminate].
  - intros H. exists (k, e). split; [reflexivity|]. apply filter_In.
    split; [assumption|]. simpl. now destruct (key_eq_dec k k).
Qed.

Lemma collect_scanned env top exclude fs k es e :
  In (k, es) (collect (find_fastqs env top exclude fs)) -> In e es -> scanned k e.
Proof.
  intros H He. apply collect_spec in H. destruct H as (_ & ->).
  apply in_group_of in He. eapply find_fastqs_scanned; eauto.
Qed.

(** ** Moving a regular file *)

Lemma os_rename_file sl dl d fs :
  stat fs sl = Some (KFile d) -> sl <> dl -> stat fs dl <> Some KDir ->
  os_rename sl dl fs =
  match stat fs (removelast dl) with
  | Some KDir => (inr tt, update (fun _ => Some (File d)) dl (update (fun _ => None) sl fs))
  | _ => (inl (errno fs dl), fs)
  end.
Proof.
  intros S Hne Hd. unfold os_rename.
  rewrite (proj1 (stat_file_lookup _ _ _) S).
  destruct (list_eq_dec str_eq_dec sl dl); [contradiction|].
  destruct (stat fs dl) as [[d'|]|]; try reflexivity. congruence.
Qed.

Lemma os_rename_file_spec sl dl d fs fs' :
  stat fs sl = Some (KFile d) -> sl <> dl -> sl <> [] -> dl <> [] ->
  stat fs dl <> Some KDir ->
  os_rename sl dl fs = (inr tt, fs') ->
  stat fs' dl = Some (KFile d) /\ stat fs' sl = None.
Proof.
  intros S Hne Hs Hd Hk H. rewrite (@os_rename_file sl dl d fs S Hne Hk) in H.
  destruct (stat fs (removelast dl)) as [[d'|]|] eqn:P; try discriminate.
  inversion H; subst fs'. clear H.
  set (fsA := update (fun _ => None) sl fs).
  assert (FA : forall q, q <> sl -> stat fsA q = stat fs q).
  { intros q Hq. apply stat_update_other; try assumption; [|exact I].
    eapply leafy_file_lookup; eauto. }
  assert (SA : stat fsA sl = None).
  { unfold fsA. rewrite stat_update_same; [reflexivity | assumption |].
    eapply stat_parent_dir; eauto. }
  assert (PA : stat fsA (removelast dl) = Some KDir).
  { rewrite FA; [assumption|]. intros E. congruence. }
  assert (LA : leafy (lookup (root fsA) dl)).
  { assert (E : stat fsA dl = stat fs dl) by (apply FA; congruence).
    unfold stat at 1 in E. destruct (lookup (root fsA) dl) as [[?|[|? ?]]|]; try exact I.
    simpl in E. congruence. }
  split.
  - rewrite stat_update_same; [reflexivity | assumption | assumption].
  - rewrite stat_update_other; [assumption | assumption | assumption | assumption | exact I].
Qed.

Lemma shutil_move_onto env src dst fs :
  stat fs (locate env dst) <> Some KDir ->
  shutil_move env src dst fs = os_rename (locate env src) (locate env dst) fs.
Proof.
  intros H. unfold shutil_move.
  destruct (stat fs (locate env dst)) as [[d|]|]; try reflexivity. congruence.
Qed.

Lemma removelast_not_below (p r : loc) : p <> [] -> removelast p <> p ++ r.
Proof.
  intros Hp E. destruct (exists_last Hp) as (a & c & ->).
  rewrite removelast_last in E. apply (f_equal (@length _)) in E.
  rewrite !length_app in E. simpl in E. lia.
Qed.

(** ** The Consolidator *)

Lemma relocate_multi_eq env entries dest :
  length entries <> 1 ->
  relocate env entries dest =
  (Path_mkdir env (parent dest) ;;
   concatenate env entries dest ;;
   for_each (fun entry => os_unlink (locate env (path entry))) entries).
Proof.
  intros H. destruct entries as [|a [|b l]]; try reflexivity. simpl in H. congruence.
Qed.

Lemma Path_mkdir_spec env p fs fs' :
  Path_mkdir env p fs = (inr tt, fs') ->
  stat fs' (locate env p) = Some KDir /\
  (forall q k, stat fs q = Some k -> stat fs' q = Some k) /\
  (forall q d, stat fs' q = Some (KFile d) -> stat fs q = Some (KFile d)) /\
  (forall q, stat fs' q = stat fs q \/
             (stat fs q = None /\ stat fs' q = Some KDir /\
              exists r, locate env p = q ++ r)).
Proof.
  unfold Path_mkdir. intros H.
  destruct (@makedirs_spec _ _ _ _ H (stat_root fs)) as (H1 & H2).
  split; [exact H1|]. split; [|split; [|exact H2]].
  - intros q k. eapply makedirs_keeps; [exact H | apply stat_root].
  - intros q d. eapply makedirs_files; [exact H | apply stat_root].
Qed.

Lemma relocate_multi env entries dest fs fs' :
  length entries <> 1 -> locate env dest <> [] ->
  (forall e, In e entries ->
             locate env (path e) <> locate env dest /\ locate env (path e) <> []) ->
  relocate env entries dest fs = (inr tt, fs') ->
  stat fs' (locate env dest)
  = Some (KFile (flat_map (fun e => content fs (locate env (path e)))
                          (sorted_by_lane entries))) /\
  (forall e, In e entries -> stat fs' (locate env (path e)) = None).
Proof.
  intros Hlen Hd Hsrc H. rewrite relocate_multi_eq in H by assumption.
  apply bind_ok in H. destruct H as ([] & fsA & HA & H).
  apply bind_ok in H. destruct H as ([] & fsD & HC & HU).
  unfold concatenate in HC.
  apply bind_ok in HC. destruct HC as ([] & fsB & HB & HC).
  apply bind_ok in HC. destruct HC as ([] & fsC & HO & HL).
  apply Path_mkdir_spec in HA. destruct HA as (_ & _ & FA & _).
  apply Path_mkdir_spec in HB. destruct HB as (_ & _ & FB & _).
  apply open_wb_spec in HO; [|assumption]. destruct HO as (SC & FC).
  assert (Hsorted : forall e, In e (sorted_by_lane entries) -> In e entries).
  { intros e. apply Permutation_in, sorted_by_lane_perm. }
  apply (copy_loop (fun e => locate env (path e)) Hd) with (acc := []) in HL;
    [| intros e He; now apply Hsrc, Hsorted | assumption].
  destruct HL as (SD & FD & Hfiles).
  apply unlink_loop in HU; [|intros e He; now apply Hsrc].
  destruct HU as (NU & FU). split; [|exact NU].
  rewrite FU by (intros e He; now apply Hsrc). rewrite SD. cbn [app].
  do 2 f_equal. apply flat_map_ext_in. intros e He.
  destruct (Hfiles e He) as (d & Sd). unfold content. rewrite Sd.
  rewrite FC in Sd by now apply Hsrc, Hsorted.
  apply FB, FA in Sd. now rewrite Sd.
Qed.

Lemma relocate_multi_runs env entries dest fs old :
  length entries <> 1 ->
  stat fs (locate env dest) = Some (KFile old) ->
  locate env (parent dest) = removelast (locate env dest) ->
  NoDup (map (fun e => locate env (path e)) entries) ->
  (forall e, In e entries ->
             locate env (path e) <> locate env dest /\ locate env (path e) <> [] /\
             exists d, stat fs (locate env (path e)) = Some (KFile d)) ->
  exists fs', relocate env entries dest fs = (inr tt, fs').
Proof.
  intros Hlen Sd Hp Hnd Hsrc.
  assert (Hd : locate env dest <> []) by (intros E; rewrite E in Sd; discriminate).
  assert (HM : Path_mkdir env (parent dest) fs = (inr tt, fs)).
  { unfold Path_mkdir. apply makedirs_existing. simpl. rewrite Hp.
    eapply stat_parent_dir; eauto. }
  pose proof (@open_wb_file _ fs _ Sd) as HO.
  pose proof HO as HO'. apply open_wb_spec in HO'; [|assumption].
  destruct HO' as (SC & FC).
  set (fsC := update (fun _ => Some (File [])) (locate env dest) fs) in *.
  assert (Hsorted : forall e, In e (sorted_by_lane entries) -> In e entries).
  { intros e. apply Permutation_in, sorted_by_lane_perm. }
  destruct (@copy_loop_runs _ (fun e => locate env (path e)) _ Hd
              (sorted_by_lane entries) fsC []) as (fsD & HL); [|assumption|].
  { intros e He. destruct (Hsrc e (Hsorted e He)) as (H1 & _ & d & H3).
    split; [assumption|]. exists d. now rewrite FC. }
  pose proof HL as HL'.
  apply (copy_loop (fun e => locate env (path e)) Hd) with (acc := []) in HL';
    [| intros e He; now apply Hsrc, Hsorted | assumption].
  destruct HL' as (_ & FD & _).
  destruct (@unlink_loop_runs _ (fun e => locate env (path e)) entries fsD Hnd)
    as (fs' & HU).
  { intros e He. destruct (Hsrc e He) as (H1 & H2 & d & H3).
    split; [assumption|]. exists d. rewrite FD, FC; assumption. }
  exists fs'. rewrite relocate_multi_eq by assumption.
  erewrite bind_intro; [|exact HM]. unfold concatenate.
  erewrite bind_intro; [exact HU|].
  erewrite bind_intro; [|exact HM]. erewrite bind_intro; [exact HL | exact HO].
Qed.

Lemma relocate_single env e dest fs fs' d :
  locate env (path e) <> locate env dest ->
  locate env (path e) <> [] -> locate env dest <> [] ->
  locate env (parent dest) = removelast (locate env dest) ->
  stat fs (locate env (path e)) = Some (KFile d) ->
  stat fs (locate env dest) <> Some KDir ->
  relocate env [e] dest fs = (inr tt, fs') ->
  stat fs' (locate env dest) = Some (KFile d) /\
  stat fs' (locate env (path e)) = None.
Proof.
  intros Hne Hs Hd Hp Ss Sd H. unfold relocate in H.
  apply bind_ok in H. destruct H as ([] & fsA & HA & H).
  apply Path_mkdir_spec in HA. destruct HA as (_ & KA & _ & FA).
  assert (SdA : stat fsA (locate env dest) <> Some KDir).
  { destruct (FA (locate env dest)) as [E | (_ & _ & r & E)]; [congruence|].
    rewrite Hp in E. now apply removelast_not_below in E. }
  rewrite shutil_move_onto in H by assumption.
  apply (@os_rename_file_spec _ _ d fsA fs'); auto.
Qed.

Lemma relocate_single_runs env e dest fs d old :
  locate env (path e) <> locate env dest ->
  locate env (parent dest) = removelast (locate env dest) ->
  stat fs (locate env (path e)) = Some (KFile d) ->
  stat fs (locate env dest) = Some (KFile old) ->
  exists fs', relocate env [e] dest fs = (inr tt, fs').
Proof.
  intros Hne Hp Ss Sd.
  assert (Hd : locate env dest <> []) by (intros E; rewrite E in Sd; discriminate).
  assert (HP : stat fs (removelast (locate env dest)) = Some KDir)
    by (eapply stat_parent_dir; eauto).
  assert (HM : Path_mkdir env (parent dest) fs = (inr tt, fs)).
  { unfold Path_mkdir. apply makedirs_existing. simpl. now rewrite Hp. }
  eexists. unfold relocate. erewrite bind_intro; [|exact HM].
  rewrite shutil_move_onto by congruence.
  rewrite (@os_rename_file _ _ d fs Ss Hne) by congruence. rewrite HP. reflexivity.
Qed.

(** ** Claims on the Consolidator *)

Lemma length_flat_map {A B} (f : A -> list B) l :
  length (flat_map f l) = list_sum (map (fun a => length (f a)) l).
Proof.
  induction l as [|a l IH]; simpl; [reflexivity|].
  now rewrite length_app, IH.
Qed.

Lemma list_sum_perm l l' : Permutation l l' -> list_sum l = list_sum l'.
Proof. induction 1; simpl; lia. Qed.

(** What a group of the scan brings to [relocate]: sources that are not
    the destination. *)
Lemma group_sources env top exclude fs0 outdir key entries :
  In (key, entries) (collect (find_fastqs env top exclude fs0)) ->
  entries <> [] /\ key_ok key /\
  forall e, In e entries ->
            locate env (path e) <> locate env (dest_path outdir key) /\
            locate env (path e) <> [].
Proof.
  intros H.
  assert (Hs : forall e, In e entries -> scanned key e)
    by (intros e; eapply collect_scanned; eauto).
  assert (Hne : entries <> []).
  { apply collect_spec in H. destruct H as (Hk & ->).
    apply in_map_iff in Hk. destruct Hk as ([k e] & <- & Hin).
    apply in_group_of in Hin. intros E. simpl in *. rewrite E in Hin. exact Hin. }
  assert (Hk : key_ok key).
  { destruct entries as [|e l]; [congruence|].
    eapply scanned_key_ok, Hs. now left. }
  repeat split; try assumption.
  - eapply source_not_dest; eauto.
  - eapply locate_scanned_not_root; eauto.
Qed.

(** C2: when the consolidation of a group with more than one entry
    returns, none of the source paths of the group exists any more, and
    the destination is a regular file whose size is the sum of the sizes
    the sources had. *)
Theorem C2_multi_entry_sources_gone_sizes_add
        env top exclude fs0 outdir key entries fs fs' :
  In (key, entries) (collect (find_fastqs env top exclude fs0)) ->
  1 < length entries ->
  relocate env entries (dest_path outdir key) fs = (inr tt, fs') ->
  (forall e, In e entries -> stat fs' (locate env (path e)) = None) /\
  exists data,
    stat fs' (locate env (dest_path outdir key)) = Some (KFile data) /\
    length data = list_sum (map (fun e => size fs (locate env (path e))) entries).
Proof.
  intros Hg Hlen H.
  destruct (@group_sources env top exclude fs0 outdir key entries Hg) as (_ & _ & Hsrc).
  apply relocate_multi in H; [| lia | apply locate_dest_not_root | exact Hsrc].
  destruct H as (Hd & Hn). split; [exact Hn|].
  eexists. split; [exact Hd|].
  rewrite length_flat_map. apply list_sum_perm, Permutation_map, sorted_by_lane_perm.
Qed.

Lemma C2_multi_entry_sources_gone_sizes_add_witness :
  In (ex_key_A, [ex_A2; ex_A1]) ex_groups /\
  1 < length [ex_A2; ex_A1] /\
  (forall e, In e [ex_A2; ex_A1] ->
             stat (snd (relocate ex_env [ex_A2; ex_A1] (dest_path ex_outdir ex_key_A) ex_disk))
                  (locate ex_env (path e)) = None) /\
  exists data,
    stat (snd (relocate ex_env [ex_A2; ex_A1] (dest_path ex_outdir ex_key_A) ex_disk))
         (locate ex_env (dest_path ex_outdir ex_key_A)) = Some (KFile data) /\
    length data = list_sum (map (fun e => size ex_disk (locate ex_env (path e)))
                                [ex_A2; ex_A1]).
Proof.
  assert (Hg : In (ex_key_A, [ex_A2; ex_A1]) ex_groups)
    by (vm_compute; left; reflexivity).
  assert (Hl : 1 < length [ex_A2; ex_A1]) by (simpl; lia).
  split; [exact Hg|]. split; [exact Hl|].
  apply (@C2_multi_entry_sources_gone_sizes_add ex_env (mkPath false [])
           (Some ex_outdir) ex_disk ex_outdir ex_key_A [ex_A2; ex_A1] ex_disk _ Hg Hl).
  vm_compute. reflexivity.
Defined.

(** C4: the destination of a group with more than one entry holds the
    contents of the sources, one after the other with nothing between
    them, in the order of a stable sort by lane: non-decreasing lanes,
    the same entries, and the entries of one lane in their order of
    discovery. Lanes discovered as 3, 1, 2 are written as 1, 2, 3. *)
Theorem C4_concatenation_in_lane_order
        env top exclude fs0 outdir key entries fs fs' :
  In (key, entries) (collect (find_fastqs env top exclude fs0)) ->
  1 < length entries ->
  relocate env entries (dest_path outdir key) fs = (inr tt, fs') ->
  stat fs' (locate env (dest_path outdir key))
  = Some (KFile (concat (map (fun e => content fs (locate env (path e)))
                             (sorted_by_lane entries)))) /\
  Sorted lane_le (sorted_by_lane entries) /\
  Permutation (sorted_by_lane entries) entries /\
  (forall n, of_lane n (sorted_by_lane entries) = of_lane n entries) /\
  (forall e1 e2 e3, lane e1 = 1%N -> lane e2 = 2%N -> lane e3 = 3%N ->
                    sorted_by_lane [e3; e1; e2] = [e1; e2; e3]).
Proof.
  intros Hg Hlen H.
  destruct (@group_sources env top exclude fs0 outdir key entries Hg) as (_ & _ & Hsrc).
  apply relocate_multi in H; [| lia | apply locate_dest_not_root | exact Hsrc].
  destruct H as (Hd & _). rewrite <- flat_map_concat_map.
  split; [exact Hd|]. split; [apply sorted_by_lane_sorted|].
  split; [apply sorted_by_lane_perm|]. split; [intros; apply sorted_by_lane_stable|].
  intros [p1 l1] [p2 l2] [p3 l3]. cbn [lane]. intros -> -> ->. reflexivity.
Qed.

Lemma C4_concatenation_in_lane_order_witness :
  In (ex_key_A, [ex_A2; ex_A1]) ex_groups /\
  1 < length [ex_A2; ex_A1] /\
  stat (snd (relocate ex_env [ex_A2; ex_A1] (dest_path ex_outdir ex_key_A) ex_disk))
       (locate ex_env (dest_path ex_outdir ex_key_A))
  = Some (KFile (bytes "onetwo")).
Proof.
  assert (Hg : In (ex_key_A, [ex_A2; ex_A1]) ex_groups)
    by (vm_compute; left; reflexivity).
  assert (Hl : 1 < length [ex_A2; ex_A1]) by (simpl; lia).
  split; [exact Hg|]. split; [exact Hl|].
  refine (eq_trans (proj1 (@C4_concatenation_in_lane_order ex_env (mkPath false [])
           (Some ex_outdir) ex_disk ex_outdir ex_key_A [ex_A2; ex_A1] ex_disk _ Hg Hl _)) _).
  - vm_compute. reflexivity.
  - vm_compute. reflexivity.
Defined.

(** C5: the consolidation of a group with one entry does not always
    leave the bytes of the source at the destination path. When the
    destination path is an existing directory, [shutil.move] moves the
    file into that directory: on the example tree the group of sample
    [B] has one entry, its consolidation returns, the source path is
    gone, but the destination path is still a directory and the bytes
    sit in a file inside it. Where that directory already holds an entry
    of the source's name the same call raises the error of
    [shutil.move], and a group of two entries at the same destination
    raises [IsADirectoryError], the sources left in place: the branch
    for one entry is the only one that returns with a directory at the
    destination. *)
Lemma C5_move_into_existing_directory :
  (In (ex_key_B, [ex_B]) ex_groups /\
   stat ex_disk (locate ex_env (path ex_B)) = Some (KFile (bytes "bee")) /\
   exists fs',
     relocate ex_env [ex_B] (dest_path ex_outdir ex_key_B) ex_disk = (inr tt, fs') /\
     stat fs' (locate ex_env (path ex_B)) = None /\
     stat fs' (locate ex_env (dest_path ex_outdir ex_key_B)) = Some KDir /\
     stat fs' (locate ex_env (dest_path ex_outdir ex_key_B) ++ [s "x_B_L1_R2.fq"])
     = Some (KFile (bytes "bee"))) /\
  (In (ex_key_B, [ex_B])
      (collect (find_fastqs ex_env (mkPath false []) (Some ex_outdir) ex_disk_taken)) /\
   stat ex_disk_taken (locate ex_env (dest_path ex_outdir ex_key_B)) = Some KDir /\
   relocate ex_env [ex_B] (dest_path ex_outdir ex_key_B) ex_disk_taken
   = (inl ShutilError, ex_disk_taken)) /\
  (In (ex_key_B, [ex_B; ex_B2])
      (collect (find_fastqs ex_env (mkPath false []) (Some ex_outdir) ex_disk_lanes)) /\
   stat ex_disk_lanes (locate ex_env (dest_path ex_outdir ex_key_B)) = Some KDir /\
   relocate ex_env [ex_B; ex_B2] (dest_path ex_outdir ex_key_B) ex_disk_lanes
   = (inl IsADirectoryError, ex_disk_lanes)).
Proof.
  split; [|split].
  - split; [vm_compute; right; left; reflexivity|].
    split; [vm_compute; reflexivity|].
    eexists. split; [vm_compute; reflexivity|].
    repeat split; vm_compute; reflexivity.
  - split; [vm_compute; left; reflexivity|].
    split; vm_compute; reflexivity.
  - split; [vm_compute; left; reflexivity|].
    split; vm_compute; reflexivity.
Qed.

(** Away from a directory, the move of a lone entry leaves the bytes at
    the destination: for a group with exactly one entry, a regular file,
    whose destination path is not an existing directory, when the
    consolidation returns the destination is a regular file with exactly
    the bytes of the source, and the source path no longer exists. *)
Lemma single_entry_moved
        env top exclude fs0 outdir key e fs fs' data :
  In (key, [e]) (collect (find_fastqs env top exclude fs0)) ->
  stat fs (locate env (path e)) = Some (KFile data) ->
  stat fs (locate env (dest_path outdir key)) <> Some KDir ->
  relocate env [e] (dest_path outdir key) fs = (inr tt, fs') ->
  stat fs' (locate env (dest_path outdir key)) = Some (KFile data) /\
  stat fs' (locate env (path e)) = None.
Proof.
  intros Hg Ss Sd H.
  destruct (@group_sources env top exclude fs0 outdir key [e] Hg) as (_ & _ & Hsrc).
  destruct (Hsrc e (or_introl eq_refl)) as (Hne & Hr).
  eapply relocate_single; eauto.
  - apply locate_dest_not_root.
  - apply locate_dest_parent.
Qed.

Example single_entry_moved_on_example :
  In (ex_key_C, [ex_C]) ex_groups /\
  stat ex_disk (locate ex_env (path ex_C)) = Some (KFile (bytes "sea")) /\
  stat ex_disk (locate ex_env (dest_path ex_outdir ex_key_C)) <> Some KDir /\
  stat (snd (relocate ex_env [ex_C] (dest_path ex_outdir ex_key_C) ex_disk))
       (locate ex_env (dest_path ex_outdir ex_key_C)) = Some (KFile (bytes "sea")) /\
  stat (snd (relocate ex_env [ex_C] (dest_path ex_outdir ex_key_C) ex_disk))
       (locate ex_env (path ex_C)) = None.
Proof.
  assert (Hg : In (ex_key_C, [ex_C]) ex_groups)
    by (vm_compute; right; right; left; reflexivity).
  assert (Hs : stat ex_disk (locate ex_env (path ex_C)) = Some (KFile (bytes "sea")))
    by (vm_compute; reflexivity).
  assert (Hd : stat ex_disk (locate ex_env (dest_path ex_outdir ex_key_C)) <> Some KDir)
    by (vm_compute; discriminate).
  split; [exact Hg|]. split; [exact Hs|]. split; [exact Hd|].
  apply (@single_entry_moved ex_env (mkPath false []) (Some ex_outdir) ex_disk
           ex_outdir ex_key_C ex_C ex_disk _ _ Hg Hs Hd).
  vm_compute. reflexivity.
Qed.

(** C9: a regular file that already exists at the destination of a
    group is replaced. With the sources of the group on disk as distinct
    regular files, the consolidation returns (it does not refuse), and
    the destination then holds the consolidated bytes alone, whatever it
    held before: for one entry the bytes of the source, for several the
    concatenation in lane order. *)
Theorem C9_existing_destination_replaced
        env top exclude fs0 outdir key entries fs old :
  In (key, entries) (collect (find_fastqs env top exclude fs0)) ->
  stat fs (locate env (dest_path outdir key)) = Some (KFile old) ->
  NoDup (map (fun e => locate env (path e)) entries) ->
  (forall e, In e entries -> exists d, stat fs (locate env (path e)) = Some (KFile d)) ->
  exists fs',
    relocate env entries (dest_path outdir key) fs = (inr tt, fs') /\
    stat fs' (locate env (dest_path outdir key))
    = Some (KFile (concat (map (fun e => content fs (locate env (path e)))
                               (sorted_by_lane entries)))).
Proof.
  intros Hg Sd Hnd Hfiles.
  destruct (@group_sources env top exclude fs0 outdir key entries Hg)
    as (Hne & _ & Hsrc).
  rewrite <- flat_map_concat_map.
  destruct (Nat.eq_dec (length entries) 1) as [Hlen | Hlen].
  - destruct entries as [|e [|e' l]]; try discriminate. clear Hlen.
    destruct (Hfiles e (or_introl eq_refl)) as (d & Ss).
    destruct (Hsrc e (or_introl eq_refl)) as (Hn & Hr).
    destruct (@relocate_single_runs env e (dest_path outdir key) fs d old)
      as (fs' & H); try assumption; [apply locate_dest_parent|].
    exists fs'. split; [exact H|].
    apply relocate_single with (d := d) in H; try assumption;
      [| apply locate_dest_not_root | apply locate_dest_parent | congruence].
    destruct H as (H & _). rewrite H.
    cbn [sorted_by_lane fold_right insert_by_lane flat_map]. unfold content. rewrite Ss.
    now rewrite app_nil_r.
  - destruct (@relocate_multi_runs env entries (dest_path outdir key) fs old)
      as (fs' & H); try assumption; [apply locate_dest_parent | |].
    + intros e He. destruct (Hsrc e He). auto.
    + exists fs'. split; [exact H|].
      apply relocate_multi in H; try assumption; [| apply locate_dest_not_root].
      tauto.
Qed.

Lemma C9_existing_destination_replaced_witness :
  In (ex_key_A, [ex_A2; ex_A1]) ex_groups /\
  stat ex_disk (locate ex_env (dest_path ex_outdir ex_key_A))
  = Some (KFile (bytes "stale")) /\
  exists fs',
    relocate ex_env [ex_A2; ex_A1] (dest_path ex_outdir ex_key_A) ex_disk
    = (inr tt, fs') /\
    stat fs' (locate ex_env (dest_path ex_outdir ex_key_A))
    = Some (KFile (concat (map (fun e => content ex_disk (locate ex_env (path e)))
                               (sorted_by_lane [ex_A2; ex_A1])))).
Proof.
  assert (Hg : In (ex_key_A, [ex_A2; ex_A1]) ex_groups)
    by (vm_compute; left; reflexivity).
  assert (Hd : stat ex_disk (locate ex_env (dest_path ex_outdir ex_key_A))
               = Some (KFile (bytes "stale"))) by (vm_compute; reflexivity).
  split; [exact Hg|]. split; [exact Hd|].
  apply (@C9_existing_destination_replaced ex_env (mkPath false []) (Some ex_outdir)
           ex_disk ex_outdir ex_key_A [ex_A2; ex_A1] ex_disk _ Hg Hd).
  - vm_compute. repeat constructor; simpl; intuition discriminate.
  - intros e [<- | [<- | []]]; eexists; vm_compute; reflexivity.
Defined.

(** ** Claims on the Grouper and the destination *)

Lemma relocate_makes_parent env es dest fs fs' :
  relocate env es dest fs = (inr tt, fs') ->
  exists fs1, Path_mkdir env (parent dest) fs = (inr tt, fs1) /\
              stat fs1 (locate env (parent dest)) = Some KDir.
Proof.
  unfold relocate. intros H. apply bind_ok in H.
  destruct H as ([] & fs1 & H1 & _). exists fs1. split; [exact H1|].
  now apply Path_mkdir_spec in H1.
Qed.

(** C10: the groups of a match are the characters of the name as they
    are, and the Scanner emits them unchanged as the key; the destination
    name is built from them. So two matched names whose samples or
    extensions differ, were it only by case, have different keys and
    different destinations, and lie in different groups. *)
Theorem C10_case_is_kept env outdir f1 f2 m1 m2 :
  FASTQ_RE f1 = Some m1 -> FASTQ_RE f2 = Some m2 ->
  (group "sample" m1 <> group "sample" m2 \/ group "ext" m1 <> group "ext" m2) ->
  (exists tl, lane_split f1 (group "prefix" m1) (group "sample" m1) (group "lane" m1)
                         (group "read" m1) (group "ext" m1) tl) /\
  (forall d, map fst (match_file d f1) = [key_of m1]) /\
  dest_name (key_of m1)
  = group "sample" m1 ++ s "_R" ++ group "read" m1 ++ group "ext" m1 /\
  key_of m1 <> key_of m2 /\
  locate env (dest_path outdir (key_of m1)) <> locate env (dest_path outdir (key_of m2)) /\
  (forall ems e1 e2,
      In (key_of m1, e1) ems -> In (key_of m2, e2) ems ->
      exists es1 es2,
        In (key_of m1, es1) (collect ems) /\ In e1 es1 /\
        In (key_of m2, es2) (collect ems) /\ In e2 es2 /\
        (key_of m1, es1) <> (key_of m2, es2)).
Proof.
  intros H1 H2 Hd.
  assert (Hk : key_of m1 <> key_of m2).
  { unfold key_of. intros E. inversion E. tauto. }
  split; [now apply FASTQ_RE_some|].
  split; [intros d; unfold match_file; now rewrite H1|].
  split; [reflexivity|]. split; [exact Hk|]. split.
  - intros E. apply Hk. eapply locate_dest_inj; eauto; eapply matched_key_ok; eauto.
  - intros ems e1 e2 He1 He2. destruct (collect_spec ems) as (_ & Hc).
    exists (group_of (key_of m1) ems), (group_of (key_of m2) ems).
    repeat split.
    + apply Hc. split; [|reflexivity].
      change (key_of m1) with (fst (key_of m1, e1)). now apply in_map.
    + now apply in_group_of.
    + apply Hc. split; [|reflexivity].
      change (key_of m2) with (fst (key_of m2, e2)). now apply in_map.
    + now apply in_group_of.
    + intros E. inversion E. congruence.
Qed.

Lemma C10_case_is_kept_witness :
  FASTQ_RE (s "x_a_L1_R1.fastq") = Some (groups_env (s "x") (s "a") (s "1") (s "1") (s ".fastq")) /\
  FASTQ_RE (s "x_a_L1_R1.FASTQ") = Some (groups_env (s "x") (s "a") (s "1") (s "1") (s ".FASTQ")) /\
  locate ex_env (dest_path ex_outdir (s "a", s "1", s ".fastq"))
  <> locate ex_env (dest_path ex_outdir (s "a", s "1", s ".FASTQ")).
Proof.
  assert (H1 : FASTQ_RE (s "x_a_L1_R1.fastq")
               = Some (groups_env (s "x") (s "a") (s "1") (s "1") (s ".fastq")))
    by (vm_compute; reflexivity).
  assert (H2 : FASTQ_RE (s "x_a_L1_R1.FASTQ")
               = Some (groups_env (s "x") (s "a") (s "1") (s "1") (s ".FASTQ")))
    by (vm_compute; reflexivity).
  split; [exact H1|]. split; [exact H2|].
  refine (proj1 (proj2 (proj2 (proj2 (proj2
           (@C10_case_is_kept ex_env ex_outdir _ _ _ _ H1 H2 _)))))).
  right. vm_compute. discriminate.
Defined.

(** ** Claims on a whole run *)

(** C7: with neither [--outdir] nor [OUTDIR], the run prints its
    diagnostic to the error stream and exits with code 1, and the disk
    is as it was; the same holds whenever the value that [parse_args]
    finds is empty. *)
Theorem C7_no_outdir_exits_1 env fs :
  main env None None fs = mkOutcome (inr 1%Z) fs [msg_no_outdir] /\
  (forall opt_outdir environ_OUTDIR,
      truthy (parse_args opt_outdir environ_OUTDIR) = false ->
      main env opt_outdir environ_OUTDIR fs
      = mkOutcome (inr 1%Z) fs [msg_no_outdir]).
Proof.
  split; [reflexivity|].
  intros opt environ H. unfold main. now rewrite H.
Qed.

Lemma collect_nil ems : collect ems = [] <-> ems = [].
Proof.
  split; [|now intros ->]. intros H.
  destruct (collect_spec ems) as (_ & Hc). rewrite H in Hc.
  destruct ems as [|[k e] ems]; [reflexivity|]. exfalso.
  apply (Hc k (group_of k ((k, e) :: ems))). split; [now left | reflexivity].
Qed.

(** C8: once the output directory is made, a scan that matches nothing
    ends the run with the diagnostic and exit code 1, and the disk
    differs from the initial one at most by new directories on the way
    to the output directory; a scan that matches something, followed by
    consolidations that all return, ends the run with exit code 0. *)
Theorem C8_exit_codes_after_scan env opt_outdir environ_OUTDIR fs arg expanded fs1 :
  parse_args opt_outdir environ_OUTDIR = Some arg -> arg <> [] ->
  expanduser env (Path_of arg) = inr expanded ->
  Path_mkdir env (resolve env expanded) fs = (inr tt, fs1) ->
  let outdir := resolve env expanded in
  let ems := find_fastqs env (mkPath false []) (Some outdir) fs1 in
  (ems = [] ->
   main env opt_outdir environ_OUTDIR fs = mkOutcome (inr 1%Z) fs1 [msg_no_match] /\
   forall q, stat fs1 q = stat fs q \/
             (stat fs q = None /\ stat fs1 q = Some KDir /\
              exists r, locate env outdir = q ++ r)) /\
  (ems <> [] ->
   forall fs2,
     for_each (fun g => relocate env (snd g) (dest_path outdir (fst g)))
              (collect ems) fs1 = (inr tt, fs2) ->
     main env opt_outdir environ_OUTDIR fs = mkOutcome (inr 0%Z) fs2 []).
Proof.
  intros Ha Hne He Hm outdir ems.
  assert (Hmain : main env opt_outdir environ_OUTDIR fs =
                  match collect ems with
                  | [] => mkOutcome (inr 1%Z) fs1 [msg_no_match]
                  | _ :: _ =>
                      match for_each (fun g => relocate env (snd g) (dest_path outdir (fst g)))
                                     (collect ems) fs1 with
                      | (inl e, fs2) => mkOutcome (inl e) fs2 []
                      | (inr _, fs2) => mkOutcome (inr 0%Z) fs2 []
                      end
                  end).
  { unfold main. rewrite Ha. destruct arg as [|c arg]; [congruence|].
    cbn [truthy negb]. rewrite He. cbv zeta. rewrite Hm. reflexivity. }
  split.
  - intros E. rewrite Hmain. rewrite (proj2 (collect_nil ems) E). split; [reflexivity|].
    apply Path_mkdir_spec in Hm. apply Hm.
  - intros E fs2 Hrun. rewrite Hmain.
    destruct (collect ems) as [|g gs] eqn:Hc.
    + apply collect_nil in Hc. contradiction.
    + now rewrite Hrun.
Qed.

Lemma C8_exit_codes_after_scan_witness :
  parse_args (Some (s "out")) None = Some (s "out") /\ s "out" <> [] /\
  expanduser ex_env (Path_of (s "out")) = inr (mkPath false [s "out"]) /\
  main ex_env (Some (s "out")) None ex_disk_none
  = mkOutcome (inr 1%Z)
              (snd (Path_mkdir ex_env (resolve ex_env (mkPath false [s "out"])) ex_disk_none))
              [msg_no_match].
Proof.
  assert (Ha : parse_args (Some (s "out")) None = Some (s "out")) by reflexivity.
  assert (Hn : s "out" <> []) by (vm_compute; discriminate).
  assert (He : expanduser ex_env (Path_of (s "out")) = inr (mkPath false [s "out"]))
    by (vm_compute; reflexivity).
  split; [exact Ha|]. split; [exact Hn|]. split; [exact He|].
  refine (proj1 (proj1 (@C8_exit_codes_after_scan ex_env (Some (s "out")) None ex_disk_none
                          (s "out") (mkPath false [s "out"]) _ Ha Hn He _) _)).
  - vm_compute. reflexivity.
  - vm_compute. reflexivity.
Defined.

(** ** The excluded directory *)

(** The Scanner emits nothing from a directory that lies strictly below
    the excluded one. *)
Lemma find_fastqs_skips_below env top x fs k e :
  In (k, e) (find_fastqs env top (Some x) fs) ->
  exists dirpath dn fns f,
    In (dirpath, dn, fns) (os_walk env top fs) /\ In f fns /\
    path e = joinpath dirpath f /\
    ~ In (resolve env x) (parents (resolve env dirpath)).
Proof.
  unfold find_fastqs. rewrite in_flat_map.
  intros ([[dirpath dn] fns] & Hw & H). cbn [option_map] in H.
  destruct (in_dec Path_eq_dec (resolve env x) (parents (resolve env dirpath)))
    as [Hin|Hin]; [contradiction|].
  apply in_flat_map in H. destruct H as (f & Hf & H).
  exists dirpath, dn, fns, f. repeat split; try assumption.
  unfold match_file in H. destruct (FASTQ_RE f); [|contradiction].
  destruct H as [H|[]]. now inversion H.
Qed.

(** C1 fails on the code for a file that lies in the output directory
    itself: [exclude_resolved in current_dir.parents] holds only for the
    directories strictly below the output directory. With [--outdir out],
    the file [out/S1_A_L001_R1.fastq.gz] is emitted and then moved to
    [out/A/A_R1.fastq.gz], while the one in [out/sub] is left alone. *)
Theorem C1_file_in_outdir_is_scanned_and_moved :
  let run := main ex_env (Some (s "out")) None ex_disk_out in
  find_fastqs ex_env (mkPath false []) (Some ex_outdir) ex_disk_out
  = [((s "A", s "1", s ".fastq.gz"),
      mkEntry (mkPath false [s "out"; s "S1_A_L001_R1.fastq.gz"]) 1)] /\
  status run = inr 0%Z /\
  stat ex_disk_out [s "w"; s "out"; s "S1_A_L001_R1.fastq.gz"] = Some (KFile (bytes "kept?")) /\
  stat (on_disk run) [s "w"; s "out"; s "S1_A_L001_R1.fastq.gz"] = None /\
  stat (on_disk run) [s "w"; s "out"; s "A"; s "A_R1.fastq.gz"] = Some (KFile (bytes "kept?")) /\
  stat (on_disk run) [s "w"; s "out"; s "sub"; s "S1_A_L002_R1.fastq.gz"]
  = Some (KFile (bytes "deep")).
Proof. vm_compute. repeat split; reflexivity. Qed.

(** ** A stable sort is determined by its input

    Whatever algorithm [sorted] runs, a result that is sorted by lane and
    keeps the entries of every lane in their order is the list that
    [sorted_by_lane] returns. *)

Lemma lane_le_trans : Relations_1.Transitive lane_le.
Proof. intros a b c. unfold lane_le. lia. Qed.

Lemma of_lane_head e l : exists r, of_lane (lane e) (e :: l) = e :: r.
Proof. unfold of_lane. cbn [filter]. rewrite N.eqb_refl. eauto. Qed.

Lemma of_lane_in n e l : In e (of_lane n l) -> In e l /\ lane e = n.
Proof.
  unfold of_lane. intros H. apply filter_In in H. destruct H as (H & E).
  split; [assumption | now apply N.eqb_eq].
Qed.

Lemma sorted_head_least e l x :
  Sorted lane_le (e :: l) -> In x (e :: l) -> lane_le e x.
Proof.
  intros H Hx. apply Sorted_StronglySorted in H; [|exact lane_le_trans].
  inversion H as [|? ? _ Hall]; subst. destruct Hx as [<- | Hx].
  - unfold lane_le. lia.
  - rewrite Forall_forall in Hall. now apply Hall.
Qed.

Lemma stable_sort_unique l1 : forall l2,
  Sorted lane_le l1 -> Sorted lane_le l2 ->
  (forall n, of_lane n l1 = of_lane n l2) -> l1 = l2.
Proof.
  induction l1 as [|a l1 IH]; intros l2 S1 S2 H.
  - destruct l2 as [|b l2]; [reflexivity|].
    destruct (of_lane_head b l2) as (r & E). rewrite <- H in E. discriminate.
  - destruct l2 as [|b l2].
    { destruct (of_lane_head a l1) as (r & E). rewrite H in E. discriminate. }
    assert (Hab : lane a = lane b).
    { destruct (of_lane_head a l1) as (r & Ea). rewrite H in Ea.
      destruct (of_lane_head b l2) as (r' & Eb). rewrite <- H in Eb.
      assert (Ha : In a (of_lane (lane a) (b :: l2))) by (rewrite Ea; now left).
      assert (Hb : In b (of_lane (lane b) (a :: l1))) by (rewrite Eb; now left).
      apply of_lane_in in Ha, Hb. destruct Ha as (Ha & _), Hb as (Hb & _).
      pose proof (sorted_head_least S2 Ha) as L1.
      pose proof (sorted_head_least S1 Hb) as L2.
      unfold lane_le in *. lia. }
    assert (a = b).
    { pose proof (H (lane a)) as E. unfold of_lane in E. cbn [filter] in E.
      rewrite <- Hab, N.eqb_refl in E. now inversion E. }
    subst b. f_equal. apply IH.
    + now inversion S1.
    + now inversion S2.
    + intros n. pose proof (H n) as E. unfold of_lane in *. cbn [filter] in E.
      destruct (lane a =? n)%N; [now inversion E | exact E].
Qed.

(** Any sorted, stable arrangement of [l] is [sorted_by_lane l]. *)
Lemma sorted_by_lane_unique l l' :
  Sorted lane_le l' -> (forall n, of_lane n l' = of_lane n l) ->
  l' = sorted_by_lane l.
Proof.
  intros S H. apply stable_sort_unique; [assumption | apply sorted_by_lane_sorted |].
  intros n. now rewrite H, sorted_by_lane_stable.
Qed.

(** ** The scenario of the specification, end to end

    With [--outdir out] on the example tree: the two lanes of [A] are
    concatenated in lane order over the stale destination, the file of
    [C] is moved, the sources are gone, and the run exits with code 0. *)
Example main_end_to_end :
  let run := main ex_env (Some (s "out")) None ex_disk in
  status run = inr 0%Z /\ stderr run = [] /\
  stat (on_disk run) [s "w"; s "out"; s "A"; s "A_R1.fastq.gz"]
  = Some (KFile (bytes "onetwo")) /\
  stat (on_disk run) [s "w"; s "out"; s "C"; s "C_R1.fq"] = Some (KFile (bytes "sea")) /\
  stat (on_disk run) [s "w"; s "S1_A_L001_R1.fastq.gz"] = None /\
  stat (on_disk run) [s "w"; s "S1_A_L002_R1.fastq.gz"] = None /\
  stat (on_disk run) [s "w"; s "y_C_L3_R1.fq"] = None /\
  stat (on_disk run) [s "w"; s "notes.txt"] = Some (KFile (bytes "n")).
Proof. vm_compute. repeat split; reflexivity. Qed.

(** * Further properties of the code *)

(** ** The lane number *)

Lemma int_of_digits_from ds : forall acc,
  fold_left (fun a c => (10 * a + digit_val c)%N) ds acc
  = (acc * 10 ^ N.of_nat (length ds) + int_of_digits ds)%N.
Proof.
  unfold int_of_digits.
  induction ds as [|d ds IH]; intros acc; cbn [fold_left length].
  - simpl. lia.
  - rewrite IH, (IH (10 * 0 + digit_val d)%N).
    rewrite Nat2N.inj_succ, N.pow_succ_r'. lia.
Qed.

Lemma int_of_digits_app a b :
  int_of_digits (a ++ b)
  = (int_of_digits a * 10 ^ N.of_nat (length b) + int_of_digits b)%N.
Proof.
  unfold int_of_digits at 1. rewrite fold_left_app.
  fold (int_of_digits a). apply int_of_digits_from.
Qed.

Lemma int_of_digits_zeros n : int_of_digits (repeat "0"%char n) = 0%N.
Proof.
  induction n as [|n IH]; [reflexivity|].
  change (repeat "0"%char (S n)) with (["0"%char] ++ repeat "0"%char n).
  rewrite int_of_digits_app, IH. reflexivity.
Qed.

(** ** Outputs are not inputs *)

(** X3: the name that [main] gives to the output of a group,
    [<sample>_R<read><ext>], is never matched by [FASTQ_RE]: a later scan
    emits nothing for the outputs of the program, in whatever directory
    they lie. *)
Theorem X3_output_names_are_not_matched filename m :
  FASTQ_RE filename = Some m ->
  FASTQ_RE (dest_name (key_of m)) = None /\
  forall dirpath, match_file dirpath (dest_name (key_of m)) = [].
Proof.
  intros Hm.
  assert (H : FASTQ_RE (dest_name (key_of m)) = None)
    by (apply dest_name_unmatched; eapply matched_key_ok; eauto).
  split; [exact H|]. intros d. unfold match_file. now rewrite H.
Qed.

Lemma X3_output_names_are_not_matched_witness :
  FASTQ_RE (s "S1_A_L001_R1.fastq.gz")
  = Some (groups_env (s "S1") (s "A") (s "001") (s "1") (s ".fastq.gz")) /\
  FASTQ_RE (s "A_R1.fastq.gz") = None.
Proof.
  assert (H : FASTQ_RE (s "S1_A_L001_R1.fastq.gz")
              = Some (groups_env (s "S1") (s "A") (s "001") (s "1") (s ".fastq.gz")))
    by (vm_compute; reflexivity).
  split; [exact H|].
  exact (proj1 (@X3_output_names_are_not_matched _ _ H)).
Defined.

(** ** The mapping of the Grouper *)

Lemma keys_append_eq k e g :
  map fst (append_group k e g)
  = if in_dec key_eq_dec k (map fst g) then map fst g else map fst g ++ [k].
Proof.
  induction g as [|[k' es] g IH]; simpl; [reflexivity|].
  destruct (key_eq_dec k' k) as [->|Hk]; simpl.
  - reflexivity.
  - rewrite IH. destruct (in_dec key_eq_dec k (map fst g)); reflexivity.
Qed.

Lemma keys_collect_from ems : forall g,
  map fst (fold_left (fun groups em => append_group (fst em) (snd em) groups) ems g)
  = fold_left (fun acc k => if in_dec key_eq_dec k acc then acc else acc ++ [k])
              (map fst ems) (map fst g).
Proof.
  induction ems as [|[k e] ems IH]; intros g; simpl; [reflexivity|].
  now rewrite IH, keys_append_eq.
Qed.

Lemma emissions_append k e g :
  Permutation (emissions_of (append_group k e g)) ((k, e) :: emissions_of g).
Proof.
  unfold emissions_of. induction g as [|[k' es] g IH]; simpl; [reflexivity|].
  destruct (key_eq_dec k' k) as [->|Hk]; simpl.
  - rewrite map_app. simpl. rewrite <- app_assoc. simpl.
    symmetry. apply Permutation_middle.
  - rewrite IH. symmetry. apply Permutation_middle.
Qed.

Lemma emissions_collect_from ems : forall g,
  Permutation
    (emissions_of (fold_left (fun groups em => append_group (fst em) (snd em) groups) ems g))
    (emissions_of g ++ ems).
Proof.
  induction ems as [|[k e] ems IH]; intros g; simpl.
  - now rewrite app_nil_r.
  - rewrite IH, emissions_append. simpl. apply Permutation_middle.
Qed.

(** X4: the Grouper keeps the keys in the order in which they were first
    emitted (the order in which [main] consolidates the groups), lists
    under a key the entries emitted with it in the order of emission,
    never makes an empty group, and neither drops nor repeats an
    emission. *)
Theorem X4_grouper_keeps_order_and_entries ems :
  map fst (collect ems) = first_seen (map fst ems) /\
  (forall k es, In (k, es) (collect ems) -> es = group_of k ems /\ es <> []) /\
  Permutation (emissions_of (collect ems)) ems.
Proof.
  split; [|split].
  - unfold collect, first_seen. apply (keys_collect_from ems []).
  - intros k es H. apply collect_spec in H. destruct H as (Hk & ->).
    split; [reflexivity|]. apply in_map_iff in Hk. destruct Hk as ([k' e] & <- & Hin).
    simpl. intros E. apply <- in_group_of in Hin. rewrite E in Hin. exact Hin.
  - apply (emissions_collect_from ems []).
Qed.

(** ** A regular file on the way to the output directory *)

Lemma makedirs_blocked a : forall done b fs d,
  a <> [] -> stat fs done = Some KDir -> stat fs (done ++ a) = Some (KFile d) ->
  makedirs done (a ++ b) fs
  = (inl (match b with [] => FileExistsError | _ :: _ => NotADirectoryError end), fs).
Proof.
  induction a as [|c a IH]; intros done b fs d Ha Hd Hf; [congruence|].
  cbn [app makedirs]. destruct a as [|c' a].
  - rewrite Hf. reflexivity.
  - assert (S : stat fs (done ++ [c]) = Some KDir).
    { apply stat_prefix_dir with (b := c' :: a) (k := KFile d); [|discriminate].
      now rewrite <- app_assoc. }
    rewrite S. rewrite (IH (done ++ [c]) b fs d); try assumption; try discriminate.
    + reflexivity.
    + now rewrite <- app_assoc.
Qed.

Lemma makedirs_raises todo : forall done fs fs' e,
  makedirs done todo fs = (inl e, fs') -> stat fs done = Some KDir ->
  exists a b d, todo = a ++ b /\ a <> [] /\ stat fs (done ++ a) = Some (KFile d).
Proof.
  induction todo as [|c todo IH]; intros done fs fs' e H Hd; simpl in H; [discriminate|].
  destruct (stat fs (done ++ [c])) as [[d|]|] eqn:S.
  - exists [c], todo, d. repeat split; [discriminate | assumption].
  - apply IH in H; [|assumption]. destruct H as (a & b & d & -> & Ha & Hs).
    exists (c :: a), b, d. repeat split; [discriminate|].
    now rewrite <- app_assoc in Hs.
  - exfalso.
    set (fs1 := update (fun _ => Some (Dir [])) (done ++ [c]) fs) in *.
    assert (Hq0 : done ++ [c] <> []) by (destruct done; discriminate).
    assert (S1 : stat fs1 (done ++ [c]) = Some KDir).
    { unfold fs1. rewrite stat_update_same; [reflexivity | assumption |].
      now rewrite removelast_last. }
    apply IH in H; [|assumption]. destruct H as (a & b & d & _ & Ha & Hs).
    destruct a as [|c' a]; [congruence|].
    revert Hs. unfold stat, fs1. rewrite root_update by assumption.
    rewrite lookup_app, lookup_alter_same.
    + simpl. rewrite lookup_none. discriminate.
    + right. apply stat_dir_lookup. now rewrite removelast_last.
Qed.

(** X5: when the path given for the output directory has a regular file
    on it, [main] ends with the exception of [outdir.mkdir] before
    anything is scanned or printed, and the disk is as it was:
    [FileExistsError] when the file is at the path itself,
    [NotADirectoryError] when it is above it. Conversely, that [mkdir]
    raises only because of such a file. *)
Theorem X5_outdir_blocked_by_a_file env opt_outdir environ_OUTDIR fs arg expanded :
  parse_args opt_outdir environ_OUTDIR = Some arg -> arg <> [] ->
  expanduser env (Path_of arg) = inr expanded ->
  let target := locate env (resolve env expanded) in
  (forall q r d,
      q <> [] -> target = q ++ r -> stat fs q = Some (KFile d) ->
      main env opt_outdir environ_OUTDIR fs
      = mkOutcome (inl (match r with
                        | [] => FileExistsError
                        | _ :: _ => NotADirectoryError
                        end)) fs []) /\
  (forall e fs', Path_mkdir env (resolve env expanded) fs = (inl e, fs') ->
                 exists q r d, q <> [] /\ target = q ++ r /\ stat fs q = Some (KFile d)).
Proof.
  intros Ha Hne He target. split.
  - intros q r d Hq Ht Hs. unfold main. rewrite Ha.
    destruct arg as [|c arg]; [congruence|]. cbn [truthy negb]. rewrite He. cbv zeta.
    unfold Path_mkdir. fold target. rewrite Ht.
    rewrite (@makedirs_blocked q [] r fs d Hq (stat_root fs) Hs). reflexivity.
  - intros e fs' H. unfold Path_mkdir in H. fold target in H.
    apply makedirs_raises in H; [|apply stat_root].
    destruct H as (a & b & d & E & Ha' & Hs). exists a, b, d. auto.
Qed.

Lemma X5_outdir_blocked_by_a_file_witness :
  parse_args (Some (s "notes.txt")) None = Some (s "notes.txt") /\
  s "notes.txt" <> [] /\
  expanduser ex_env (Path_of (s "notes.txt")) = inr (mkPath false [s "notes.txt"]) /\
  stat ex_disk [s "w"; s "notes.txt"] = Some (KFile (bytes "n")) /\
  main ex_env (Some (s "notes.txt")) None ex_disk
  = mkOutcome (inl FileExistsError) ex_disk [].
Proof.
  assert (Ha : parse_args (Some (s "notes.txt")) None = Some (s "notes.txt")) by reflexivity.
  assert (Hn : s "notes.txt" <> []) by (vm_compute; discriminate).
  assert (He : expanduser ex_env (Path_of (s "notes.txt"))
               = inr (mkPath false [s "notes.txt"])) by (vm_compute; reflexivity).
  assert (Hs : stat ex_disk [s "w"; s "notes.txt"] = Some (KFile (bytes "n")))
    by (vm_compute; reflexivity).
  split; [exact Ha|]. split; [exact Hn|]. split; [exact He|]. split; [exact Hs|].
  refine (proj1 (@X5_outdir_blocked_by_a_file ex_env (Some (s "notes.txt")) None ex_disk
                   (s "notes.txt") (mkPath false [s "notes.txt"]) Ha Hn He)
                [s "w"; s "notes.txt"] [] (bytes "n") _ _ Hs).
  - discriminate.
  - vm_compute. reflexivity.
Defined.

(** ** Operations that raise leave the disk as it was *)

Lemma os_unlink_raises p fs fs' e : os_unlink p fs = (inl e, fs') -> fs' = fs.
Proof.
  unfold os_unlink. destruct (stat fs p) as [[d|]|]; intros H; inversion H; reflexivity.
Qed.

Lemma open_wb_raises p fs fs' e : open_wb p fs = (inl e, fs') -> fs' = fs.
Proof.
  unfold open_wb. destruct (stat fs p) as [[d|]|]; intros H; try (inversion H; reflexivity).
  destruct (stat fs (removelast p)) as [[d|]|]; inversion H; reflexivity.
Qed.

Lemma read_rb_same p fs fs' r : read_rb p fs = (r, fs') -> fs' = fs.
Proof.
  unfold read_rb. destruct (stat fs p) as [[d|]|]; intros H; inversion H; reflexivity.
Qed.

Lemma read_rb_raises p fs fs' e :
  read_rb p fs = (inl e, fs') -> forall d, stat fs p <> Some (KFile d).
Proof.
  unfold read_rb. destruct (stat fs p) as [[d|]|]; intros H d'; try discriminate.
Qed.

Lemma os_rename_raises src dst fs fs' e : os_rename src dst fs = (inl e, fs') -> fs' = fs.
Proof.
  unfold os_rename. destruct (lookup (root fs) src) as [n|]; [|intros H; now inversion H].
  destruct (list_eq_dec str_eq_dec src dst); [discriminate|].
  destruct n, (stat fs dst) as [[d'|]|];
    try (intros H; inversion H; reflexivity);
    repeat match goal with
           | |- context [if ?b then _ else _] => destruct b
           | |- context [match stat fs (removelast dst) with _ => _ end] =>
               destruct (stat fs (removelast dst)) as [[?|]|]
           end; intros H; inversion H; reflexivity.
Qed.

Lemma shutil_move_raises env src dst fs fs' e :
  shutil_move env src dst fs = (inl e, fs') -> fs' = fs.
Proof.
  unfold shutil_move. destruct (stat fs (locate env dst)) as [[d|]|].
  - apply os_rename_raises.
  - destruct (list_eq_dec str_eq_dec (locate env src) (locate env dst)); [discriminate|].
    destruct (stat fs (locate env (joinpath dst (last (parts src) (s "."))))).
    + intros H. now inversion H.
    + apply os_rename_raises.
  - apply os_rename_raises.
Qed.

Lemma makedirs_raises_same todo done fs fs' e :
  makedirs done todo fs = (inl e, fs') -> stat fs done = Some KDir -> fs' = fs.
Proof.
  intros H Hd. destruct (makedirs_raises _ _ _ H Hd) as (a & b & d & -> & Ha & Hs).
  rewrite (@makedirs_blocked a done b fs d Ha Hd Hs) in H. now inversion H.
Qed.

Lemma Path_mkdir_raises env p fs fs' e :
  Path_mkdir env p fs = (inl e, fs') -> fs' = fs.
Proof.
  unfold Path_mkdir. intros H. eapply makedirs_raises_same; [exact H | apply stat_root].
Qed.

(** What [Path.mkdir] leaves, whether it returns or raises: whatever
    existed is as it was. *)
Lemma Path_mkdir_keeps env p fs fs' r :
  Path_mkdir env p fs = (r, fs') ->
  forall q k, stat fs q = Some k -> stat fs' q = Some k.
Proof.
  intros H q k S. destruct r as [e|[]].
  - apply Path_mkdir_raises in H. now subst.
  - apply Path_mkdir_spec in H. now apply H.
Qed.

Lemma bind_cases {A B} (c : M A) (k : A -> M B) fs fs' r :
  bind c k fs = (r, fs') ->
  (exists e, c fs = (inl e, fs') /\ r = inl e) \/
  (exists a fs1, c fs = (inr a, fs1) /\ k a fs1 = (r, fs')).
Proof.
  unfold bind. destruct (c fs) as [[e|a] fs1]; intros H.
  - left. inversion H; subst. eauto.
  - right. eauto.
Qed.

(** ** The loops of the Consolidator, whatever their outcome *)

Section LoopOutcomes.
Variable A : Type.
Variable loc_of : A -> loc.
Variable dl : loc.
Hypothesis dl_not_root : dl <> [].

(** The copying loop stops at the first source that is not a readable
    regular file; the destination then holds what was copied so far. *)
Lemma copy_loop_outcome files : forall fs fs' acc r,
  (forall e, In e files -> loc_of e <> dl) ->
  stat fs dl = Some (KFile acc) ->
  for_each (fun e => d <- read_rb (loc_of e) ;; write_handle dl d) files fs = (r, fs') ->
  (forall q, q <> dl -> stat fs' q = stat fs q) /\
  exists copied rest,
    files = copied ++ rest /\
    stat fs' dl = Some (KFile (acc ++ flat_map (fun e => content fs (loc_of e)) copied)) /\
    (forall e, In e copied -> exists d, stat fs (loc_of e) = Some (KFile d)) /\
    (r = inr tt /\ rest = [] \/
     exists e0 rest' ex, r = inl ex /\ rest = e0 :: rest' /\
                         forall d, stat fs (loc_of e0) <> Some (KFile d)).
Proof.
  induction files as [|e files IH]; intros fs fs' acc r Hne S H; simpl in H.
  - inversion H; subst. split; [auto|]. exists [], []. simpl. rewrite app_nil_r.
    repeat split; auto. intros e [].
  - apply bind_cases in H. destruct H as [(ex & H & ->) | ([] & fs1 & H1 & H2)].
    + apply bind_cases in H. destruct H as [(ex' & H & E) | (d & fs0 & Hr & Hw)].
      * pose proof (read_rb_same _ _ H) as ->. split; [auto|].
        exists [], (e :: files). simpl. rewrite app_nil_r.
        repeat split; auto; [intros a []|]. right. exists e, files, ex.
        repeat split; auto. eapply read_rb_raises; eauto.
      * unfold write_handle in Hw. discriminate.
    + apply bind_ok in H1. destruct H1 as (d & fs0 & Hr & Hw).
      apply read_rb_spec in Hr. destruct Hr as (-> & Sd).
      destruct (@write_handle_spec dl d acc fs dl_not_root S) as (fs1' & Hw' & S1 & F1).
      rewrite Hw in Hw'. inversion Hw'; subst fs1'. clear Hw'.
      apply IH with (acc := acc ++ d) in H2;
        [| intros; apply Hne; now right | assumption].
      destruct H2 as (F2 & copied & rest & -> & S2 & Hfiles & Hend).
      assert (Hc : forall a, In a (copied ++ rest) ->
                             stat fs1 (loc_of a) = stat fs (loc_of a)).
      { intros a Ha. apply F1. apply Hne. now right. }
      split; [intros q Hq; rewrite F2 by assumption; now apply F1|].
      exists (e :: copied), rest. split; [reflexivity|]. split; [|split].
      * rewrite S2. cbn [flat_map]. rewrite <- app_assoc.
        assert (Ed : content fs (loc_of e) = d) by (unfold content; now rewrite Sd).
        rewrite Ed. do 4 f_equal.
        apply flat_map_ext_in. intros a Ha. unfold content.
        rewrite Hc; [reflexivity | apply in_or_app; now left].
      * intros a [<- | Ha]; [eauto|]. destruct (Hfiles a Ha) as (d' & Hd').
        exists d'. rewrite <- Hc; [assumption | apply in_or_app; now left].
      * destruct Hend as [? | (e0 & rest' & ex & -> & -> & Hbad)]; [now left|].
        right. exists e0, rest', ex. repeat split. intros d'.
        rewrite <- Hc; [apply Hbad | apply in_or_app; right; now left].
Qed.

(** The unlinking loop touches the sources only. *)
Lemma unlink_loop_outcome es : forall fs fs' r,
  (forall e, In e es -> loc_of e <> []) ->
  for_each (fun e => os_unlink (loc_of e)) es fs = (r, fs') ->
  forall q, (forall e, In e es -> loc_of e <> q) -> stat fs' q = stat fs q.
Proof.
  induction es as [|e es IH]; intros fs fs' r Hnr H q Hq; simpl in H.
  - now inversion H.
  - apply bind_cases in H. destruct H as [(ex & H & _) | ([] & fs1 & H1 & H2)].
    + apply os_unlink_raises in H. now subst.
    + apply os_unlink_spec in H1; [|apply Hnr; now left].
      destruct H1 as (_ & _ & F1).
      rewrite (IH _ _ _ (fun a Ha => Hnr a (or_intror Ha)) H2 q
                  (fun a Ha => Hq a (or_intror Ha))).
      apply F1. intros ->. now apply (Hq e (or_introl eq_refl)).
Qed.
End LoopOutcomes.

Lemma os_rename_file_frame sl dl d fs fs' :
  stat fs sl = Some (KFile d) -> sl <> dl -> sl <> [] -> dl <> [] ->
  stat fs dl <> Some KDir ->
  os_rename sl dl fs = (inr tt, fs') ->
  forall q, q <> sl -> q <> dl -> stat fs' q = stat fs q.
Proof.
  intros S Hne Hs Hd Hk H q Hq1 Hq2. rewrite (@os_rename_file sl dl d fs S Hne Hk) in H.
  destruct (stat fs (removelast dl)) as [[d'|]|] eqn:P; try discriminate.
  inversion H; subst fs'. clear H.
  set (fsA := update (fun _ => None) sl fs).
  assert (FA : forall q, q <> sl -> stat fsA q = stat fs q).
  { intros q' Hq'. apply stat_update_other; try assumption; [|exact I].
    eapply leafy_file_lookup; eauto. }
  assert (LA : leafy (lookup (root fsA) dl)).
  { assert (E : stat fsA dl = stat fs dl) by (apply FA; congruence).
    unfold stat at 1 in E. destruct (lookup (root fsA) dl) as [[?|[|? ?]]|]; try exact I.
    simpl in E. congruence. }
  rewrite stat_update_other; [now apply FA | assumption | assumption | assumption | exact I].
Qed.

(** ** [concatenate] and [relocate], whatever their outcome *)

Lemma concatenate_cases env files destination fs fs' r :
  let dl := locate env destination in
  dl <> [] ->
  locate env (parent destination) = removelast dl ->
  (forall e, In e files -> locate env (path e) <> dl) ->
  concatenate env files destination fs = (r, fs') ->
  (forall q k, q <> dl -> stat fs q = Some k -> stat fs' q = Some k) /\
  (forall q d, q <> dl -> stat fs' q = Some (KFile d) -> stat fs q = Some (KFile d)) /\
  ((exists ex, r = inl ex /\ stat fs' dl = stat fs dl) \/
   exists copied rest,
     sorted_by_lane files = copied ++ rest /\
     stat fs' dl
     = Some (KFile (flat_map (fun e => content fs (locate env (path e))) copied)) /\
     (forall e, In e copied ->
                exists d, stat fs (locate env (path e)) = Some (KFile d)) /\
     (r = inr tt /\ rest = [] \/
      exists e0 rest' ex, r = inl ex /\ rest = e0 :: rest' /\
                          forall d, stat fs (locate env (path e0)) <> Some (KFile d))).
Proof.
  intros dl Hd Hp Hne H. unfold concatenate in H. fold dl in H.
  apply bind_cases in H. destruct H as [(ex & H & ->) | ([] & fsA & HA & H)].
  { apply Path_mkdir_raises in H. subst fs'. repeat split; auto. left. eauto. }
  pose proof (Path_mkdir_keeps _ _ _ HA) as KA.
  apply Path_mkdir_spec in HA. destruct HA as (_ & _ & FA & CA).
  assert (SA : stat fsA dl = stat fs dl).
  { destruct (CA dl) as [E | (_ & _ & r0 & E)]; [exact E|].
    rewrite Hp in E. now apply removelast_not_below in E. }
  apply bind_cases in H. destruct H as [(ex & H & ->) | ([] & fsB & HB & H)].
  { apply open_wb_raises in H. subst fs'. repeat split; eauto. }
  apply open_wb_spec in HB; [|exact Hd]. destruct HB as (SB & FB).
  assert (Hs : forall e, In e (sorted_by_lane files) -> locate env (path e) <> dl).
  { intros e He. apply Hne. eapply Permutation_in; [|exact He].
    apply sorted_by_lane_perm. }
  destruct (@copy_loop_outcome _ (fun e => locate env (path e)) dl Hd
              (sorted_by_lane files) fsB fs' [] r Hs SB H)
    as (F & copied & rest & E & S' & Hfiles & Hend).
  assert (Hc : forall e, In e (sorted_by_lane files) ->
                         stat fsB (locate env (path e)) = stat fsA (locate env (path e))).
  { intros e He. apply FB. now apply Hs. }
  assert (Hfile : forall e d, In e (sorted_by_lane files) ->
            stat fsB (locate env (path e)) = Some (KFile d) ->
            stat fs (locate env (path e)) = Some (KFile d)).
  { intros e d He Se. apply FA. now rewrite <- Hc. }
  split; [|split].
  - intros q k Hq Sq. rewrite F, FB by assumption. now apply KA.
  - intros q d Hq Sq. apply FA. now rewrite <- FB, <- F.
  - right. exists copied, rest. split; [exact E|]. split; [|split].
    + rewrite S'. cbn [app]. do 2 f_equal. apply flat_map_ext_in. intros e He.
      assert (He' : In e (sorted_by_lane files)) by (rewrite E; apply in_or_app; now left).
      destruct (Hfiles e He) as (d & Sd). unfold content.
      now rewrite Sd, (Hfile e d He' Sd).
    + intros e He. destruct (Hfiles e He) as (d & Sd). exists d.
      apply Hfile; [rewrite E; apply in_or_app; now left | exact Sd].
    + destruct Hend as [? | (e0 & rest' & ex & -> & -> & Hbad)]; [now left|].
      right. exists e0, rest', ex. repeat split. intros d Sd. apply (Hbad d).
      rewrite Hc; [now apply KA|]. rewrite E. apply in_or_app. right. now left.
Qed.

Lemma relocate_cases env entries dest fs fs' r :
  let dl := locate env dest in
  dl <> [] ->
  locate env (parent dest) = removelast dl ->
  (forall e, In e entries ->
             locate env (path e) <> dl /\
             exists d, stat fs (locate env (path e)) = Some (KFile d)) ->
  relocate env entries dest fs = (r, fs') ->
  (forall q k, q <> dl -> (forall e, In e entries -> locate env (path e) <> q) ->
               stat fs q = Some k -> stat fs' q = Some k) /\
  ((exists ex, r = inl ex /\ stat fs' dl = stat fs dl /\
               forall e, In e entries ->
                         stat fs' (locate env (path e)) = stat fs (locate env (path e))) \/
   stat fs' dl
   = Some (KFile (flat_map (fun e => content fs (locate env (path e)))
                           (sorted_by_lane entries))) \/
   exists e, entries = [e] /\ r = inr tt /\ stat fs dl = Some KDir /\
             stat fs' (locate env (joinpath dest (last (parts (path e)) (s "."))))
             = Some (KFile (content fs (locate env (path e))))).
Proof.
  intros dl Hd Hp Hsrc H.
  assert (Hnr : forall e, In e entries -> locate env (path e) <> []).
  { intros e He E. destruct (Hsrc e He) as (_ & d & Sd). rewrite E, stat_root in Sd.
    discriminate. }
  destruct (Nat.eq_dec (length entries) 1) as [L1 | L1].
  - (* one entry: [shutil.move] *)
    destruct entries as [|e [|? ?]]; try discriminate. clear L1.
    destruct (Hsrc e (or_introl eq_refl)) as (Hne & d & Sd).
    unfold relocate in H. fold dl in H.
    apply bind_cases in H. destruct H as [(ex & H & ->) | ([] & fsA & HA & H)].
    { apply Path_mkdir_raises in H. subst fs'. split; [auto|]. left. eauto. }
    pose proof (Path_mkdir_keeps _ _ _ HA) as KA.
    apply Path_mkdir_spec in HA. destruct HA as (_ & _ & _ & CA).
    assert (SA : stat fsA dl = stat fs dl).
    { destruct (CA dl) as [E | (_ & _ & r0 & E)]; [exact E|].
      rewrite Hp in E. now apply removelast_not_below in E. }
    pose proof (KA _ _ Sd) as SdA.
    assert (Ec : content fs (locate env (path e)) = d) by (unfold content; now rewrite Sd).
    destruct r as [ex | []].
    { apply shutil_move_raises in H. subst fs'. split; [auto|]. left. exists ex.
      repeat split; [exact SA|]. intros a [<- | []]. now rewrite SdA. }
    unfold shutil_move in H. fold dl in H.
    set (real := locate env (joinpath dest (last (parts (path e)) (s ".")))) in *.
    assert (Onto : stat fsA dl <> Some KDir ->
                   os_rename (locate env (path e)) dl fsA = (inr tt, fs') ->
                   (forall q k, q <> dl ->
                      (forall a, In a [e] -> locate env (path a) <> q) ->
                      stat fs q = Some k -> stat fs' q = Some k) /\
                   stat fs' dl = Some (KFile (flat_map
                       (fun a => content fs (locate env (path a))) (sorted_by_lane [e])))).
    { intros Hk Hr. split.
      - intros q k Hq Hqs Sq.
        rewrite (@os_rename_file_frame _ _ d fsA fs' SdA Hne (Hnr e (or_introl eq_refl))
                   Hd Hk Hr q); [now apply KA | | exact Hq].
        intros ->. now apply (Hqs e (or_introl eq_refl)).
      - simpl. rewrite Ec, app_nil_r.
        now apply (@os_rename_file_spec _ _ d fsA fs' SdA Hne
                     (Hnr e (or_introl eq_refl)) Hd Hk Hr). }
    destruct (stat fsA dl) as [[old|]|] eqn:SD.
    + destruct Onto as (F & S'); [discriminate | exact H |]. split; [exact F | now right; left].
    + destruct (list_eq_dec str_eq_dec (locate env (path e)) dl) as [E|_]; [now elim Hne|].
      destruct (stat fsA real) as [k|] eqn:SR; [discriminate|].
      assert (Hreal : real <> []) by (intros E; rewrite E, stat_root in SR; discriminate).
      assert (Hsr : locate env (path e) <> real) by (intros E; rewrite <- E in SR; congruence).
      assert (Hk : stat fsA real <> Some KDir) by (rewrite SR; discriminate).
      split.
      * intros q k Hq Hqs Sq.
        rewrite (@os_rename_file_frame _ _ d fsA fs' SdA Hsr (Hnr e (or_introl eq_refl))
                   Hreal Hk H q); [now apply KA | |].
        -- intros ->. now apply (Hqs e (or_introl eq_refl)).
        -- intros ->. apply KA in Sq. congruence.
      * right; right. exists e. repeat split; [congruence|]. rewrite Ec.
        now apply (@os_rename_file_spec _ _ d fsA fs' SdA Hsr
                     (Hnr e (or_introl eq_refl)) Hreal Hk H).
    + destruct Onto as (F & S'); [discriminate | exact H |]. split; [exact F | now right; left].
  - (* several entries: [concatenate], then the unlinking loop *)
    rewrite relocate_multi_eq in H by assumption.
    apply bind_cases in H. destruct H as [(ex & H & ->) | ([] & fsA & HA & H)].
    { apply Path_mkdir_raises in H. subst fs'. split; [auto|]. left. eauto. }
    pose proof (Path_mkdir_keeps _ _ _ HA) as KA.
    apply Path_mkdir_spec in HA. destruct HA as (_ & _ & _ & CA).
    assert (SA : stat fsA dl = stat fs dl).
    { destruct (CA dl) as [E | (_ & _ & r0 & E)]; [exact E|].
      rewrite Hp in E. now apply removelast_not_below in E. }
    assert (HneA : forall e, In e entries -> locate env (path e) <> locate env dest)
      by (intros e He; apply (Hsrc e He)).
    assert (Ec : forall e, In e entries ->
              content fsA (locate env (path e)) = content fs (locate env (path e))).
    { intros e He. destruct (Hsrc e He) as (_ & d & Sd). unfold content.
      now rewrite (KA _ _ Sd), Sd. }
    assert (Conc : forall rB fsB, concatenate env entries dest fsA = (rB, fsB) ->
              (forall q k, q <> dl -> stat fs q = Some k -> stat fsB q = Some k) /\
              ((exists ex, rB = inl ex /\ stat fsB dl = stat fs dl) \/
               rB = inr tt /\
               stat fsB dl = Some (KFile (flat_map
                  (fun e => content fs (locate env (path e))) (sorted_by_lane entries))))).
    { intros rB fsB HB.
      destruct (@concatenate_cases env entries dest fsA fsB rB Hd Hp HneA HB)
        as (F & _ & [(ex & -> & S') | (copied & rest & E & S' & _ & Hend)]).
      - split; [intros q k Hq Sq; apply F; auto|]. left. exists ex. split; [reflexivity | exact (eq_trans S' SA)].
      - split; [intros q k Hq Sq; apply F; auto|].
        destruct Hend as [(-> & ->) | (e0 & rest' & ex & -> & -> & Hbad)].
        + right. split; [reflexivity|]. rewrite app_nil_r in E. fold dl in S'. rewrite E, S'.
          do 2 f_equal. apply flat_map_ext_in. intros e He. apply Ec.
          eapply Permutation_in; [apply sorted_by_lane_perm|]. now rewrite E.
        + exfalso. assert (He0 : In e0 entries).
          { eapply Permutation_in; [apply sorted_by_lane_perm|]. rewrite E.
            apply in_or_app. right. now left. }
          destruct (Hsrc e0 He0) as (_ & d & Sd). apply (Hbad d). now apply KA. }
    apply bind_cases in H. destruct H as [(ex & H & ->) | ([] & fsB & HB & H)].
    + destruct (Conc _ _ H) as (F & [(ex' & _ & S') | (? & _)]); [|discriminate].
      split; [intros q k Hq _ Sq; now apply F|]. left. exists ex.
      repeat split; [exact S'|]. intros e He. destruct (Hsrc e He) as (Hne & d & Sd).
      rewrite Sd. now apply F.
    + destruct (Conc _ _ HB) as (F & [(ex' & ? & _) | (_ & S')]); [discriminate|].
      pose proof (@unlink_loop_outcome _ (fun e => locate env (path e)) entries
                    fsB fs' r Hnr H) as FU.
      split.
      * intros q k Hq Hqs Sq. rewrite FU by exact Hqs. now apply F.
      * right; left. rewrite FU; [exact S'|]. intros e He. now apply (Hsrc e He).
Qed.

(** X6: [concatenate(files, destination)], for sources other than the
    destination, whatever its outcome: it removes and changes nothing
    but the destination, and creates no other file; when it returns, the
    destination holds the contents of all the sources in the stable
    order of their lanes; when it raises, either the destination is as
    it was (nothing was opened), or it holds the contents of the sources,
    in that order, before the first one that is not a regular file: the
    partial output is left behind. *)
Theorem X6_concatenate_whatever_the_outcome env files destination fs fs' r :
  let dl := locate env destination in
  dl <> [] ->
  locate env (parent destination) = removelast dl ->
  (forall e, In e files -> locate env (path e) <> dl) ->
  concatenate env files destination fs = (r, fs') ->
  (forall q k, q <> dl -> stat fs q = Some k -> stat fs' q = Some k) /\
  (forall q d, q <> dl -> stat fs' q = Some (KFile d) -> stat fs q = Some (KFile d)) /\
  ((exists ex, r = inl ex /\ stat fs' dl = stat fs dl) \/
   exists copied rest,
     sorted_by_lane files = copied ++ rest /\
     stat fs' dl
     = Some (KFile (flat_map (fun e => content fs (locate env (path e))) copied)) /\
     (forall e, In e copied ->
                exists d, stat fs (locate env (path e)) = Some (KFile d)) /\
     (r = inr tt /\ rest = [] \/
      exists e0 rest' ex, r = inl ex /\ rest = e0 :: rest' /\
                          forall d, stat fs (locate env (path e0)) <> Some (KFile d))).
Proof. exact (@concatenate_cases env files destination fs fs' r). Qed.

(** Lanes 1 and 2 of sample [A] are there, lane 3 is not: the
    destination is left with lanes 1 and 2, and the notes are untouched. *)
Lemma X6_concatenate_whatever_the_outcome_witness :
  let files := [ex_A2; mkEntry (mkPath false [s "S1_A_L003_R1.fastq.gz"]) 3; ex_A1] in
  let out := concatenate ex_env files (dest_path ex_outdir ex_key_A) ex_disk in
  fst out = inl FileNotFoundError /\
  stat (snd out) [s "w"; s "notes.txt"] = Some (KFile (bytes "n")) /\
  stat (snd out) (locate ex_env (dest_path ex_outdir ex_key_A))
  = Some (KFile (bytes "onetwo")).
Proof.
  intros files out.
  assert (H : concatenate ex_env files (dest_path ex_outdir ex_key_A) ex_disk
              = (fst out, snd out)) by (vm_compute; reflexivity).
  split; [vm_compute; reflexivity|]. split.
  - refine (proj1 (@X6_concatenate_whatever_the_outcome ex_env files
             (dest_path ex_outdir ex_key_A) ex_disk (snd out) (fst out) _ _ _ H)
             [s "w"; s "notes.txt"] (KFile (bytes "n")) _ _).
    + vm_compute. discriminate.
    + vm_compute. reflexivity.
    + intros e [<- | [<- | [<- | []]]]; vm_compute; discriminate.
    + vm_compute. discriminate.
    + vm_compute. reflexivity.
  - vm_compute. reflexivity.
Defined.

(** X7: [relocate(entries, destination)] loses no data.  For sources
    that are regular files other than the destination, whatever the
    outcome: what is neither the destination nor a source stays as it
    was; and either it raised with the destination and every source as
    they were, or the destination holds the contents of all the sources
    in the stable order of their lanes, or (one entry, the destination an
    existing directory) the file was moved into that directory under its
    own name. *)
Theorem X7_relocate_loses_no_data env entries dest fs fs' r :
  let dl := locate env dest in
  dl <> [] ->
  locate env (parent dest) = removelast dl ->
  (forall e, In e entries ->
             locate env (path e) <> dl /\
             exists d, stat fs (locate env (path e)) = Some (KFile d)) ->
  relocate env entries dest fs = (r, fs') ->
  (forall q k, q <> dl -> (forall e, In e entries -> locate env (path e) <> q) ->
               stat fs q = Some k -> stat fs' q = Some k) /\
  ((exists ex, r = inl ex /\ stat fs' dl = stat fs dl /\
               forall e, In e entries ->
                         stat fs' (locate env (path e)) = stat fs (locate env (path e))) \/
   stat fs' dl
   = Some (KFile (flat_map (fun e => content fs (locate env (path e)))
                           (sorted_by_lane entries))) \/
   exists e, entries = [e] /\ r = inr tt /\ stat fs dl = Some KDir /\
             stat fs' (locate env (joinpath dest (last (parts (path e)) (s "."))))
             = Some (KFile (content fs (locate env (path e))))).
Proof. exact (@relocate_cases env entries dest fs fs' r). Qed.

(** The same source listed twice: the second [unlink] raises, after the
    destination was written in full; the notes are untouched. *)
Lemma X7_relocate_loses_no_data_witness :
  let out := relocate ex_env [ex_A2; ex_A1; ex_A2] (dest_path ex_outdir ex_key_A) ex_disk in
  fst out = inl FileNotFoundError /\
  stat (snd out) [s "w"; s "notes.txt"] = Some (KFile (bytes "n")) /\
  stat (snd out) (locate ex_env (dest_path ex_outdir ex_key_A))
  = Some (KFile (bytes "onetwotwo")).
Proof.
  intros out.
  assert (H : relocate ex_env [ex_A2; ex_A1; ex_A2] (dest_path ex_outdir ex_key_A) ex_disk
              = (fst out, snd out)) by (vm_compute; reflexivity).
  split; [vm_compute; reflexivity|]. split.
  - refine (proj1 (@X7_relocate_loses_no_data ex_env [ex_A2; ex_A1; ex_A2]
             (dest_path ex_outdir ex_key_A) ex_disk (snd out) (fst out) _ _ _ H)
             [s "w"; s "notes.txt"] (KFile (bytes "n")) _ _ _).
    + vm_compute. discriminate.
    + vm_compute. reflexivity.
    + intros e [<- | [<- | [<- | []]]]; (split; [vm_compute; discriminate|]);
        eexists; vm_compute; reflexivity.
    + vm_compute. discriminate.
    + intros e [<- | [<- | [<- | []]]]; vm_compute; discriminate.
    + vm_compute. reflexivity.
  - vm_compute. reflexivity.
Defined.

(** ** Well-formed trees and the walk *)

Lemma node_induction (P : node -> Prop) :
  (forall d, P (File d)) ->
  (forall es, (forall c n, In (c, n) es -> P n) -> P (Dir es)) ->
  forall n, P n.
Proof.
  intros HF HD. fix IH 1. intros [d | es]; [apply HF|]. apply HD.
  revert es. fix IHes 1. intros [|[c n] es] c' n' H; [destruct H|].
  destruct H as [E | H].
  - assert (En : n = n') by congruence. rewrite <- En. apply IH.
  - apply (IHes es c' n' H).
Qed.

Lemma plain_nameb_spec c : plain_nameb c = true <-> plain_name c.
Proof.
  unfold plain_nameb, plain_name, str_eqb.
  destruct (str_eq_dec c []), (str_eq_dec c (s ".")), (str_eq_dec c (s ".."));
    simpl; intuition congruence.
Qed.

Lemma distinct_NoDup l : distinct l = true <-> NoDup l.
Proof.
  induction l as [|x l IH]; simpl; [split; [constructor | reflexivity]|].
  rewrite andb_true_iff, negb_true_iff, IH. split.
  - intros (H & N). constructor; [|exact N]. intros Hin.
    assert (E : existsb (str_eqb x) l = true)
      by (apply existsb_exists; exists x; split; [exact Hin | apply str_eqb_refl]).
    congruence.
  - intros N. inversion N as [|? ? Hn N']; subst. split; [|exact N'].
    destruct (existsb (str_eqb x) l) eqn:E; [|reflexivity].
    apply existsb_exists in E. destruct E as (y & Hy & E). apply str_eqb_eq in E.
    now subst y.
Qed.

Lemma well_formed_dir es :
  well_formed (Dir es) = true ->
  NoDup (map fst es) /\
  forall c n, In (c, n) es -> plain_name c /\ well_formed n = true.
Proof.
  simpl. rewrite andb_true_iff, forallb_forall, distinct_NoDup. intros (N & H).
  split; [exact N|]. intros c n Hin. specialize (H _ Hin). simpl in H.
  apply andb_true_iff in H. now rewrite plain_nameb_spec in H.
Qed.

Lemma find_entry_some c es n : find_entry c es = Some n -> In (c, n) es.
Proof.
  induction es as [|[c' n'] es IH]; simpl; [discriminate|].
  destruct (str_eqb c' c) eqn:E.
  - apply str_eqb_eq in E. intros H. inversion H; subst. now left.
  - intros H. right. now apply IH.
Qed.

Lemma find_entry_in c es n :
  NoDup (map fst es) -> In (c, n) es -> find_entry c es = Some n.
Proof.
  induction es as [|[c' n'] es IH]; simpl; intros N H; [destruct H|].
  inversion N as [|? ? Hn N']; subst. destruct H as [E | H].
  - inversion E; subst. now rewrite str_eqb_refl.
  - destruct (str_eqb c' c) eqn:E; [|now apply IH].
    apply str_eqb_eq in E. subst c'. elim Hn.
    change c with (fst (c, n)). now apply in_map.
Qed.

Lemma well_formed_lookup p : forall n n',
  well_formed n = true -> lookup (Some n) p = Some n' -> well_formed n' = true.
Proof.
  induction p as [|c p IH]; intros n n' W H; simpl in H.
  - now inversion H; subst.
  - destruct n as [d | es]; [discriminate|].
    destruct (find_entry c es) as [n1|] eqn:F; [|now rewrite lookup_none in H].
    apply find_entry_some in F. apply well_formed_dir in W. destruct W as (_ & W).
    apply (IH n1 n'); [apply (W c n1 F) | exact H].
Qed.

Lemma in_filenames f es : In f (filenames es) <-> exists d, In (f, File d) es.
Proof.
  unfold filenames. rewrite in_map_iff. split.
  - intros ([c [d | es']] & E & H); apply filter_In in H; destruct H as (H & B);
      simpl in *; [subst; eauto | discriminate].
  - intros (d & H). exists (f, File d). split; [reflexivity|].
    apply filter_In. now split.
Qed.

Lemma filenames_NoDup es : NoDup (map fst es) -> NoDup (filenames es).
Proof.
  unfold filenames. induction es as [|[c n] es IH]; simpl; intros N; [constructor|].
  inversion N as [|? ? Hn N']; subst. destruct n; simpl; [|now apply IH].
  constructor; [|now apply IH]. intros H. apply Hn. apply in_map_iff in H.
  destruct H as (e & E & H). apply filter_In in H. apply in_map_iff. exists e. tauto.
Qed.

Lemma map_flat_map {A B C} (f : B -> C) (g : A -> list B) l :
  map f (flat_map g l) = flat_map (fun x => map f (g x)) l.
Proof. induction l as [|a l IH]; simpl; [reflexivity|]. now rewrite map_app, IH. Qed.

(** The walk visits the directories of the tree. *)
Lemma walk_node_dirs n : forall dirpath,
  walk_node dirpath n
  = map (fun x => (fold_left joinpath (fst x) dirpath, dirnames (snd x), filenames (snd x)))
        (dirs_of n).
Proof.
  induction n as [d | es IH] using node_induction; intros dirpath; [reflexivity|].
  simpl. f_equal. rewrite map_flat_map.
  apply flat_map_ext_in. intros [c n] Hin. simpl.
  destruct n as [d | es']; [reflexivity|].
  rewrite (IH c _ Hin), map_map. reflexivity.
Qed.

Lemma dirs_of_lookup n : forall rel es,
  well_formed n = true ->
  (In (rel, es) (dirs_of n) <-> lookup (Some n) rel = Some (Dir es)).
Proof.
  induction n as [d | es0 IH] using node_induction; intros rel es W.
  - simpl. split; [tauto|]. destruct rel; simpl; [discriminate|]. discriminate.
  - pose proof (well_formed_dir _ W) as (N & Wes). simpl. split.
    + intros [E | H]; [inversion E; subst; reflexivity|].
      apply in_flat_map in H. destruct H as ([c n] & Hin & H). simpl in H.
      apply in_map_iff in H. destruct H as ([rel' es'] & E & H). simpl in E.
      inversion E; subst. simpl. rewrite (@find_entry_in _ _ _ N Hin).
      apply (IH c n Hin); [apply (Wes c n Hin) | exact H].
    + destruct rel as [|c rel']; simpl.
      * intros E. inversion E; subst. now left.
      * destruct (find_entry c es0) as [n|] eqn:F; [|now rewrite lookup_none].
        apply find_entry_some in F. intros H. right. apply in_flat_map.
        exists (c, n). split; [exact F|]. simpl. apply in_map_iff.
        exists (rel', es). split; [reflexivity|].
        apply (IH c n F); [apply (Wes c n F) | exact H].
Qed.

Lemma dirs_of_plain n : forall rel es,
  well_formed n = true -> In (rel, es) (dirs_of n) -> Forall plain_name rel.
Proof.
  induction n as [d | es0 IH] using node_induction; intros rel es W; simpl; [tauto|].
  pose proof (well_formed_dir _ W) as (N & Wes).
  intros [E | H]; [inversion E; subst; constructor|].
  apply in_flat_map in H. destruct H as ([c n] & Hin & H). simpl in H.
  apply in_map_iff in H. destruct H as ([rel' es'] & E & H). simpl in E.
  inversion E; subst. constructor; [apply (Wes c n Hin)|].
  apply (IH c n Hin _ _ (proj2 (Wes c n Hin)) H).
Qed.

Lemma NoDup_flat_map_disjoint {A B} (f : A -> list B) l :
  NoDup l -> (forall a, In a l -> NoDup (f a)) ->
  (forall a a' b, In a l -> In a' l -> In b (f a) -> In b (f a') -> a = a') ->
  NoDup (flat_map f l).
Proof.
  induction l as [|a l IH]; simpl; intros N Hf Hd; [constructor|].
  inversion N as [|? ? Hn N']; subst. apply NoDup_app.
  - apply Hf. now left.
  - apply IH; [exact N' | intros; apply Hf; now right |].
    intros a1 a2 b H1 H2. apply Hd; now right.
  - intros b Hb Hb'. apply in_flat_map in Hb'. destruct Hb' as (a' & Ha' & Hb').
    assert (a = a') by (apply (Hd a a' b); simpl; auto).
    subst a'. contradiction.
Qed.

Lemma NoDup_map_injective {A B} (f : A -> B) l :
  (forall x y, f x = f y -> x = y) -> NoDup l -> NoDup (map f l).
Proof.
  intros Hf. induction 1 as [|x l Hn N IH]; simpl; constructor; [|exact IH].
  rewrite in_map_iff. intros (y & E & Hy). apply Hf in E. now subst y.
Qed.

Lemma dirs_of_NoDup n : well_formed n = true -> NoDup (map fst (dirs_of n)).
Proof.
  induction n as [d | es0 IH] using node_induction; intros W; simpl; [constructor|].
  pose proof (well_formed_dir _ W) as (N & Wes).
  constructor.
  - rewrite in_map_iff. intros ([rel es] & E & H). simpl in E. subst rel.
    apply in_flat_map in H. destruct H as (e & _ & H). apply in_map_iff in H.
    destruct H as (x & E & _). discriminate.
  - rewrite map_flat_map.
    apply NoDup_flat_map_disjoint.
    + eapply NoDup_map_inv. exact N.
    + intros [c n] Hin. rewrite map_map. simpl.
      rewrite <- (map_map fst (cons c)). apply NoDup_map_injective.
      * intros x y E. now inversion E.
      * apply (IH c n Hin). apply (Wes c n Hin).
    + intros [c n] [c' n'] b Hin Hin' Hb Hb'. rewrite map_map in Hb, Hb'.
      apply in_map_iff in Hb, Hb'. destruct Hb as (x & Ex & _), Hb' as (y & Ey & _).
      simpl in Ex, Ey. subst b. inversion Ey; subst c'.
      f_equal. pose proof (@find_entry_in _ _ _ N Hin) as F1.
      pose proof (@find_entry_in _ _ _ N Hin') as F2. congruence.
Qed.

(** ** What the Scanner emits *)

Lemma locate_fold_joinpath env rel : forall p,
  Forall plain_name rel -> locate env (fold_left joinpath rel p) = locate env p ++ rel.
Proof.
  induction rel as [|c rel IH]; intros p H; simpl; [now rewrite app_nil_r|].
  inversion H; subst. rewrite IH by assumption. rewrite locate_joinpath by assumption.
  now rewrite <- app_assoc.
Qed.

Lemma in_inits {A} (l x : list A) : In x (inits l) <-> exists r, r <> [] /\ l = x ++ r.
Proof.
  revert x. induction l as [|a l IH]; intros x; simpl.
  - split; [tauto|]. intros (r & Hr & E). symmetry in E. apply app_eq_nil in E. tauto.
  - split.
    + intros [<- | H]; [exists (a :: l); split; [discriminate | reflexivity]|].
      apply in_map_iff in H. destruct H as (y & <- & H). apply IH in H.
      destruct H as (r & Hr & ->). exists r. now split.
    + intros (r & Hr & E). destruct x as [|b x]; [now left|]. right.
      simpl in E. inversion E; subst. apply in_map. apply IH. now exists r.
Qed.

(** The test [exclude_resolved in current_dir.parents]. *)
Lemma in_parents_resolve env x p :
  In (resolve env x) (parents (resolve env p))
  <-> strictly_above (locate env x) (locate env p).
Proof.
  unfold strictly_above. rewrite <- in_inits. unfold parents, locate.
  change (absolute (resolve env p)) with true.
  rewrite in_map_iff. split.
  - intros (y & E & H). apply in_rev in H. unfold resolve in E at 1. inversion E; subst.
    exact H.
  - intros H. exists (parts (resolve env x)). split; [reflexivity | now apply -> in_rev].
Qed.

Lemma flat_map_map {A B C} (f : A -> B) (g : B -> list C) l :
  flat_map g (map f l) = flat_map (fun x => g (f x)) l.
Proof. induction l as [|a l IH]; simpl; [reflexivity|]. now rewrite IH. Qed.

(** The body of the outer loop of [find_fastqs] for one directory. *)
Lemma find_fastqs_dirs env top exclude fs :
  find_fastqs env top exclude fs
  = match lookup (root fs) (locate env top) with
    | None => []
    | Some n =>
        flat_map
          (fun x =>
             let dirpath := fold_left joinpath (fst x) top in
             if match option_map (resolve env) exclude with
                | Some y => if in_dec Path_eq_dec y (parents (resolve env dirpath))
                            then true else false
                | None => false
                end
             then []
             else flat_map (match_file dirpath) (filenames (snd x)))
          (dirs_of n)
    end.
Proof.
  unfold find_fastqs, os_walk. destruct (lookup (root fs) (locate env top)) as [n|];
    [|reflexivity].
  now rewrite walk_node_dirs, flat_map_map.
Qed.

Lemma match_file_in dirpath f em :
  In em (match_file dirpath f) <->
  exists m, FASTQ_RE f = Some m /\
            em = (key_of m, mkEntry (joinpath dirpath f) (int_of_digits (group "lane" m))).
Proof.
  unfold match_file, key_of. destruct (FASTQ_RE f) as [m|]; simpl.
  - split; [intros [<- | []]; eauto|]. intros (m' & E & ->). inversion E. now left.
  - split; [tauto|]. intros (m' & E & _). discriminate.
Qed.

Lemma find_fastqs_in env top exclude fs em :
  In em (find_fastqs env top exclude fs) <->
  exists n rel es f m,
    lookup (root fs) (locate env top) = Some n /\
    In (rel, es) (dirs_of n) /\
    (forall x, exclude = Some x ->
               ~ In (resolve env x) (parents (resolve env (fold_left joinpath rel top)))) /\
    In f (filenames es) /\ FASTQ_RE f = Some m /\
    em = (key_of m, mkEntry (joinpath (fold_left joinpath rel top) f)
                            (int_of_digits (group "lane" m))).
Proof.
  rewrite find_fastqs_dirs. destruct (lookup (root fs) (locate env top)) as [n|].
  - rewrite in_flat_map. split.
    + intros ([rel es] & Hd & H). cbn [fst snd] in H. cbv zeta in H.
      destruct exclude as [x|]; cbn [option_map] in H.
      * destruct (in_dec Path_eq_dec (resolve env x)
                    (parents (resolve env (fold_left joinpath rel top)))) as [Hx | Hx];
          [destruct H|].
        apply in_flat_map in H. destruct H as (f & Hf & H). apply match_file_in in H.
        destruct H as (m & Hm & ->). exists n, rel, es, f, m.
        repeat split; auto. intros y E. now inversion E; subst.
      * apply in_flat_map in H. destruct H as (f & Hf & H). apply match_file_in in H.
        destruct H as (m & Hm & ->). exists n, rel, es, f, m.
        repeat split; auto. discriminate.
    + intros (n' & rel & es & f & m & E & Hd & Hx & Hf & Hm & ->). inversion E; subst n'.
      exists (rel, es). split; [exact Hd|]. cbn [fst snd]. cbv zeta.
      assert (Hin : In (key_of m, mkEntry (joinpath (fold_left joinpath rel top) f)
                                          (int_of_digits (group "lane" m)))
                       (flat_map (match_file (fold_left joinpath rel top)) (filenames es))).
      { apply in_flat_map. exists f. split; [exact Hf|]. apply match_file_in. eauto. }
      destruct exclude as [x|]; cbn [option_map]; [|exact Hin].
      destruct (in_dec Path_eq_dec (resolve env x)
                  (parents (resolve env (fold_left joinpath rel top)))) as [Hx' | _];
        [|exact Hin].
      now elim (Hx x eq_refl).
  - split; [intros []|]. intros (n' & ? & ? & ? & ? & E & _). discriminate.
Qed.

(** On a well-formed tree, where an emitted entry lies and what is there. *)
Lemma emitted_file env top fs n rel es f :
  well_formed (Dir fs) = true ->
  lookup (root fs) (locate env top) = Some n ->
  In (rel, es) (dirs_of n) -> In f (filenames es) ->
  plain_name f /\ Forall plain_name rel /\
  locate env (joinpath (fold_left joinpath rel top) f) = locate env top ++ rel ++ [f] /\
  lookup (root fs) (locate env top ++ rel) = Some (Dir es) /\
  exists d, stat fs (locate env top ++ rel ++ [f]) = Some (KFile d).
Proof.
  intros W L Hd Hf.
  assert (Wn : well_formed n = true) by (eapply well_formed_lookup; [exact W | exact L]).
  pose proof (dirs_of_plain _ _ _ Wn Hd) as Prel.
  apply (dirs_of_lookup _ rel es Wn) in Hd.
  assert (Le : lookup (root fs) (locate env top ++ rel) = Some (Dir es))
    by (now rewrite lookup_app, L).
  assert (We : well_formed (Dir es) = true)
    by (eapply well_formed_lookup; [exact W | exact Le]).
  apply well_formed_dir in We. destruct We as (N & Wes).
  apply in_filenames in Hf. destruct Hf as (d & Hf).
  assert (Pf : plain_name f) by apply (Wes f _ Hf).
  repeat split; try assumption; try apply Pf.
  - rewrite locate_joinpath by assumption. rewrite locate_fold_joinpath by assumption.
    now rewrite <- app_assoc.
  - exists d. unfold stat. rewrite app_assoc, lookup_app, Le. simpl.
    now rewrite (@find_entry_in _ _ _ N Hf).
Qed.

Lemma dirs_of_well_formed n rel es :
  well_formed n = true -> In (rel, es) (dirs_of n) -> well_formed (Dir es) = true.
Proof.
  intros W H. apply (dirs_of_lookup _ rel es W) in H.
  eapply well_formed_lookup; [exact W | exact H].
Qed.

Lemma emitted_loc env top fs n rel es (skip : bool) b :
  well_formed (Dir fs) = true ->
  lookup (root fs) (locate env top) = Some n ->
  In (rel, es) (dirs_of n) ->
  In b (map (fun em : emission => locate env (path (snd em)))
            (if skip then []
             else flat_map (match_file (fold_left joinpath rel top)) (filenames es))) ->
  exists f, In f (filenames es) /\ b = locate env top ++ rel ++ [f].
Proof.
  intros W L Hd H. destruct skip; [destruct H|].
  apply in_map_iff in H. destruct H as (em & <- & H). apply in_flat_map in H.
  destruct H as (f & Hf & H). apply match_file_in in H. destruct H as (m & _ & ->).
  exists f. split; [exact Hf|]. cbn [snd path].
  apply (@emitted_file env top fs n rel es f W L Hd Hf).
Qed.

Lemma scanned_locations_NoDup env top exclude fs :
  well_formed (Dir fs) = true ->
  NoDup (map (fun em : emission => locate env (path (snd em)))
             (find_fastqs env top exclude fs)).
Proof.
  intros W. rewrite find_fastqs_dirs.
  destruct (lookup (root fs) (locate env top)) as [n|] eqn:L; [|constructor].
  assert (Wn : well_formed n = true) by (eapply well_formed_lookup; [exact W | exact L]).
  rewrite map_flat_map. apply NoDup_flat_map_disjoint.
  - eapply NoDup_map_inv. apply (dirs_of_NoDup _ Wn).
  - intros [rel es] Hd. cbn [fst snd]. cbv zeta.
    match goal with |- NoDup (map _ (if ?c then _ else _)) => destruct c end;
      [constructor|].
    rewrite map_flat_map. apply NoDup_flat_map_disjoint.
    + apply filenames_NoDup.
      apply (well_formed_dir _ (dirs_of_well_formed _ _ _ Wn Hd)).
    + intros f _. unfold match_file. destruct (FASTQ_RE f); simpl; repeat constructor.
      intros [].
    + intros f f' b Hf Hf' Hb Hb'.
      apply in_map_iff in Hb, Hb'. destruct Hb as (em & <- & Hb), Hb' as (em' & E & Hb').
      apply match_file_in in Hb, Hb'. destruct Hb as (m & _ & ->), Hb' as (m' & _ & ->).
      cbn [snd path] in E.
      destruct (@emitted_file env top fs n rel es f W L Hd Hf) as (_ & _ & E1 & _).
      destruct (@emitted_file env top fs n rel es f' W L Hd Hf') as (_ & _ & E2 & _).
      rewrite E1, E2 in E. apply app_inv_head, app_inv_head in E. now inversion E.
  - intros [rel es] [rel' es'] b Hd Hd' Hb Hb'. cbn [fst snd] in Hb, Hb'. cbv zeta in Hb, Hb'.
    apply (@emitted_loc env top fs n rel es _ b W L Hd) in Hb.
    apply (@emitted_loc env top fs n rel' es' _ b W L Hd') in Hb'.
    destruct Hb as (f & _ & ->), Hb' as (f' & _ & E).
    apply app_inv_head in E. apply app_inj_tail in E. destruct E as (<- & _).
    apply (dirs_of_lookup _ rel es Wn) in Hd. apply (dirs_of_lookup _ rel es' Wn) in Hd'.
    congruence.
Qed.

(** X8: on a tree whose directories list plain, distinct names, the
    Scanner emits exactly the regular files that lie below [root], whose
    name [FASTQ_RE] matches, and whose directory is not strictly below
    the excluded directory (so the files that lie directly in the
    excluded directory are emitted); the key and the lane of an entry are
    those of the name of its file. *)
Theorem X8_scanner_emits_the_matched_files env top exclude fs :
  well_formed (Dir fs) = true ->
  (forall k e,
      In (k, e) (find_fastqs env top exclude fs) ->
      exists rel f m d,
        locate env (path e) = locate env top ++ rel ++ [f] /\
        stat fs (locate env (path e)) = Some (KFile d) /\
        FASTQ_RE f = Some m /\ k = key_of m /\
        lane e = int_of_digits (group "lane" m) /\
        forall x, exclude = Some x ->
                  ~ strictly_above (locate env x) (locate env top ++ rel)) /\
  (forall rel f m d,
      stat fs (locate env top ++ rel ++ [f]) = Some (KFile d) ->
      FASTQ_RE f = Some m ->
      (forall x, exclude = Some x ->
                 ~ strictly_above (locate env x) (locate env top ++ rel)) ->
      exists e, In (key_of m, e) (find_fastqs env top exclude fs) /\
                locate env (path e) = locate env top ++ rel ++ [f] /\
                lane e = int_of_digits (group "lane" m)).
Proof.
  intros W. split.
  - intros k e H. apply find_fastqs_in in H.
    destruct H as (n & rel & es & f & m & L & Hd & Hx & Hf & Hm & E).
    inversion E; subst k e. clear E.
    destruct (@emitted_file env top fs n rel es f W L Hd Hf) as (_ & Prel & El & _ & d & Sd).
    exists rel, f, m, d. cbn [path lane]. rewrite El. repeat split; try assumption.
    intros x Ex Ha. apply (Hx x Ex). apply in_parents_resolve.
    now rewrite locate_fold_joinpath.
  - intros rel f m d S Hm Hx.
    apply stat_file_lookup in S. rewrite app_assoc, lookup_app in S.
    destruct (lookup (root fs) (locate env top ++ rel)) as [[d'|es]|] eqn:Le;
      simpl in S; try discriminate.
    destruct (find_entry f es) as [nf|] eqn:F; simpl in S; [|discriminate].
    inversion S; subst nf. apply find_entry_some in F.
    rewrite lookup_app in Le.
    destruct (lookup (root fs) (locate env top)) as [n|] eqn:L;
      [|now rewrite lookup_none in Le].
    assert (Wn : well_formed n = true) by (eapply well_formed_lookup; [exact W | exact L]).
    apply (dirs_of_lookup _ rel es Wn) in Le.
    assert (Hf : In f (filenames es)) by (apply in_filenames; eauto).
    destruct (@emitted_file env top fs n rel es f W L Le Hf) as (_ & Prel & El & _).
    exists (mkEntry (joinpath (fold_left joinpath rel top) f)
                    (int_of_digits (group "lane" m))).
    split; [|split; [exact El | reflexivity]].
    apply find_fastqs_in. exists n, rel, es, f, m. repeat split; try assumption.
    intros x Ex Hin. apply (Hx x Ex). apply in_parents_resolve in Hin.
    now rewrite locate_fold_joinpath in Hin.
Qed.

(** The file that lies directly in the output directory [/w/out] is
    emitted. *)
Lemma X8_scanner_emits_the_matched_files_witness :
  exists e,
    In (ex_key_A, e) (find_fastqs ex_env (mkPath false []) (Some ex_outdir) ex_disk_out) /\
    locate ex_env (path e) = [s "w"; s "out"; s "S1_A_L001_R1.fastq.gz"] /\
    lane e = 1%N.
Proof.
  assert (W : well_formed (Dir ex_disk_out) = true) by (vm_compute; reflexivity).
  pose (m := match FASTQ_RE (s "S1_A_L001_R1.fastq.gz") with Some m => m | None => [] end).
  assert (Hm : FASTQ_RE (s "S1_A_L001_R1.fastq.gz") = Some m) by (vm_compute; reflexivity).
  destruct (proj2 (@X8_scanner_emits_the_matched_files ex_env (mkPath false [])
                     (Some ex_outdir) ex_disk_out W)
                  [s "out"] (s "S1_A_L001_R1.fastq.gz") m (bytes "kept?"))
    as (e & H1 & H2 & H3).
  - vm_compute. reflexivity.
  - exact Hm.
  - intros x E (r & Hr & Er). inversion E; subst x. vm_compute in Er.
    inversion Er as [Er']. apply Hr. now rewrite <- Er'.
  - exists e. split; [exact H1|]. split; [exact H2 | exact H3].
Defined.

(** X9: on such a tree the Scanner emits no file twice: the entries of
    all the groups lie at different locations. *)
Theorem X9_scanner_emits_each_file_once env top exclude fs :
  well_formed (Dir fs) = true ->
  NoDup (map (fun em : emission => locate env (path (snd em)))
             (find_fastqs env top exclude fs)).
Proof. exact (@scanned_locations_NoDup env top exclude fs). Qed.

Lemma X9_scanner_emits_each_file_once_witness :
  NoDup (map (fun em : emission => locate ex_env (path (snd em)))
             (find_fastqs ex_env (mkPath false []) (Some ex_outdir) ex_disk)).
Proof.
  apply X9_scanner_emits_each_file_once. vm_compute. reflexivity.
Defined.

(** ** What a consolidation can touch *)

Lemma grows_same target fs fs' q : stat fs' q = stat fs q -> grows target fs fs' q.
Proof. now left. Qed.

Lemma grows_then_same target fs fs1 fs' q :
  grows target fs fs1 q -> stat fs' q = stat fs1 q -> grows target fs fs' q.
Proof.
  intros [E | (N & D & P)] E'; [left; congruence|]. right. repeat split; congruence.
Qed.

Lemma Path_mkdir_grows env p fs fs' r :
  Path_mkdir env p fs = (r, fs') -> forall q, grows (locate env p) fs fs' q.
Proof.
  intros H q. destruct r as [ex | []].
  - apply Path_mkdir_raises in H. subst. now left.
  - apply Path_mkdir_spec in H. apply H.
Qed.

Lemma concatenate_grows env files dest fs fs' r :
  locate env dest <> [] ->
  (forall e, In e files -> locate env (path e) <> locate env dest) ->
  concatenate env files dest fs = (r, fs') ->
  forall q, q <> locate env dest -> grows (locate env (parent dest)) fs fs' q.
Proof.
  intros Hd Hne H q Hq. unfold concatenate in H.
  apply bind_cases in H. destruct H as [(ex & H & _) | ([] & fsA & HA & H)].
  { eapply Path_mkdir_grows; eauto. }
  apply Path_mkdir_grows with (q := q) in HA. eapply grows_then_same; [exact HA|].
  apply bind_cases in H. destruct H as [(ex & H & _) | ([] & fsB & HB & H)].
  { apply open_wb_raises in H. now subst. }
  apply open_wb_spec in HB; [|exact Hd]. destruct HB as (SB & FB).
  assert (Hs : forall e, In e (sorted_by_lane files) ->
                         locate env (path e) <> locate env dest).
  { intros e He. apply Hne. eapply Permutation_in; [|exact He].
    apply sorted_by_lane_perm. }
  destruct (@copy_loop_outcome _ (fun e => locate env (path e)) _ Hd
              (sorted_by_lane files) fsB fs' [] r Hs SB H) as (F & _).
  rewrite F by exact Hq. now apply FB.
Qed.

Lemma concatenate_on_directory env files dest fs fs' r :
  stat fs (locate env dest) = Some KDir ->
  concatenate env files dest fs = (r, fs') ->
  (exists ex, r = inl ex) /\ stat fs' (locate env dest) = Some KDir.
Proof.
  intros S H. unfold concatenate in H.
  apply bind_cases in H. destruct H as [(ex & H & ->) | ([] & fsA & HA & H)].
  { apply Path_mkdir_raises in H. subst. eauto. }
  apply Path_mkdir_keeps with (q := locate env dest) (k := KDir) in HA; [|exact S].
  apply bind_cases in H. destruct H as [(ex & H & ->) | ([] & fsB & HB & H)].
  { apply open_wb_raises in H. subst. eauto. }
  unfold open_wb in HB. rewrite HA in HB. discriminate.
Qed.

Lemma relocate_grows env entries dest fs fs' r :
  let dl := locate env dest in
  dl <> [] ->
  locate env (parent dest) = removelast dl ->
  (forall e, In e entries ->
             locate env (path e) <> dl /\
             exists d, stat fs (locate env (path e)) = Some (KFile d)) ->
  relocate env entries dest fs = (r, fs') ->
  (forall q, q <> dl -> (forall e, In e entries -> locate env (path e) <> q) ->
             (forall e, entries = [e] -> q <> moved_into env dest e) ->
             grows (removelast dl) fs fs' q) /\
  (stat fs dl = Some KDir -> stat fs' dl = Some KDir).
Proof.
  intros dl Hd Hp Hsrc H.
  assert (Hnr : forall e, In e entries -> locate env (path e) <> []).
  { intros e He E. destruct (Hsrc e He) as (_ & d & Sd). rewrite E, stat_root in Sd.
    discriminate. }
  destruct (Nat.eq_dec (length entries) 1) as [L1 | L1].
  - destruct entries as [|e [|? ?]]; try discriminate. clear L1.
    destruct (Hsrc e (or_introl eq_refl)) as (Hne & d & Sd).
    pose proof (Hnr e (or_introl eq_refl)) as Hs.
    unfold relocate in H. fold dl in H.
    apply bind_cases in H. destruct H as [(ex & H & ->) | ([] & fsA & HA & H)].
    { apply Path_mkdir_raises in H. subst fs'. split; [|auto]. intros. now left. }
    pose proof (Path_mkdir_keeps _ _ _ HA) as KA.
    pose proof (Path_mkdir_grows _ _ _ HA) as GA. rewrite Hp in GA.
    pose proof (KA _ _ Sd) as SdA.
    destruct r as [ex | []].
    { apply shutil_move_raises in H. subst fs'. split; [intros; apply GA | apply KA]. }
    unfold shutil_move in H. fold dl in H. fold (moved_into env dest e) in H.
    destruct (stat fsA dl) as [[old|]|] eqn:SD.
    + split.
      * intros q Hq Hqs _. eapply grows_then_same; [exact (GA q)|].
        apply (@os_rename_file_frame _ _ d fsA fs' SdA Hne Hs Hd); auto.
        -- rewrite SD. discriminate.
        -- intros ->. now apply (Hqs e (or_introl eq_refl)).
      * intros S. apply KA in S. congruence.
    + destruct (list_eq_dec str_eq_dec (locate env (path e)) dl) as [E|_]; [now elim Hne|].
      destruct (stat fsA (moved_into env dest e)) as [k|] eqn:SR; [discriminate|].
      assert (Hreal : moved_into env dest e <> [])
        by (intros E; rewrite E, stat_root in SR; discriminate).
      assert (Hsr : locate env (path e) <> moved_into env dest e)
        by (intros E; rewrite <- E in SR; congruence).
      assert (Hk : stat fsA (moved_into env dest e) <> Some KDir)
        by (rewrite SR; discriminate).
      pose proof (@os_rename_file_frame _ _ d fsA fs' SdA Hsr Hs Hreal Hk H) as F.
      split.
      * intros q Hq Hqs Hqr. eapply grows_then_same; [exact (GA q)|]. apply F.
        -- intros ->. now apply (Hqs e (or_introl eq_refl)).
        -- now apply Hqr.
      * intros _. rewrite F; [exact SD | congruence | intros E; rewrite E in SD; congruence].
    + split.
      * intros q Hq Hqs _. eapply grows_then_same; [exact (GA q)|].
        apply (@os_rename_file_frame _ _ d fsA fs' SdA Hne Hs Hd); auto.
        -- rewrite SD. discriminate.
        -- intros ->. now apply (Hqs e (or_introl eq_refl)).
      * intros S. apply KA in S. congruence.
  - rewrite relocate_multi_eq in H by assumption.
    apply bind_cases in H. destruct H as [(ex & H & ->) | ([] & fsA & HA & H)].
    { apply Path_mkdir_raises in H. subst fs'. split; [|auto]. intros. now left. }
    pose proof (Path_mkdir_keeps _ _ _ HA) as KA.
    pose proof (Path_mkdir_grows _ _ _ HA) as GA. rewrite Hp in GA.
    assert (Hne : forall e, In e entries -> locate env (path e) <> locate env dest)
      by (intros e He; apply (Hsrc e He)).
    assert (GC : forall rB fsB q, concatenate env entries dest fsA = (rB, fsB) ->
                                  q <> dl -> grows (removelast dl) fs fsB q).
    { intros rB fsB q HB Hq.
      pose proof (@concatenate_grows env entries dest fsA fsB rB Hd Hne HB q Hq) as G.
      rewrite Hp in G. fold dl in G. destruct (GA q) as [E | (N & D & P)].
      - destruct G as [E' | (N' & D' & P')]; [left; congruence|].
        right. repeat split; congruence.
      - destruct G as [E' | (N' & D' & P')]; [|congruence].
        right. repeat split; congruence. }
    apply bind_cases in H. destruct H as [(ex & H & ->) | ([] & fsB & HB & H)].
    + split; [intros q Hq _ _; eapply GC; eauto|].
      intros S. apply KA in S. now apply (@concatenate_on_directory env entries dest fsA fs' _ S H).
    + pose proof (@unlink_loop_outcome _ (fun e => locate env (path e)) entries
                    fsB fs' r Hnr H) as FU.
      split.
      * intros q Hq Hqs _. eapply grows_then_same; [exact (GC _ _ q HB Hq)|]. now apply FU.
      * intros S. apply KA in S.
        destruct (@concatenate_on_directory env entries dest fsA fsB _ S HB) as ((ex & ?) & _).
        discriminate.
Qed.

Lemma relocate_removes env entries dest fs fs' :
  let dl := locate env dest in
  dl <> [] ->
  (forall e, In e entries ->
             locate env (path e) <> dl /\
             exists d, stat fs (locate env (path e)) = Some (KFile d)) ->
  relocate env entries dest fs = (inr tt, fs') ->
  forall e, In e entries -> stat fs' (locate env (path e)) = None.
Proof.
  intros dl Hd Hsrc H.
  assert (Hnr : forall e, In e entries -> locate env (path e) <> []).
  { intros e He E. destruct (Hsrc e He) as (_ & d & Sd). rewrite E, stat_root in Sd.
    discriminate. }
  destruct (Nat.eq_dec (length entries) 1) as [L1 | L1].
  - destruct entries as [|e [|? ?]]; try discriminate. clear L1.
    destruct (Hsrc e (or_introl eq_refl)) as (Hne & d & Sd).
    pose proof (Hnr e (or_introl eq_refl)) as Hs.
    unfold relocate in H. fold dl in H.
    apply bind_ok in H. destruct H as ([] & fsA & HA & H).
    pose proof (Path_mkdir_keeps _ _ _ HA) as KA. pose proof (KA _ _ Sd) as SdA.
    unfold shutil_move in H. fold dl in H. fold (moved_into env dest e) in H.
    intros a [<- | []].
    destruct (stat fsA dl) as [[old|]|] eqn:SD.
    + apply (@os_rename_file_spec _ _ d fsA fs' SdA Hne Hs Hd); [|exact H].
      rewrite SD. discriminate.
    + destruct (list_eq_dec str_eq_dec (locate env (path e)) dl) as [E|_]; [now elim Hne|].
      destruct (stat fsA (moved_into env dest e)) as [k|] eqn:SR; [discriminate|].
      apply (@os_rename_file_spec (locate env (path e)) (moved_into env dest e)
               d fsA fs' SdA); auto.
      * intros E; rewrite <- E in SR; congruence.
      * intros E; rewrite E, stat_root in SR; discriminate.
      * rewrite SR. discriminate.
    + apply (@os_rename_file_spec _ _ d fsA fs' SdA Hne Hs Hd); [|exact H].
      rewrite SD. discriminate.
  - apply (@relocate_multi env entries dest fs fs' L1 Hd); [|exact H].
    intros e He. split; [apply (Hsrc e He) | now apply Hnr].
Qed.

(** ** Names of sources and of destinations *)

Lemma scanned_name env k e :
  scanned k e ->
  exists X f m,
    FASTQ_RE f = Some m /\ k = key_of m /\
    locate env (path e) = X ++ [f] /\
    forall dest, moved_into env dest e = locate env dest ++ [f].
Proof.
  intros (dirpath & f & m & Hm & -> & ->).
  pose proof (matched_plain _ Hm) as Pf.
  exists (locate env dirpath), f, m. repeat split; [exact Hm | |].
  - cbn [path]. now apply locate_joinpath.
  - intros dest. unfold moved_into. cbn [path]. rewrite (@joinpath_plain dirpath f Pf).
    cbn [parts]. rewrite last_last. now apply locate_joinpath.
Qed.

Lemma matched_has_underscore f m : FASTQ_RE f = Some m -> In "_"%char f.
Proof.
  intros H. apply FASTQ_RE_some in H. destruct H as (tl & l & r & -> & _).
  apply in_or_app. right. now left.
Qed.

Lemma locate_joinpath_dotdot env p :
  locate env (joinpath p (s "..")) = removelast (locate env p).
Proof.
  unfold locate, resolve, joinpath.
  change (str_eqb (s "..") [] || str_eqb (s "..") (s ".")) with false.
  cbn [parts absolute]. destruct (absolute p); [|rewrite app_assoc];
    unfold norm; rewrite fold_left_app; reflexivity.
Qed.

(** The directory of a destination is the output directory, a child of
    it, or (for the sample [..]) its parent. *)
Lemma dest_parent_cases env outdir k :
  key_ok k ->
  let pl := removelast (locate env (dest_path outdir k)) in
  (exists sample, ~ In "_"%char sample /\ pl = locate env outdir ++ [sample]) \/
  exists r, locate env outdir = pl ++ r.
Proof.
  destruct k as [[sample read] ext]. intros (Hs & Hu & _) pl.
  assert (E : pl = locate env (joinpath outdir sample)).
  { unfold pl. rewrite <- locate_dest_parent. unfold dest_path.
    now rewrite parent_joinpath by apply dest_name_plain. }
  destruct (str_eq_dec sample (s ".")) as [-> | Hdot].
  { right. exists []. rewrite E, app_nil_r. reflexivity. }
  destruct (str_eq_dec sample (s "..")) as [-> | Hdd].
  { right. rewrite E, locate_joinpath_dotdot.
    destruct (locate env outdir) as [|x l' _] using rev_ind.
    - now exists [].
    - exists [x]. now rewrite removelast_last. }
  left. exists sample. split; [exact Hu|]. rewrite E. apply locate_joinpath.
  repeat split; assumption.
Qed.

Lemma source_not_on_the_way env outdir k k' e :
  scanned k' e -> key_ok k ->
  (forall r, locate env outdir <> locate env (path e) ++ r) ->
  forall r, removelast (locate env (dest_path outdir k)) <> locate env (path e) ++ r.
Proof.
  intros Hs Hk Hol r E.
  destruct (scanned_name env Hs) as (X & f & m & Hm & _ & Eq & _).
  destruct (dest_parent_cases env outdir k Hk) as [(sample & Hu & P) | (r0 & P)].
  - rewrite P in E. destruct r as [|x r' _] using rev_ind.
    + rewrite app_nil_r, Eq in E. apply app_inj_tail in E. destruct E as (_ & <-).
      apply Hu. eapply matched_has_underscore; eauto.
    + rewrite app_assoc in E. apply app_inj_tail in E. destruct E as (E & _).
      now apply (Hol r').
  - apply (Hol (r ++ r0)). rewrite P, E. now rewrite app_assoc.
Qed.

Lemma moved_is_no_source env outdir k e k' e' :
  scanned k e -> scanned k' e' ->
  moved_into env (dest_path outdir k) e = locate env (path e') -> k = k'.
Proof.
  intros Hs Hs' E.
  destruct (scanned_name env Hs) as (X & f & m & Hm & -> & _ & Mv).
  destruct (scanned_name env Hs') as (X' & f' & m' & Hm' & -> & Eq' & _).
  rewrite Mv, Eq' in E. apply app_inj_tail in E. destruct E as (_ & <-). congruence.
Qed.

Lemma moved_is_no_dest env outdir k e k' :
  scanned k e -> key_ok k' ->
  moved_into env (dest_path outdir k) e <> locate env (dest_path outdir k').
Proof.
  intros Hs Hk E.
  destruct (scanned_name env Hs) as (X & f & m & Hm & _ & _ & Mv).
  destruct (locate_dest env outdir k') as (pl & Ed & _).
  rewrite Mv, Ed in E. apply app_inj_tail in E. destruct E as (_ & ->).
  rewrite (dest_name_unmatched _ Hk) in Hm. discriminate.
Qed.

Lemma moved_apart env outdir k e k' e' :
  scanned k e -> scanned k' e' ->
  moved_into env (dest_path outdir k) e = moved_into env (dest_path outdir k') e' ->
  k = k'.
Proof.
  intros Hs Hs' E.
  destruct (scanned_name env Hs) as (X & f & m & Hm & _ & _ & Mv).
  destruct (scanned_name env Hs') as (X' & f' & m' & Hm' & _ & _ & Mv').
  rewrite Mv, Mv' in E. apply app_inj_tail in E. destruct E as (E & _).
  eapply locate_dest_inj; [eapply scanned_key_ok; exact Hs
                          | eapply scanned_key_ok; exact Hs' | exact E].
Qed.

Lemma NoDup_app_disjoint {A} (l1 l2 : list A) :
  NoDup (l1 ++ l2) -> forall a, In a l1 -> ~ In a l2.
Proof.
  induction l1 as [|x l1 IH]; simpl; intros N a H; [destruct H|].
  inversion N as [|? ? Hn N']; subst. destruct H as [<- | H]; [|now apply IH].
  intros H2. apply Hn. apply in_or_app. now right.
Qed.

(** ** The consolidation of all the groups *)

Section Consolidation.
Variable env : Env.
Variable outdir : Path.

Local Abbreviation dl k := (locate env (dest_path outdir k)).
Local Abbreviation src e := (locate env (path e)).
Local Abbreviation steps :=
  (for_each (fun g : GroupKey * list FastqEntry =>
               relocate env (snd g) (dest_path outdir (fst g)))).

Lemma consolidate_all groups : forall fs fs' r,
  NoDup (map fst groups) ->
  NoDup (map (fun e => src e) (flat_map snd groups)) ->
  (forall k es, In (k, es) groups -> key_ok k) ->
  (forall k es e, In (k, es) groups -> In e es ->
                  scanned k e /\
                  (forall r, locate env outdir <> src e ++ r) /\
                  exists d, stat fs (src e) = Some (KFile d)) ->
  steps groups fs = (r, fs') ->
  (* what is outside the footprint *)
  (forall q,
      (forall k es, In (k, es) groups -> q <> dl k) ->
      (forall k es e, In (k, es) groups -> In e es ->
                      src e <> q /\
                      (es = [e] -> q <> moved_into env (dest_path outdir k) e)) ->
      stat fs' q = stat fs q \/
      (stat fs q = None /\ stat fs' q = Some KDir /\
       exists k es r, In (k, es) groups /\ removelast (dl k) = q ++ r)) /\
  (* what stays *)
  (forall q k0,
      stat fs q = Some k0 ->
      k0 = KDir \/
      ((forall k es, In (k, es) groups -> q <> dl k) /\
       (forall k es e, In (k, es) groups -> In e es -> src e <> q)) ->
      stat fs' q = Some k0) /\
  (* on return, the sources are gone *)
  (r = inr tt ->
   forall k es e, In (k, es) groups -> In e es -> stat fs' (src e) = None) /\
  (* whatever the outcome, a group is untouched or consolidated *)
  (forall k es,
      In (k, es) groups ->
      (forall e, In e es -> stat fs' (src e) = stat fs (src e)) \/
      stat fs' (dl k)
      = Some (KFile (flat_map (fun e => content fs (src e)) (sorted_by_lane es))) \/
      exists e, es = [e] /\ stat fs' (dl k) = Some KDir /\
                stat fs' (moved_into env (dest_path outdir k) e)
                = Some (KFile (content fs (src e)))).
Proof.
  induction groups as [|[k es] gs IH]; intros fs fs' r Nk Ns Hk Hsrc H.
  { simpl in H. inversion H; subst. split; [|split; [|split]].
    - intros q _ _. now left.
    - intros q k0 S _. exact S.
    - intros _ ? ? ? [].
    - intros ? ? []. }
  cbn [for_each fst snd] in H.
  inversion Nk as [|? ? Hkn Nk']; subst.
  cbn [flat_map snd] in Ns. rewrite map_app in Ns.
  pose proof (NoDup_app_remove_l _ _ Ns) as Ns'.
  pose proof (NoDup_app_disjoint _ _ Ns) as Nd.
  assert (Kk : key_ok k) by (apply (Hk k es); now left).
  assert (Hd : dl k <> []) by apply locate_dest_not_root.
  assert (Hp : locate env (parent (dest_path outdir k)) = removelast (dl k))
    by apply locate_dest_parent.
  assert (Hhead : forall e, In e es ->
            src e <> dl k /\ exists d, stat fs (src e) = Some (KFile d)).
  { intros e He. destruct (Hsrc k es e (or_introl eq_refl) He) as (Sc & _ & Sd).
    split; [now apply (@source_not_dest env outdir _ _ _ Sc)| exact Sd]. }
  assert (Htail : forall k1 es1 e1, In (k1, es1) gs -> In e1 es1 ->
            k1 <> k /\ src e1 <> dl k /\ forall e, In e es -> src e <> src e1).
  { intros k1 es1 e1 Hin He1. split; [|split].
    - intros ->. apply Hkn. change k with (fst (k, es1)). now apply in_map.
    - destruct (Hsrc k1 es1 e1 (or_intror Hin) He1) as (Sc & _).
      now apply (@source_not_dest env outdir _ _ _ Sc).
    - intros e He E. apply (Nd (src e)); [now apply in_map with (f := fun e => src e)|].
      rewrite E. apply in_map with (f := fun e => src e). apply in_flat_map.
      exists (k1, es1). now split. }
  (* one step *)
  assert (Step : forall r1 fs1,
            relocate env es (dest_path outdir k) fs = (r1, fs1) ->
            (forall q, q <> dl k -> (forall e, In e es -> src e <> q) ->
                       (forall e, es = [e] -> q <> moved_into env (dest_path outdir k) e) ->
                       grows (removelast (dl k)) fs fs1 q) /\
            (forall q k0, stat fs q = Some k0 ->
                          k0 = KDir \/ (q <> dl k /\ forall e, In e es -> src e <> q) ->
                          stat fs1 q = Some k0) /\
            (forall k1 es1 e1, In (k1, es1) gs -> In e1 es1 ->
                               stat fs1 (src e1) = stat fs (src e1))).
  { intros r1 fs1 H1.
    destruct (@relocate_grows env es (dest_path outdir k) fs fs1 r1 Hd Hp Hhead H1)
      as (G1 & G2).
    destruct (@relocate_cases env es (dest_path outdir k) fs fs1 r1 Hd Hp Hhead H1)
      as (F & _).
    assert (B : forall q k0, stat fs q = Some k0 ->
                  k0 = KDir \/ (q <> dl k /\ forall e, In e es -> src e <> q) ->
                  stat fs1 q = Some k0).
    { intros q k0 S [-> | (Hq1 & Hq2)]; [|now apply F].
      destruct (list_eq_dec str_eq_dec q (dl k)) as [-> | Hq]; [now apply G2|].
      apply F; auto. intros e He E. destruct (Hhead e He) as (_ & d & Sd).
      rewrite E in Sd. congruence. }
    split; [exact G1|]. split; [exact B|].
    intros k1 es1 e1 Hin He1. destruct (Htail k1 es1 e1 Hin He1) as (_ & Hn1 & Hn2).
    destruct (Hsrc k1 es1 e1 (or_intror Hin) He1) as (_ & _ & d & Sd).
    rewrite Sd. apply B; [exact Sd|]. right. split; [exact Hn1|].
    intros e He. now apply Hn2. }
  apply bind_cases in H. destruct H as [(ex & H & ->) | ([] & fs1 & H1 & H)].
  - (* the first consolidation raises *)
    destruct (Step _ _ H) as (G & B & T).
    destruct (@relocate_cases env es (dest_path outdir k) fs fs' (inl ex) Hd Hp Hhead H)
      as (_ & Dj).
    split; [|split; [|split]].
    + intros q Hq1 Hq2.
      destruct (G q (Hq1 k es (or_introl eq_refl))
                  (fun e He => proj1 (Hq2 k es e (or_introl eq_refl) He))) as [E | (N & D & r0 & P)].
      * intros e E. apply (Hq2 k [e] e); [left; now rewrite E | now left | reflexivity].
      * now left.
      * right. repeat split; auto. exists k, es, r0. split; [now left | exact P].
    + intros q k0 S [-> | (Hq1 & Hq2)]; apply (B q _ S); [now left|].
      right. split; [apply (Hq1 k es); now left|].
      intros e He. apply (Hq2 k es e); [now left | exact He].
    + discriminate.
    + intros k1 es1 [E | Hin].
      * inversion E; subst k1 es1. clear E.
        destruct Dj as [(ex' & _ & _ & Same) | [Cat | (e & _ & E & _)]];
          [now left | right; now left | discriminate].
      * left. intros e He. now apply (T k1 es1).
  - (* the first consolidation returns *)
    destruct (Step _ _ H1) as (G & B & T).
    destruct (@relocate_cases env es (dest_path outdir k) fs fs1 (inr tt) Hd Hp Hhead H1)
      as (_ & Dj).
    pose proof (@relocate_removes env es (dest_path outdir k) fs fs1 Hd Hhead H1) as Gone.
    destruct (IH fs1 fs' r Nk' Ns') as (A' & B' & C' & D'); [| | exact H |].
    { intros k1 es1 Hin. apply (Hk k1 es1). now right. }
    { intros k1 es1 e1 Hin He1.
      destruct (Hsrc k1 es1 e1 (or_intror Hin) He1) as (Sc & Ho & d & Sd).
      split; [exact Sc|]. split; [exact Ho|]. exists d. now rewrite (T k1 es1 e1 Hin He1). }
    (* what the rest leaves where it is *)
    assert (Keep : forall q,
              (forall k1 es1, In (k1, es1) gs -> q <> dl k1) ->
              (forall k1 es1 e1, In (k1, es1) gs -> In e1 es1 ->
                 src e1 <> q /\
                 (es1 = [e1] -> q <> moved_into env (dest_path outdir k1) e1)) ->
              (forall k1 es1 r0, In (k1, es1) gs -> removelast (dl k1) <> q ++ r0) \/
              stat fs1 q <> None ->
              stat fs' q = stat fs1 q).
    { intros q Hq1 Hq2 Hq3. destruct (A' q Hq1 Hq2) as [E | (N & _ & k1 & es1 & r0 & Hin & P)];
        [exact E|]. destruct Hq3 as [Hq3 | Hq3]; [now elim (Hq3 k1 es1 r0 Hin) | now elim Hq3]. }
    split; [|split; [|split]].
    + intros q Hq1 Hq2.
      assert (G' : grows (removelast (dl k)) fs fs1 q).
      { apply G; [apply (Hq1 k es); now left | |].
        - intros e He. apply (Hq2 k es e); [now left | exact He].
        - intros e E. apply (Hq2 k [e] e); [left; now rewrite E | now left | reflexivity]. }
      destruct (A' q (fun k1 es1 Hin => Hq1 k1 es1 (or_intror Hin))
                  (fun k1 es1 e1 Hin => Hq2 k1 es1 e1 (or_intror Hin)))
        as [E' | (N' & Dr & k1 & es1 & r1 & Hin & P')].
      * destruct G' as [E | (N & D & r0 & P)]; [left; congruence|].
        right. repeat split; [exact N | congruence |]. exists k, es, r0. split; [now left | exact P].
      * destruct G' as [E | (N & D & r0 & P)]; [|congruence].
        right. repeat split; [congruence | exact Dr |]. exists k1, es1, r1.
        split; [now right | exact P'].
    + intros q k0 S Hq. apply B'.
      * apply (B q _ S). destruct Hq as [-> | (Hq1 & Hq2)]; [now left|].
        right. split; [apply (Hq1 k es); now left|].
        intros e He. apply (Hq2 k es e); [now left | exact He].
      * destruct Hq as [-> | (Hq1 & Hq2)]; [now left|]. right. split.
        -- intros k1 es1 Hin. apply (Hq1 k1 es1). now right.
        -- intros k1 es1 e1 Hin. apply (Hq2 k1 es1 e1). now right.
    + intros -> k1 es1 e1 [E | Hin] He1; [|now apply (C' eq_refl k1 es1 e1)].
      inversion E; subst k1 es1. clear E.
      destruct (Hsrc k es e1 (or_introl eq_refl) He1) as (Sc & Ho & _).
      rewrite Keep; [now apply Gone | | |].
      * intros k2 es2 Hin. apply (@source_not_dest env outdir _ _ _ Sc). apply (Hk k2 es2). now right.
      * intros k2 es2 e2 Hin He2. destruct (Htail k2 es2 e2 Hin He2) as (Hkk & _ & Hn).
        destruct (Hsrc k2 es2 e2 (or_intror Hin) He2) as (Sc2 & _).
        split; [intros E; now apply (Hn e1 He1)|].
        intros _ E. apply Hkk. symmetry in E.
        now apply (@moved_is_no_source env outdir _ _ _ _ Sc2 Sc).
      * left. intros k2 es2 r0 Hin. apply (@source_not_on_the_way env outdir _ _ _ Sc); [|exact Ho].
        apply (Hk k2 es2). now right.
    + intros k1 es1 [E | Hin].
      * inversion E; subst k1 es1. clear E. right.
        destruct Dj as [(ex' & E & _) | [Cat | (e & -> & _ & SD & Mv)]]; [discriminate | |].
        -- left. rewrite Keep; [exact Cat | | |].
           ++ intros k2 es2 Hin E. apply (Hkn). replace k with k2.
              ** change k2 with (fst (k2, es2)). now apply in_map.
              ** symmetry. eapply locate_dest_inj; [exact Kk | | exact E].
                 apply (Hk k2 es2). now right.
           ++ intros k2 es2 e2 Hin He2. destruct (Htail k2 es2 e2 Hin He2) as (_ & Hn & _).
              destruct (Hsrc k2 es2 e2 (or_intror Hin) He2) as (Sc2 & _).
              split; [exact Hn|]. intros _ E. symmetry in E.
              now apply (@moved_is_no_dest env outdir _ _ _ Sc2 Kk).
           ++ right. rewrite Cat. discriminate.
        -- right. exists e. split; [reflexivity|].
           destruct (Hsrc k [e] e (or_introl eq_refl) (or_introl eq_refl)) as (Sc & _).
           split.
           ++ apply (B' (dl k) KDir); [|now left]. apply (B (dl k) KDir SD). now left.
           ++ rewrite Keep; [exact Mv | | |].
              ** intros k2 es2 Hin. apply (@moved_is_no_dest env outdir _ _ _ Sc).
                 apply (Hk k2 es2). now right.
              ** intros k2 es2 e2 Hin He2. destruct (Htail k2 es2 e2 Hin He2) as (Hkk & _).
                 destruct (Hsrc k2 es2 e2 (or_intror Hin) He2) as (Sc2 & _).
                 split; intros; intros E; apply Hkk; symmetry.
                 --- symmetry in E. now apply (@moved_is_no_source env outdir _ _ _ _ Sc Sc2).
                 --- now apply (@moved_apart env outdir _ _ _ _ Sc Sc2).
              ** right. unfold moved_into. rewrite Mv. discriminate.
      * assert (Ec : forall e, In e es1 -> content fs1 (src e) = content fs (src e)).
        { intros e He. unfold content. now rewrite (T k1 es1 e Hin He). }
        destruct (D' k1 es1 Hin) as [Same | [Cat | (e & -> & SD & Mv)]].
        -- left. intros e He. rewrite (Same e He). now apply (T k1 es1).
        -- right; left. rewrite Cat. do 2 f_equal. apply flat_map_ext_in.
           intros e He. apply Ec. eapply Permutation_in; [apply sorted_by_lane_perm|exact He].
        -- right; right. exists e. split; [reflexivity|]. split; [exact SD|].
           rewrite Mv, Ec; [reflexivity | now left].
Qed.
End Consolidation.

(** ** Making directories keeps the tree well formed *)

Lemma well_formed_dir_iff es :
  well_formed (Dir es) = true <->
  NoDup (map fst es) /\
  forall c n, In (c, n) es -> plain_name c /\ well_formed n = true.
Proof.
  split; [apply well_formed_dir|]. intros (N & H). simpl.
  apply andb_true_iff. split; [now apply distinct_NoDup|].
  apply forallb_forall. intros [c n] Hin. simpl. apply andb_true_iff.
  rewrite plain_nameb_spec. now apply H.
Qed.

Lemma replace_entry_in c n es x :
  In x (replace_entry c n es) -> x = (c, n) \/ In x es.
Proof.
  induction es as [|[c' n'] es IH]; simpl.
  - intros [<- | []]. now left.
  - destruct (str_eqb c' c); simpl; intros [<- | H]; auto.
    destruct (IH H); auto.
Qed.

Lemma replace_entry_NoDup c n es :
  NoDup (map fst es) -> NoDup (map fst (replace_entry c n es)).
Proof.
  induction es as [|[c' n'] es IH]; simpl; intros N.
  - repeat constructor. intros [].
  - inversion N as [|? ? Hn N']; subst. destruct (str_eqb c' c) eqn:E; simpl.
    + apply str_eqb_eq in E. subst c'. now constructor.
    + apply str_eqb_neq in E. constructor; [|now apply IH].
      rewrite in_map_iff. intros (x & Ex & Hx). apply replace_entry_in in Hx.
      destruct Hx as [-> | Hx]; [simpl in Ex; congruence|].
      apply Hn. rewrite <- Ex. now apply in_map.
Qed.

Lemma remove_entry_NoDup c es :
  NoDup (map fst es) -> NoDup (map fst (remove_entry c es)).
Proof.
  unfold remove_entry. induction es as [|[c' n'] es IH]; simpl; intros N; [constructor|].
  inversion N as [|? ? Hn N']; subst. destruct (negb (str_eqb c' c)); simpl;
    [|now apply IH]. constructor; [|now apply IH].
  rewrite in_map_iff. intros (x & Ex & Hx). apply filter_In in Hx.
  apply Hn. rewrite <- Ex. apply in_map. tauto.
Qed.

Lemma well_formed_set_entry c o es :
  well_formed (Dir es) = true -> plain_name c ->
  (forall n, o = Some n -> well_formed n = true) ->
  well_formed (Dir (set_entry c o es)) = true.
Proof.
  intros W Pc Ho. apply well_formed_dir in W. destruct W as (N & H).
  apply well_formed_dir_iff. destruct o as [n|]; simpl.
  - split; [now apply replace_entry_NoDup|]. intros c' n' Hin.
    apply replace_entry_in in Hin. destruct Hin as [E | Hin]; [|now apply H].
    inversion E; subst. split; [exact Pc | now apply Ho].
  - split; [now apply remove_entry_NoDup|]. intros c' n' Hin.
    apply filter_In in Hin. apply H. tauto.
Qed.

Lemma well_formed_alter f p :
  (forall o, (forall n, o = Some n -> well_formed n = true) ->
             forall n, f o = Some n -> well_formed n = true) ->
  Forall plain_name p ->
  forall o, (forall n, o = Some n -> well_formed n = true) ->
            forall n, alter f p o = Some n -> well_formed n = true.
Proof.
  intros Hf. induction 1 as [|c p Pc Pp IH]; intros o Ho n H; simpl in H.
  - eapply Hf; eauto.
  - destruct o as [[d | es]|]; [now apply Ho | | discriminate].
    inversion H; subst n. clear H.
    apply well_formed_set_entry; [now apply Ho | exact Pc |].
    intros n' E. apply (IH (find_entry c es)); [|exact E].
    intros n1 F. apply find_entry_some in F.
    apply (proj2 (well_formed_dir es (Ho _ eq_refl)) c n1 F).
Qed.

Lemma well_formed_mkdir p fs :
  well_formed (Dir fs) = true -> Forall plain_name p ->
  well_formed (Dir (update (fun _ => Some (Dir [])) p fs)) = true.
Proof.
  intros W Pp. unfold update.
  destruct (alter (fun _ => Some (Dir [])) p (root fs)) as [[d | es]|] eqn:E;
    try exact W.
  apply (@well_formed_alter (fun _ => Some (Dir [])) p) with (o := root fs) (n := Dir es);
    try assumption.
  - intros o _ n H. inversion H. reflexivity.
  - intros n H. inversion H. exact W.
Qed.

Lemma norm_plain ps : Forall plain_name (norm ps).
Proof.
  unfold norm. assert (G : forall acc, Forall plain_name acc ->
                             Forall plain_name (fold_left norm_step ps acc)).
  { induction ps as [|c ps IH]; intros acc Ha; simpl; [exact Ha|]. apply IH.
    unfold norm_step. destruct (str_eqb c (s "..")) eqn:E1.
    - destruct acc as [|x acc] using rev_ind; [constructor|].
      rewrite removelast_last. apply Forall_app in Ha. tauto.
    - destruct (str_eqb c []) eqn:E2; [exact Ha|].
      destruct (str_eqb c (s ".")) eqn:E3; [exact Ha|]. simpl.
      apply Forall_app. split; [exact Ha|]. constructor; [|constructor].
      apply str_eqb_neq in E1, E2, E3. repeat split; assumption. }
  apply G. constructor.
Qed.

Lemma locate_plain env p : Forall plain_name (locate env p).
Proof. unfold locate, resolve. cbn [parts]. apply norm_plain. Qed.

Lemma makedirs_well_formed todo : forall done fs fs' r,
  well_formed (Dir fs) = true -> Forall plain_name (done ++ todo) ->
  makedirs done todo fs = (r, fs') -> well_formed (Dir fs') = true.
Proof.
  induction todo as [|c todo IH]; intros done fs fs' r W P H; simpl in H.
  - now inversion H; subst.
  - assert (P' : Forall plain_name ((done ++ [c]) ++ todo)) by now rewrite <- app_assoc.
    destruct (stat fs (done ++ [c])) as [[d|]|].
    + now inversion H; subst.
    + eapply IH; [exact W | exact P' | exact H].
    + eapply IH; [|exact P' | exact H]. apply well_formed_mkdir; [exact W|].
      apply Forall_app in P'. tauto.
Qed.

Lemma Path_mkdir_well_formed env p fs fs' r :
  well_formed (Dir fs) = true -> Path_mkdir env p fs = (r, fs') ->
  well_formed (Dir fs') = true.
Proof.
  unfold Path_mkdir. intros W H. eapply makedirs_well_formed; [exact W | | exact H].
  apply locate_plain.
Qed.

(** ** The groups of a scan *)

Lemma sources_of_groups env (groups : list (GroupKey * list FastqEntry)) :
  map (fun e => locate env (path e)) (flat_map snd groups)
  = map (fun em : emission => locate env (path (snd em))) (emissions_of groups).
Proof.
  unfold emissions_of. rewrite !map_flat_map. apply flat_map_ext_in.
  intros [k es] _. simpl. now rewrite map_map.
Qed.

Lemma scan_groups env top exclude outdir fs :
  well_formed (Dir fs) = true ->
  let groups := collect (find_fastqs env top exclude fs) in
  NoDup (map fst groups) /\
  NoDup (map (fun e => locate env (path e)) (flat_map snd groups)) /\
  (forall k es, In (k, es) groups -> key_ok k) /\
  (forall k es e, In (k, es) groups -> In e es ->
                  scanned k e /\
                  (stat fs (locate env outdir) = Some KDir ->
                   forall r, locate env outdir <> locate env (path e) ++ r) /\
                  exists d, stat fs (locate env (path e)) = Some (KFile d)).
Proof.
  intros W groups. pose proof (collect_spec (find_fastqs env top exclude fs)) as (Nk & Hg).
  assert (Hem : forall k es e, In (k, es) groups -> In e es ->
                               In (k, e) (find_fastqs env top exclude fs)).
  { intros k es e Hin He. apply Hg in Hin. destruct Hin as (_ & ->).
    now apply in_group_of. }
  split; [exact Nk|]. split; [|split].
  - rewrite sources_of_groups.
    eapply Permutation_NoDup; [|apply (@scanned_locations_NoDup env top exclude fs W)].
    apply Permutation_map. symmetry.
    pose proof (emissions_collect_from (find_fastqs env top exclude fs) []) as P.
    exact P.
  - intros k es Hin. apply Hg in Hin. destruct Hin as (Hk & _).
    apply in_map_iff in Hk. destruct Hk as ([k' e] & <- & Hin).
    eapply scanned_key_ok. eapply find_fastqs_scanned. exact Hin.
  - intros k es e Hin He. pose proof (Hem k es e Hin He) as H.
    assert (Sd : exists d, stat fs (locate env (path e)) = Some (KFile d)).
    { apply find_fastqs_in in H.
      destruct H as (n & rel & es' & f & m & L & Hd & _ & Hf & _ & E).
      inversion E; subst. cbn [path].
      destruct (@emitted_file env top fs n rel es' f W L Hd Hf) as (_ & _ & -> & _ & Sd).
      exact Sd. }
    split; [eapply find_fastqs_scanned; exact H|]. split; [|exact Sd].
    intros So r E. destruct Sd as (d & Sd). destruct r as [|x r].
    + rewrite app_nil_r in E. congruence.
    + rewrite E in So. apply stat_prefix_dir in So; [congruence | discriminate].
Qed.

(** ** The whole run *)

Lemma main_with_outdir env opt_outdir environ_OUTDIR fs arg expanded :
  parse_args opt_outdir environ_OUTDIR = Some arg -> arg <> [] ->
  expanduser env (Path_of arg) = inr expanded ->
  main env opt_outdir environ_OUTDIR fs
  = let outdir := resolve env expanded in
    match Path_mkdir env outdir fs with
    | (inl e, fs1) => mkOutcome (inl e) fs1 []
    | (inr _, fs1) =>
        let groups := collect (find_fastqs env (mkPath false []) (Some outdir) fs1) in
        match groups with
        | [] => mkOutcome (inr 1%Z) fs1 [msg_no_match]
        | _ :: _ =>
            match for_each (fun g => relocate env (snd g) (dest_path outdir (fst g)))
                           groups fs1 with
            | (inl e, fs2) => mkOutcome (inl e) fs2 []
            | (inr _, fs2) => mkOutcome (inr 0%Z) fs2 []
            end
        end
    end.
Proof.
  intros Ha Hne He. unfold main. rewrite Ha.
  destruct arg as [|c arg]; [congruence|]. cbn [truthy negb]. now rewrite He.
Qed.

Lemma main_consolidates env opt_outdir environ_OUTDIR fs arg expanded :
  well_formed (Dir fs) = true ->
  parse_args opt_outdir environ_OUTDIR = Some arg -> arg <> [] ->
  expanduser env (Path_of arg) = inr expanded ->
  let outdir := resolve env expanded in
  let groups := collect (find_fastqs env (mkPath false []) (Some outdir)
                                     (snd (Path_mkdir env outdir fs))) in
  let out := main env opt_outdir environ_OUTDIR fs in
  (forall q k0,
      stat fs q = Some k0 ->
      k0 = KDir \/
      ((forall k es, In (k, es) groups -> q <> locate env (dest_path outdir k)) /\
       (forall k es e, In (k, es) groups -> In e es -> locate env (path e) <> q)) ->
      stat (on_disk out) q = Some k0) /\
  (status out = inr 0%Z ->
   groups <> [] /\
   forall k es e, In (k, es) groups -> In e es ->
                  stat (on_disk out) (locate env (path e)) = None) /\
  (forall k es,
      In (k, es) groups ->
      (forall e, In e es -> exists d, stat fs (locate env (path e)) = Some (KFile d)) /\
      ((forall e, In e es ->
                  stat (on_disk out) (locate env (path e)) = stat fs (locate env (path e))) \/
       stat (on_disk out) (locate env (dest_path outdir k))
       = Some (KFile (flat_map (fun e => content fs (locate env (path e)))
                               (sorted_by_lane es))) \/
       exists e, es = [e] /\
                 stat (on_disk out) (locate env (dest_path outdir k)) = Some KDir /\
                 stat (on_disk out) (moved_into env (dest_path outdir k) e)
                 = Some (KFile (content fs (locate env (path e)))))).
Proof.
  intros W Ha Hne He outdir groups out.
  pose proof (@main_with_outdir env opt_outdir environ_OUTDIR fs arg expanded Ha Hne He)
    as Eo.
  change (main env opt_outdir environ_OUTDIR fs) with out in Eo. clearbody out.
  fold outdir in Eo. cbv zeta in Eo. unfold groups. clear groups.
  destruct (Path_mkdir env outdir fs) as [r1 fs1] eqn:HM. cbn [snd].
  pose proof (Path_mkdir_keeps _ _ _ HM) as KA.
  pose proof (@Path_mkdir_well_formed env outdir fs fs1 r1 W HM) as W1.
  destruct (@scan_groups env (mkPath false []) (Some outdir) outdir fs1 W1)
    as (Nk & Ns & Hk & Hsrc).
  cbv zeta in Nk, Ns, Hk, Hsrc.
  remember (collect (find_fastqs env (mkPath false []) (Some outdir) fs1)) as groups
    eqn:Eg0 in *. clear Eg0.
  assert (Hfile : forall k es e, In (k, es) groups -> In e es ->
            exists d, stat fs1 (locate env (path e)) = Some (KFile d) /\
                      stat fs (locate env (path e)) = Some (KFile d)).
  { intros k es e Hin He'. destruct (Hsrc k es e Hin He') as (_ & _ & d & Sd).
    exists d. split; [exact Sd|]. destruct r1 as [ex | []].
    - apply Path_mkdir_raises in HM. now subst.
    - apply Path_mkdir_spec in HM. now apply HM. }
  assert (Hfs : forall k es e, In (k, es) groups -> In e es ->
            exists d, stat fs (locate env (path e)) = Some (KFile d)).
  { intros k es e Hin He'. destruct (Hfile k es e Hin He') as (d & _ & Sd). eauto. }
  destruct r1 as [ex | []].
  { (* [outdir.mkdir] raises *)
    apply Path_mkdir_raises in HM. subst fs1. rewrite Eo. cbn [on_disk status].
    split; [auto|]. split; [discriminate|]. intros k es Hin.
    split; [intros e He'; now apply (Hfs k es)|]. now left. }
  pose proof (proj1 (@Path_mkdir_spec env outdir fs fs1 HM)) as So.
  destruct groups as [|g gs].
  { (* nothing matched *)
    rewrite Eo. cbn [on_disk status]. split; [intros q k0 S _; now apply KA|].
    split; [discriminate|]. intros k es []. }
  cbv beta iota in Eo. assert (Eg : g :: gs <> []) by discriminate.
  set (groups := g :: gs) in *. clearbody groups.
  destruct (for_each (fun g => relocate env (snd g) (dest_path outdir (fst g))) groups fs1)
    as [r fs2] eqn:HL.
  assert (Eo' : on_disk out = fs2 /\ (status out = inr 0%Z -> r = inr tt)).
  { rewrite Eo. destruct r as [ex | []]; cbn; split; auto. discriminate. }
  destruct Eo' as (-> & Hst). clear Eo.
  destruct (@consolidate_all env outdir groups fs1 fs2 r Nk Ns Hk) as (_ & B & C & D);
    [|exact HL|].
  { intros k es e Hin He'. destruct (Hsrc k es e Hin He') as (Sc & Ho & Sd).
    split; [exact Sc|]. split; [now apply Ho | exact Sd]. }
  split; [|split].
  - intros q k0 S Hq. apply B; [now apply KA | exact Hq].
  - intros H0. split; [exact Eg|]. now apply C, Hst.
  - intros k es Hin. split; [intros e He'; now apply (Hfs k es)|].
    assert (Es : forall e, In e es ->
              stat fs1 (locate env (path e)) = stat fs (locate env (path e))).
    { intros e He'. destruct (Hfile k es e Hin He') as (d & -> & ->). reflexivity. }
    assert (Ec : forall e, In e es ->
              content fs1 (locate env (path e)) = content fs (locate env (path e))).
    { intros e He'. unfold content. now rewrite Es. }
    destruct (D k es Hin) as [Same | [Cat | (e & -> & SD & Mv)]].
    + left. intros e He'. rewrite (Same e He'). now apply Es.
    + right; left. rewrite Cat. do 2 f_equal. apply flat_map_ext_in.
      intros e He'. apply Ec. eapply Permutation_in; [apply sorted_by_lane_perm|exact He'].
    + right; right. exists e. split; [reflexivity|]. split; [exact SD|].
      rewrite Mv, Ec; [reflexivity | now left].
Qed.

Lemma dest_name_has_underscore k : In "_"%char (dest_name k).
Proof.
  destruct k as [[sample read] ext]. unfold dest_name. apply in_or_app. right. now left.
Qed.

Lemma groups_not_empty ems k es : In (k, es) (collect ems) -> es <> [].
Proof.
  intros H. apply collect_spec in H. destruct H as (Hk & ->).
  apply in_map_iff in Hk. destruct Hk as ([k' e] & <- & Hin). simpl.
  intros E. apply <- in_group_of in Hin. rewrite E in Hin. exact Hin.
Qed.

(** X10: whatever its arguments and its outcome, an exit code or an
    exception, [main] removes no directory, and it neither removes nor
    changes a regular file unless the name of the file is a lane-split
    name (one that [FASTQ_RE] matches) or an output name
    [<sample>_R<read><ext>]. *)
Theorem X10_main_keeps_the_other_files env opt_outdir environ_OUTDIR fs :
  well_formed (Dir fs) = true ->
  forall q k0,
    stat fs q = Some k0 ->
    k0 = KDir \/
    (FASTQ_RE (last q []) = None /\
     forall key, key_ok key -> last q [] <> dest_name key) ->
    stat (on_disk (main env opt_outdir environ_OUTDIR fs)) q = Some k0.
Proof.
  intros W q k0 S Hq.
  destruct (parse_args opt_outdir environ_OUTDIR) as [arg|] eqn:Ha;
    [|unfold main; rewrite Ha; exact S].
  destruct arg as [|c arg]; [unfold main; rewrite Ha; exact S|].
  destruct (expanduser env (Path_of (c :: arg))) as [ex | expanded] eqn:He;
    [unfold main; rewrite Ha; cbn [truthy negb]; rewrite He; exact S|].
  assert (Hne : c :: arg <> []) by discriminate.
  destruct (@main_consolidates env opt_outdir environ_OUTDIR fs (c :: arg) expanded
              W Ha Hne He) as (Keep & _). cbv zeta in Keep.
  apply Keep; [exact S|]. destruct Hq as [-> | (Hm & Hn)]; [now left|]. right.
  set (outdir := resolve env expanded) in *.
  destruct (Path_mkdir env outdir fs) as [r1 fs1] eqn:HM. cbn [snd].
  pose proof (@Path_mkdir_well_formed env outdir fs fs1 r1 W HM) as W1.
  destruct (@scan_groups env (mkPath false []) (Some outdir) outdir fs1 W1)
    as (_ & _ & Hk & Hsrc).
  split.
  - intros k es Hin E. destruct (locate_dest env outdir k) as (pl & Ed & _).
    apply (Hn k); [apply (Hk k es Hin)|]. now rewrite E, Ed, last_last.
  - intros k es e Hin He' E. destruct (Hsrc k es e Hin He') as (Sc & _).
    destruct (scanned_name env Sc) as (X & f & m & Hf & _ & Eq & _).
    rewrite <- E, Eq, last_last in Hm. congruence.
Qed.

Lemma X10_main_keeps_the_other_files_witness :
  stat (on_disk (main ex_env (Some (s "out")) None ex_disk)) [s "w"; s "notes.txt"]
  = Some (KFile (bytes "n")).
Proof.
  apply X10_main_keeps_the_other_files.
  - vm_compute. reflexivity.
  - vm_compute. reflexivity.
  - right. split; [vm_compute; reflexivity|]. intros key _ E.
    pose proof (dest_name_has_underscore key) as H. rewrite <- E in H.
    vm_compute in H. repeat (destruct H as [H | H]; [discriminate|]). exact H.
Defined.

(** ** When a consolidation returns *)

Lemma Path_mkdir_returns_iff env p fs :
  (exists fs', Path_mkdir env p fs = (inr tt, fs')) <->
  (forall q r d, locate env p = q ++ r -> stat fs q <> Some (KFile d)).
Proof.
  split.
  - intros (fs' & H) q r d E S.
    pose proof (Path_mkdir_keeps _ _ _ H) as KA. pose proof (KA _ _ S) as S'.
    apply Path_mkdir_spec in H. destruct H as (T & _). rewrite E in T.
    destruct r as [|x r]; [rewrite app_nil_r in T; congruence|].
    apply stat_prefix_dir in T; [congruence | discriminate].
  - intros H. destruct (Path_mkdir env p fs) as [[ex | []] fs'] eqn:E; [|eauto].
    unfold Path_mkdir in E. apply makedirs_raises in E; [|apply stat_root].
    destruct E as (a & b & d & E & _ & S). now elim (H a b d E).
Qed.

Lemma unlink_loop_returns {A} (loc_of : A -> loc) es : forall fs fs',
  (forall e, In e es -> loc_of e <> []) ->
  for_each (fun e => os_unlink (loc_of e)) es fs = (inr tt, fs') ->
  NoDup (map loc_of es) /\
  forall e, In e es -> exists d, stat fs (loc_of e) = Some (KFile d).
Proof.
  induction es as [|e es IH]; intros fs fs' Hnr H; simpl in H.
  - split; [constructor | intros ? []].
  - apply bind_ok in H. destruct H as ([] & fs1 & H1 & H).
    apply os_unlink_spec in H1; [|apply Hnr; now left].
    destruct H1 as ((d & Sd) & N1 & F1).
    destruct (IH fs1 fs' (fun a Ha => Hnr a (or_intror Ha)) H) as (Nd & Hfiles).
    assert (Hn : ~ In (loc_of e) (map loc_of es)).
    { rewrite in_map_iff. intros (a & E & Ha). destruct (Hfiles a Ha) as (d' & Sd').
      rewrite E in Sd'. congruence. }
    split; [now constructor|]. intros a [<- | Ha]; [eauto|].
    destruct (Hfiles a Ha) as (d' & Sd'). exists d'. rewrite <- Sd'. symmetry.
    apply F1. intros E. apply Hn. rewrite <- E. now apply in_map.
Qed.

Lemma moved_into_cases env dest e :
  moved_into env dest e = locate env dest \/
  moved_into env dest e = removelast (locate env dest) \/
  moved_into env dest e = locate env dest ++ [last (parts (path e)) (s ".")].
Proof.
  unfold moved_into. set (name := last (parts (path e)) (s ".")).
  destruct (str_eq_dec name (s "..")) as [-> | Hdd].
  { right; left. apply locate_joinpath_dotdot. }
  destruct (str_eq_dec name []) as [E | He].
  { left. unfold joinpath. now rewrite E. }
  destruct (str_eq_dec name (s ".")) as [E | Hd].
  { left. unfold joinpath. now rewrite E. }
  right; right. apply locate_joinpath. repeat split; assumption.
Qed.

Lemma open_wb_returns p fs :
  stat fs p <> Some KDir -> stat fs (removelast p) = Some KDir ->
  open_wb p fs = (inr tt, update (fun _ => Some (File [])) p fs).
Proof.
  intros Hk Hp. unfold open_wb. destruct (stat fs p) as [[d|]|]; [reflexivity | congruence|].
  now rewrite Hp.
Qed.

Lemma relocate_returns env entries dest fs :
  let dl := locate env dest in
  dl <> [] ->
  locate env (parent dest) = removelast dl ->
  (forall e, In e entries ->
             locate env (path e) <> dl /\
             exists d, stat fs (locate env (path e)) = Some (KFile d)) ->
  ((exists fs', relocate env entries dest fs = (inr tt, fs')) <->
   (forall q r d, removelast dl = q ++ r -> stat fs q <> Some (KFile d)) /\
   NoDup (map (fun e => locate env (path e)) entries) /\
   (stat fs dl = Some KDir ->
    exists e, entries = [e] /\ stat fs (moved_into env dest e) = None)).
Proof.
  intros dl Hd Hp Hsrc.
  assert (Hnr : forall e, In e entries -> locate env (path e) <> []).
  { intros e He E. destruct (Hsrc e He) as (_ & d & Sd). rewrite E, stat_root in Sd.
    discriminate. }
  assert (Hne : forall e, In e entries -> locate env (path e) <> locate env dest)
    by (intros e He; apply (Hsrc e He)).
  split.
  - (* it returns *)
    intros (fs' & H). pose proof H as H0. unfold relocate in H0.
    apply bind_ok in H0. destruct H0 as ([] & fsA & HA & H0).
    pose proof (Path_mkdir_keeps _ _ _ HA) as KA.
    split; [|split].
    + rewrite <- Hp. apply Path_mkdir_returns_iff. eauto.
    + destruct (Nat.eq_dec (length entries) 1) as [L1 | L1].
      * destruct entries as [|e [|? ?]]; try discriminate. repeat constructor. intros [].
      * rewrite relocate_multi_eq in H by assumption.
        apply bind_ok in H. destruct H as ([] & fs1 & _ & H).
        apply bind_ok in H. destruct H as ([] & fs2 & _ & H).
        now apply unlink_loop_returns in H.
    + intros S. apply KA in S.
      destruct (Nat.eq_dec (length entries) 1) as [L1 | L1].
      * destruct entries as [|e [|? ?]]; try discriminate. exists e. split; [reflexivity|].
        unfold shutil_move in H0. fold dl in H0. rewrite S in H0.
        fold (moved_into env dest e) in H0.
        destruct (list_eq_dec str_eq_dec (locate env (path e)) dl) as [E|_];
          [now elim (Hne e (or_introl eq_refl))|].
        destruct (stat fs (moved_into env dest e)) as [k|] eqn:Sm; [|reflexivity].
        apply KA in Sm. rewrite Sm in H0. discriminate.
      * rewrite relocate_multi_eq in H by assumption.
        apply bind_ok in H. destruct H as ([] & fs1 & H1 & H).
        rewrite HA in H1. inversion H1; subst fs1.
        apply bind_ok in H. destruct H as ([] & fs2 & H2 & _).
        destruct (@concatenate_on_directory env entries dest fsA fs2 _ S H2) as ((ex & ?) & _).
        discriminate.
  - (* the conditions suffice *)
    intros (C1 & Nd & C3).
    destruct (proj2 (Path_mkdir_returns_iff env (parent dest) fs)) as (fsA & HA).
    { intros q r d E. apply (C1 q r d). now rewrite <- Hp. }
    pose proof (Path_mkdir_keeps _ _ _ HA) as KA.
    pose proof (Path_mkdir_grows _ _ _ HA) as GA. rewrite Hp in GA.
    pose proof (proj1 (@Path_mkdir_spec env (parent dest) fs fsA HA)) as SP.
    rewrite Hp in SP.
    assert (SDA : stat fs dl <> Some KDir -> stat fsA dl <> Some KDir).
    { intros Hk. destruct (GA dl) as [E | (_ & _ & r & E)]; [congruence|].
      now apply removelast_not_below in E. }
    destruct (Nat.eq_dec (length entries) 1) as [L1 | L1].
    + destruct entries as [|e [|? ?]]; try discriminate. clear L1.
      destruct (Hsrc e (or_introl eq_refl)) as (Hne1 & d & Sd).
      pose proof (KA _ _ Sd) as SdA.
      destruct (stat fs dl) as [[old|]|] eqn:SD.
      * unfold relocate. erewrite bind_intro; [|exact HA].
        rewrite shutil_move_onto by (apply SDA; discriminate). fold dl.
        rewrite (@os_rename_file _ _ d fsA SdA Hne1) by (apply SDA; discriminate).
        rewrite SP. eauto.
      * destruct (C3 eq_refl) as (e' & E & Mv). inversion E; subst e'. clear E.
        assert (HM : Path_mkdir env (parent dest) fs = (inr tt, fs)).
        { unfold Path_mkdir. apply makedirs_existing. simpl. rewrite Hp.
          eapply stat_parent_dir; eauto. }
        unfold relocate. erewrite bind_intro; [|exact HM].
        unfold shutil_move. fold dl. rewrite SD. fold (moved_into env dest e).
        destruct (list_eq_dec str_eq_dec (locate env (path e)) dl) as [E|_];
          [now elim Hne1|]. rewrite Mv.
        rewrite (@os_rename_file _ _ d fs Sd);
          [| intros E; rewrite <- E in Mv; congruence | rewrite Mv; discriminate].
        assert (stat fs (removelast (moved_into env dest e)) = Some KDir) as ->; [|eauto].
        destruct (moved_into_cases env dest e) as [E | [E | E]].
        -- fold dl in E. rewrite E in Mv. congruence.
        -- fold dl in E. rewrite E in Mv.
           rewrite (stat_parent_dir _ SD Hd) in Mv. discriminate.
        -- rewrite E, removelast_last. exact SD.
      * unfold relocate. erewrite bind_intro; [|exact HA].
        rewrite shutil_move_onto by (apply SDA; discriminate). fold dl.
        rewrite (@os_rename_file _ _ d fsA SdA Hne1) by (apply SDA; discriminate).
        rewrite SP. eauto.
    + assert (SD : stat fs dl <> Some KDir).
      { intros S. destruct (C3 S) as (e & -> & _). now apply L1. }
      assert (HM : Path_mkdir env (parent dest) fsA = (inr tt, fsA)).
      { unfold Path_mkdir. apply makedirs_existing. simpl. now rewrite Hp. }
      pose proof (@open_wb_returns dl fsA (SDA SD) SP) as HO.
      pose proof HO as HO'. apply open_wb_spec in HO'; [|assumption].
      destruct HO' as (SC & FC).
      set (fsC := update (fun _ => Some (File [])) dl fsA) in *.
      assert (Hsorted : forall e, In e (sorted_by_lane entries) -> In e entries).
      { intros e. apply Permutation_in, sorted_by_lane_perm. }
      destruct (@copy_loop_runs _ (fun e => locate env (path e)) _ Hd
                  (sorted_by_lane entries) fsC []) as (fsD & HL); [|assumption|].
      { intros e He. destruct (Hsrc e (Hsorted e He)) as (H1 & d & H3).
        split; [assumption|]. exists d. rewrite FC by assumption. now apply KA. }
      pose proof HL as HL'.
      apply (copy_loop (fun e => locate env (path e)) Hd) with (acc := []) in HL';
        [| intros e He; now apply Hne, Hsorted | assumption].
      destruct HL' as (_ & FD & _).
      destruct (@unlink_loop_runs _ (fun e => locate env (path e)) entries fsD Nd)
        as (fs' & HU).
      { intros e He. destruct (Hsrc e He) as (H1 & d & H3).
        split; [now apply Hnr|]. exists d. rewrite FD, FC by assumption. now apply KA. }
      exists fs'. rewrite relocate_multi_eq by assumption.
      erewrite bind_intro; [|exact HA]. unfold concatenate.
      erewrite bind_intro; [exact HU|].
      erewrite bind_intro; [|exact HM]. erewrite bind_intro; [exact HL | exact HO].
Qed.

(** X13: when [relocate(entries, destination)] returns.  For sources
    that are regular files other than the destination, it returns (rather
    than raises) exactly when no regular file lies on the way to the
    directory of the destination, no source is listed twice, and the
    destination is not an existing directory, unless there is one entry
    and that directory holds nothing under the name of the file. *)
Theorem X13_relocate_returns_exactly_when env entries dest fs :
  let dl := locate env dest in
  dl <> [] ->
  locate env (parent dest) = removelast dl ->
  (forall e, In e entries ->
             locate env (path e) <> dl /\
             exists d, stat fs (locate env (path e)) = Some (KFile d)) ->
  ((exists fs', relocate env entries dest fs = (inr tt, fs')) <->
   (forall q r d, removelast dl = q ++ r -> stat fs q <> Some (KFile d)) /\
   NoDup (map (fun e => locate env (path e)) entries) /\
   (stat fs dl = Some KDir ->
    exists e, entries = [e] /\ stat fs (moved_into env dest e) = None)).
Proof. exact (@relocate_returns env entries dest fs). Qed.

Lemma X13_relocate_returns_exactly_when_witness :
  exists fs',
    relocate ex_env [ex_A2; ex_A1] (dest_path ex_outdir ex_key_A) ex_disk = (inr tt, fs').
Proof.
  apply (@X13_relocate_returns_exactly_when ex_env [ex_A2; ex_A1]
           (dest_path ex_outdir ex_key_A) ex_disk).
  - vm_compute. discriminate.
  - vm_compute. reflexivity.
  - intros e [<- | [<- | []]]; (split; [vm_compute; discriminate|]);
      eexists; vm_compute; reflexivity.
  - split; [|split].
    + intros q r d E.
      change (removelast (locate ex_env (dest_path ex_outdir ex_key_A)))
        with [s "w"; s "out"; s "A"] in E.
      destruct q as [|a [|b [|c [|x q]]]]; simpl in E; inversion E; subst;
        try (vm_compute; discriminate).
    + vm_compute. repeat constructor; simpl; intuition discriminate.
    + intros H. vm_compute in H. discriminate.
Defined.

(** ** When the whole run returns *)

Lemma relocate_keeps env entries dest fs fs' r :
  locate env dest <> [] ->
  locate env (parent dest) = removelast (locate env dest) ->
  (forall e, In e entries ->
             locate env (path e) <> locate env dest /\
             exists d, stat fs (locate env (path e)) = Some (KFile d)) ->
  relocate env entries dest fs = (r, fs') ->
  forall q k0,
    stat fs q = Some k0 ->
    k0 = KDir \/
    (q <> locate env dest /\ forall e, In e entries -> locate env (path e) <> q) ->
    stat fs' q = Some k0.
Proof.
  intros Hd Hp Hsrc H q k0 S Hq.
  destruct (@relocate_grows env entries dest fs fs' r Hd Hp Hsrc H) as (_ & G2).
  destruct (@relocate_cases env entries dest fs fs' r Hd Hp Hsrc H) as (F & _).
  destruct Hq as [-> | (Hq1 & Hq2)]; [|now apply F].
  destruct (list_eq_dec str_eq_dec q (locate env dest)) as [-> | Hq]; [now apply G2|].
  apply F; auto. intros e He E. destruct (Hsrc e He) as (_ & d & Sd).
  rewrite E in Sd. congruence.
Qed.

(** A destination that lies on the way to the directory of another one
    lies on the way to the output directory. *)
Lemma dest_on_the_way env outdir k k' r fs :
  key_ok k ->
  removelast (locate env (dest_path outdir k)) = locate env (dest_path outdir k') ++ r ->
  stat fs (locate env outdir) = Some KDir ->
  stat fs (locate env (dest_path outdir k')) = Some KDir.
Proof.
  intros Hk E So.
  assert (G : forall r', locate env outdir = locate env (dest_path outdir k') ++ r' ->
                         stat fs (locate env (dest_path outdir k')) = Some KDir).
  { intros r' E'. rewrite E' in So. destruct r' as [|x r'].
    - now rewrite app_nil_r in So.
    - apply stat_prefix_dir in So; [exact So | discriminate]. }
  destruct (dest_parent_cases env outdir k Hk) as [(sample & Hu & P) | (r0 & P)].
  - rewrite P in E. destruct r as [|x r' _] using rev_ind.
    + rewrite app_nil_r in E. destruct (locate_dest env outdir k') as (pl & Ed & _).
      rewrite Ed in E. apply app_inj_tail in E. destruct E as (_ & ->).
      elim Hu. apply dest_name_has_underscore.
    + rewrite app_assoc in E. apply app_inj_tail in E. destruct E as (E & _).
      now apply (G r').
  - apply (G (r ++ r0)). rewrite P, E. now rewrite app_assoc.
Qed.

Section Progress.
Variable env : Env.
Variable outdir : Path.

Local Abbreviation dl k := (locate env (dest_path outdir k)).
Local Abbreviation src e := (locate env (path e)).
Local Abbreviation steps :=
  (for_each (fun g : GroupKey * list FastqEntry =>
               relocate env (snd g) (dest_path outdir (fst g)))).

Lemma consolidate_all_returns groups : forall fs,
  NoDup (map fst groups) ->
  NoDup (map (fun e => src e) (flat_map snd groups)) ->
  (forall k es, In (k, es) groups -> key_ok k) ->
  (forall k es e, In (k, es) groups -> In e es ->
                  scanned k e /\
                  (forall r, locate env outdir <> src e ++ r) /\
                  exists d, stat fs (src e) = Some (KFile d)) ->
  stat fs (locate env outdir) = Some KDir ->
  (forall k es, In (k, es) groups ->
                (forall q r d, removelast (dl k) = q ++ r -> stat fs q <> Some (KFile d)) /\
                stat fs (dl k) <> Some KDir) ->
  exists fs', steps groups fs = (inr tt, fs').
Proof.
  induction groups as [|[k es] gs IH]; intros fs Nk Ns Hk Hsrc So Hfree.
  { exists fs. reflexivity. }
  cbn [for_each fst snd].
  inversion Nk as [|? ? Hkn Nk']; subst.
  cbn [flat_map snd] in Ns. rewrite map_app in Ns.
  pose proof (NoDup_app_remove_l _ _ Ns) as Ns'.
  pose proof (NoDup_app_remove_r _ _ Ns) as Nes.
  pose proof (NoDup_app_disjoint _ _ Ns) as Nd.
  assert (Kk : key_ok k) by (apply (Hk k es); now left).
  assert (Hd : dl k <> []) by apply locate_dest_not_root.
  assert (Hp : locate env (parent (dest_path outdir k)) = removelast (dl k))
    by apply locate_dest_parent.
  assert (Hhead : forall e, In e es ->
            src e <> dl k /\ exists d, stat fs (src e) = Some (KFile d)).
  { intros e He. destruct (Hsrc k es e (or_introl eq_refl) He) as (Sc & _ & Sd).
    split; [now apply (@source_not_dest env outdir _ _ _ Sc) | exact Sd]. }
  destruct (Hfree k es (or_introl eq_refl)) as (Fk & Dk).
  destruct (proj2 (@relocate_returns env es (dest_path outdir k) fs Hd Hp Hhead))
    as (fs1 & H1).
  { split; [exact Fk|]. split; [exact Nes|]. intros S. now elim Dk. }
  erewrite bind_intro; [|exact H1].
  pose proof (@relocate_keeps env es (dest_path outdir k) fs fs1 _ Hd Hp Hhead H1) as B.
  destruct (@relocate_grows env es (dest_path outdir k) fs fs1 _ Hd Hp Hhead H1)
    as (G & _).
  pose proof (@relocate_removes env es (dest_path outdir k) fs fs1 Hd Hhead H1) as Gone.
  assert (Htail : forall k1 es1, In (k1, es1) gs ->
            key_ok k1 /\ dl k1 <> dl k /\
            (forall e, In e es -> src e <> dl k1 /\
                                  moved_into env (dest_path outdir k) e <> dl k1)).
  { intros k1 es1 Hin.
    assert (K1 : key_ok k1) by (apply (Hk k1 es1); now right).
    split; [exact K1|]. split.
    - intros E. apply Hkn. replace k with k1.
      + change k1 with (fst (k1, es1)). now apply in_map.
      + eapply locate_dest_inj; [exact K1 | exact Kk | exact E].
    - intros e He. destruct (Hsrc k es e (or_introl eq_refl) He) as (Sc & _).
      split; [now apply (@source_not_dest env outdir _ _ _ Sc)|].
      now apply (@moved_is_no_dest env outdir _ _ _ Sc). }
  apply IH; try assumption.
  - intros k1 es1 Hin. apply (Hk k1 es1). now right.
  - intros k1 es1 e1 Hin He1.
    destruct (Hsrc k1 es1 e1 (or_intror Hin) He1) as (Sc & Ho & d & Sd).
    split; [exact Sc|]. split; [exact Ho|]. exists d. apply B; [exact Sd|]. right.
    split; [now apply (@source_not_dest env outdir _ _ _ Sc)|].
    intros e He E. apply (Nd (src e)); [now apply in_map with (f := fun e => src e)|].
    rewrite E. apply in_map with (f := fun e => src e). apply in_flat_map.
    exists (k1, es1). now split.
  - apply (B _ _ So). now left.
  - intros k1 es1 Hin. destruct (Htail k1 es1 Hin) as (K1 & Hdd & Hs1).
    destruct (Hfree k1 es1 (or_intror Hin)) as (F1 & D1). split.
    + intros q r d E S.
      (* [q] lies on the way to the directory of the destination of [k1] *)
      assert (Hq : forall r0, q <> dl k ++ r0).
      { intros r0 ->. apply Dk. eapply dest_on_the_way; [exact K1 | | exact So].
        rewrite E, <- app_assoc. reflexivity. }
      assert (P1 : q <> dl k) by (intros ->; apply (Hq []); now rewrite app_nil_r).
      assert (P2 : forall e, In e es -> src e <> q).
      { intros e He Eq. rewrite <- Eq, (Gone e He) in S. discriminate. }
      assert (P3 : forall e, es = [e] -> q <> moved_into env (dest_path outdir k) e).
      { intros e -> Eq.
        destruct (Hsrc k [e] e (or_introl eq_refl) (or_introl eq_refl)) as (Sc & _).
        destruct (scanned_name env Sc) as (X & f & m & _ & _ & _ & Mv).
        apply (Hq [f]). now rewrite Eq, Mv. }
      destruct (G q P1 P2 P3) as [Eq | (_ & Eq & _)]; [|congruence].
      rewrite Eq in S. now apply (F1 q r d).
    + intros S.
      assert (P3 : forall e, es = [e] -> dl k1 <> moved_into env (dest_path outdir k) e).
      { intros e -> E. apply (proj2 (Hs1 e (or_introl eq_refl))). now rewrite E. }
      destruct (G (dl k1) Hdd (fun e He => proj1 (Hs1 e He)) P3)
        as [Eq | (N & _ & r & Eq)]; [congruence|].
      pose proof (@dest_on_the_way env outdir k k1 r fs Kk Eq So) as X. congruence.
Qed.
End Progress.

(** ** Making a directory does not change what a walk finds *)

Lemma flat_map_flat_map {A B C} (f : B -> list C) (g : A -> list B) l :
  flat_map f (flat_map g l) = flat_map (fun x => flat_map f (g x)) l.
Proof.
  induction l as [|a l IH]; simpl; [reflexivity|]. now rewrite flat_map_app, IH.
Qed.

Lemma find_entry_none_replace c n es :
  find_entry c es = None -> replace_entry c n es = es ++ [(c, n)].
Proof.
  induction es as [|[c' n'] es IH]; simpl; [reflexivity|].
  destruct (str_eqb c' c); [discriminate|]. intros H. now rewrite IH.
Qed.

Lemma find_entry_none_remove c es : find_entry c es = None -> remove_entry c es = es.
Proof.
  unfold remove_entry. induction es as [|[c' n'] es IH]; simpl; [reflexivity|].
  destruct (str_eqb c' c); [discriminate|]. simpl. intros H. now rewrite IH.
Qed.

Lemma flat_map_replace {B} (g : str * node -> list B) c n1 n1' es :
  find_entry c es = Some n1 -> g (c, n1') = g (c, n1) ->
  flat_map g (replace_entry c n1' es) = flat_map g es.
Proof.
  intros F Hg. induction es as [|[c' n'] es IH]; simpl in *; [discriminate|].
  destruct (str_eqb c' c) eqn:E; simpl.
  - apply str_eqb_eq in E. subst c'. inversion F; subst n'. now rewrite Hg.
  - now rewrite IH.
Qed.

Section WalkAfterMkdir.
Variable body : Path * list str * list str -> list emission.
Hypothesis body_files : forall dp dn dn' fns, body (dp, dn, fns) = body (dp, dn', fns).
Hypothesis body_empty : forall dp dn, body (dp, dn, []) = [].

Local Abbreviation emit dp n := (flat_map body (walk_node dp n)).
Local Abbreviation emit_at dp o :=
  (match o with Some n => flat_map body (walk_node dp n) | None => [] end).

Lemma emit_dir dp es :
  emit dp (Dir es)
  = body (dp, dirnames es, filenames es)
    ++ flat_map (fun e => emit (joinpath dp (fst e)) (snd e)) es.
Proof.
  cbn [walk_node flat_map]. f_equal. rewrite flat_map_flat_map.
  apply flat_map_ext_in. intros [c [d | es']] _; reflexivity.
Qed.

Lemma alter_mkdir_emit p : forall o,
  lookup o p = None ->
  let o' := alter (fun _ => Some (Dir [])) p o in
  (forall b dp, emit_at dp (lookup o' b) = emit_at dp (lookup o b)) /\
  (forall n, o = Some n ->
             exists n', o' = Some n' /\
                        (forall d, n = File d -> n' = File d) /\
                        (forall es, n = Dir es -> exists es', n' = Dir es')).
Proof.
  induction p as [|c p IH]; intros o L o'.
  - simpl in L. subst o. unfold o'. simpl. split; [|discriminate].
    intros [|c b] dp; simpl.
    + now rewrite body_empty.
    + now rewrite lookup_none.
  - destruct o as [[d | es]|].
    + (* a regular file: nothing happens *)
      unfold o'. simpl. split; [reflexivity|]. intros n E. inversion E; subst.
      exists (File d). repeat split; [auto | discriminate].
    + simpl in L. destruct (IH (find_entry c es) L) as (IHe & IHk).
      unfold o'. cbn [alter].
      set (o1 := alter (fun _ => Some (Dir [])) p (find_entry c es)) in *.
      split; [|intros n E; inversion E; subst; eexists; repeat split;
               [discriminate | eauto]].
      intros [|c0 b] dp.
      * cbn [lookup]. rewrite !emit_dir.
        destruct (find_entry c es) as [n1|] eqn:F.
        -- destruct (IHk n1 eq_refl) as (n1' & E1 & Kf & Kd). rewrite E1. cbn [set_entry].
           assert (Em : forall dp', emit dp' n1' = emit dp' n1).
           { intros dp'. specialize (IHe [] dp'). cbn [lookup] in IHe.
             now rewrite E1 in IHe. }
           f_equal.
           ++ rewrite (body_files dp _ (dirnames es)). do 2 f_equal.
              unfold filenames. f_equal.
              clear - F Kf Kd. induction es as [|[c' n'] es IHes]; simpl in *;
                [discriminate|].
              destruct (str_eqb c' c) eqn:E; simpl.
              ** apply str_eqb_eq in E. subst c'.
                 inversion F; subst n'. destruct n1 as [d | es1].
                 --- now rewrite (Kf d eq_refl).
                 --- destruct (Kd es1 eq_refl) as (es' & ->). reflexivity.
              ** destruct n'; simpl; now rewrite IHes.
           ++ apply flat_map_replace with (n1 := n1); [exact F | apply Em].
        -- destruct o1 as [n1'|] eqn:E1; cbn [set_entry].
           ++ assert (En : n1' = Dir []).
              { unfold o1 in E1. destruct p; simpl in E1; [now inversion E1 | discriminate]. }
              subst n1'. rewrite find_entry_none_replace by exact F. f_equal.
              ** rewrite (body_files dp _ (dirnames es)). do 2 f_equal.
                 unfold filenames. rewrite filter_app, map_app. simpl.
                 now rewrite app_nil_r.
              ** rewrite flat_map_app. simpl. rewrite body_empty. now rewrite !app_nil_r.
           ++ now rewrite find_entry_none_remove.
      * cbn [lookup]. destruct (str_eq_dec c0 c) as [-> | Hc].
        -- rewrite find_set_same. apply IHe.
        -- now rewrite find_set_other.
    + unfold o'. simpl. split; [reflexivity | discriminate].
Qed.
End WalkAfterMkdir.

Lemma find_fastqs_emit env top exclude fs :
  find_fastqs env top exclude fs
  = match lookup (root fs) (locate env top) with
    | Some n =>
        flat_map
          (fun w : Path * list str * list str =>
             let '(dirpath, _, filenames) := w in
             if match option_map (resolve env) exclude with
                | Some x => if in_dec Path_eq_dec x (parents (resolve env dirpath))
                            then true else false
                | None => false
                end
             then []
             else flat_map (match_file dirpath) filenames)
          (walk_node top n)
    | None => []
    end.
Proof.
  unfold find_fastqs, os_walk. now destruct (lookup (root fs) (locate env top)).
Qed.

Lemma find_fastqs_after_new_directory env top exclude q fs :
  q <> [] -> stat fs q = None ->
  find_fastqs env top exclude (update (fun _ => Some (Dir [])) q fs)
  = find_fastqs env top exclude fs.
Proof.
  intros Hq S. apply stat_none_lookup in S. rewrite !find_fastqs_emit.
  rewrite root_update by exact Hq.
  refine (proj1 (@alter_mkdir_emit _ _ _ q (root fs) S) (locate env top) top).
  - intros dp dn dn' fns. reflexivity.
  - intros dp dn. simpl. now destruct (match option_map (resolve env) exclude with
                                       | Some x => _ | None => _ end).
Qed.

Lemma find_fastqs_after_makedirs env top exclude todo : forall done fs fs' r,
  makedirs done todo fs = (r, fs') ->
  find_fastqs env top exclude fs' = find_fastqs env top exclude fs.
Proof.
  induction todo as [|c todo IH]; intros done fs fs' r H; simpl in H.
  - now inversion H.
  - destruct (stat fs (done ++ [c])) as [[d|]|] eqn:S.
    + now inversion H.
    + eapply IH; exact H.
    + rewrite (IH _ _ _ _ H). apply find_fastqs_after_new_directory; [|exact S].
      destruct done; discriminate.
Qed.

(** X15: making a directory, as [main] makes the output directory before
    it scans, does not change what the Scanner emits: the scan after
    [mkdir(parents=True, exist_ok=True)] of any path, whether it returned
    or raised, yields the same entries in the same order as a scan
    before it. *)
Theorem X15_scan_is_the_same_after_mkdir env top exclude p fs :
  find_fastqs env top exclude (snd (Path_mkdir env p fs))
  = find_fastqs env top exclude fs.
Proof.
  destruct (Path_mkdir env p fs) as [r fs'] eqn:H. cbn [snd].
  unfold Path_mkdir in H. eapply find_fastqs_after_makedirs; exact H.
Qed.

(** ** The run, in terms of the initial tree *)

Lemma main_groups env outdir fs :
  collect (find_fastqs env (mkPath false []) (Some outdir) (snd (Path_mkdir env outdir fs)))
  = collect (find_fastqs env (mkPath false []) (Some outdir) fs).
Proof.
  f_equal. destruct (Path_mkdir env outdir fs) as [r fs'] eqn:H. cbn [snd].
  unfold Path_mkdir in H. eapply find_fastqs_after_makedirs; exact H.
Qed.

(** X11: [main] loses no data, whatever its outcome.  On a well-formed
    tree, take the groups of a scan of the initial tree (they are the
    groups that [main] consolidates).  Every entry of a group is a
    regular file; and when [main] ends, with an exit code or with an
    exception, each group is in one of three states: every source still
    holds what it held; or the destination of the group holds the
    contents of all its sources in the stable order of their lanes; or
    (one entry, the destination an existing directory) the file lies in
    that directory under its own name. *)
Theorem X11_main_loses_no_data env opt_outdir environ_OUTDIR fs arg expanded :
  well_formed (Dir fs) = true ->
  parse_args opt_outdir environ_OUTDIR = Some arg -> arg <> [] ->
  expanduser env (Path_of arg) = inr expanded ->
  let outdir := resolve env expanded in
  let groups := collect (find_fastqs env (mkPath false []) (Some outdir) fs) in
  let out := main env opt_outdir environ_OUTDIR fs in
  forall k es,
    In (k, es) groups ->
    (forall e, In e es -> exists d, stat fs (locate env (path e)) = Some (KFile d)) /\
    ((forall e, In e es ->
                stat (on_disk out) (locate env (path e)) = stat fs (locate env (path e))) \/
     stat (on_disk out) (locate env (dest_path outdir k))
     = Some (KFile (flat_map (fun e => content fs (locate env (path e)))
                             (sorted_by_lane es))) \/
     exists e, es = [e] /\
               stat (on_disk out) (locate env (dest_path outdir k)) = Some KDir /\
               stat (on_disk out) (moved_into env (dest_path outdir k) e)
               = Some (KFile (content fs (locate env (path e))))).
Proof.
  intros W Ha Hne He outdir groups out.
  pose proof (proj2 (proj2 (@main_consolidates env opt_outdir environ_OUTDIR fs arg expanded
                              W Ha Hne He))) as H.
  cbv zeta in H. rewrite main_groups in H. exact H.
Qed.

Lemma X11_main_loses_no_data_witness :
  exists d, stat ex_disk (locate ex_env (path ex_A1)) = Some (KFile d).
Proof.
  assert (W : well_formed (Dir ex_disk) = true) by (vm_compute; reflexivity).
  assert (Ha : parse_args (Some (s "out")) None = Some (s "out")) by reflexivity.
  assert (Hn : s "out" <> []) by (vm_compute; discriminate).
  assert (He : expanduser ex_env (Path_of (s "out")) = inr (mkPath false [s "out"]))
    by (vm_compute; reflexivity).
  refine (proj1 (@X11_main_loses_no_data ex_env (Some (s "out")) None ex_disk (s "out")
                   (mkPath false [s "out"]) W Ha Hn He ex_key_A [ex_A2; ex_A1] _)
                ex_A1 _).
  - vm_compute. left. reflexivity.
  - right. now left.
Defined.

(** X12: when [main] returns 0 on a well-formed tree, a scan of the
    initial tree finds at least one group, every scanned file is gone
    from where it was, and every group is consolidated: its destination
    holds the contents of its sources in the stable order of their lanes,
    or (one entry, the destination an existing directory) its file lies
    in that directory under its own name. *)
Theorem X12_main_exit_code_0 env opt_outdir environ_OUTDIR fs arg expanded :
  well_formed (Dir fs) = true ->
  parse_args opt_outdir environ_OUTDIR = Some arg -> arg <> [] ->
  expanduser env (Path_of arg) = inr expanded ->
  let outdir := resolve env expanded in
  let groups := collect (find_fastqs env (mkPath false []) (Some outdir) fs) in
  let out := main env opt_outdir environ_OUTDIR fs in
  status out = inr 0%Z ->
  groups <> [] /\
  forall k es,
    In (k, es) groups ->
    es <> [] /\
    (forall e, In e es -> stat (on_disk out) (locate env (path e)) = None) /\
    (stat (on_disk out) (locate env (dest_path outdir k))
     = Some (KFile (flat_map (fun e => content fs (locate env (path e)))
                             (sorted_by_lane es))) \/
     exists e, es = [e] /\
               stat (on_disk out) (locate env (dest_path outdir k)) = Some KDir /\
               stat (on_disk out) (moved_into env (dest_path outdir k) e)
               = Some (KFile (content fs (locate env (path e))))).
Proof.
  intros W Ha Hne He outdir groups out H0.
  pose proof (@main_consolidates env opt_outdir environ_OUTDIR fs arg expanded W Ha Hne He)
    as H.
  cbv zeta in H. rewrite main_groups in H. fold outdir groups out in H.
  destruct H as (_ & Gone & State).
  destruct (Gone H0) as (Hg & Hgone). split; [exact Hg|]. intros k es Hin.
  pose proof (@groups_not_empty _ k es Hin) as Hes.
  split; [exact Hes|]. split; [intros e; now apply (Hgone k es)|].
  destruct (State k es Hin) as (Hfiles & [Same | Done]); [|exact Done].
  destruct es as [|e es]; [congruence|]. exfalso.
  destruct (Hfiles e (or_introl eq_refl)) as (d & Sd).
  pose proof (Same e (or_introl eq_refl)) as E.
  rewrite (Hgone k (e :: es) e Hin (or_introl eq_refl)), Sd in E. discriminate.
Qed.

Lemma X12_main_exit_code_0_witness :
  stat (on_disk (main ex_env (Some (s "out")) None ex_disk)) (locate ex_env (path ex_A1))
  = None.
Proof.
  assert (W : well_formed (Dir ex_disk) = true) by (vm_compute; reflexivity).
  assert (Ha : parse_args (Some (s "out")) None = Some (s "out")) by reflexivity.
  assert (Hn : s "out" <> []) by (vm_compute; discriminate).
  assert (He : expanduser ex_env (Path_of (s "out")) = inr (mkPath false [s "out"]))
    by (vm_compute; reflexivity).
  assert (H0 : status (main ex_env (Some (s "out")) None ex_disk) = inr 0%Z)
    by (vm_compute; reflexivity).
  refine (proj1 (proj2 (proj2 (@X12_main_exit_code_0 ex_env (Some (s "out")) None ex_disk
                                 (s "out") (mkPath false [s "out"]) W Ha Hn He H0)
                         ex_key_A [ex_A2; ex_A1] _)) ex_A1 _).
  - vm_compute. left. reflexivity.
  - right. now left.
Defined.

(** X14: [main] raises nothing on a well-formed tree when no regular
    file lies on the way to the output directory and, for every group of
    a scan of the tree, no regular file lies on the way to the directory
    of its destination and its destination neither is a directory nor
    lies on the way to the output directory: [main] then returns 1 when
    nothing was matched and 0 otherwise. *)
Theorem X14_main_returns env opt_outdir environ_OUTDIR fs arg expanded :
  well_formed (Dir fs) = true ->
  parse_args opt_outdir environ_OUTDIR = Some arg -> arg <> [] ->
  expanduser env (Path_of arg) = inr expanded ->
  let outdir := resolve env expanded in
  let groups := collect (find_fastqs env (mkPath false []) (Some outdir) fs) in
  (forall q r d, locate env outdir = q ++ r -> stat fs q <> Some (KFile d)) ->
  (forall k es,
      In (k, es) groups ->
      (forall q r d, removelast (locate env (dest_path outdir k)) = q ++ r ->
                     stat fs q <> Some (KFile d)) /\
      stat fs (locate env (dest_path outdir k)) <> Some KDir /\
      (forall r, locate env outdir <> locate env (dest_path outdir k) ++ r)) ->
  status (main env opt_outdir environ_OUTDIR fs)
  = inr (match groups with [] => 1 | _ :: _ => 0 end)%Z.
Proof.
  intros W Ha Hne He outdir groups Hout Hfree.
  rewrite (@main_with_outdir env opt_outdir environ_OUTDIR fs arg expanded Ha Hne He).
  fold outdir. cbv zeta.
  pose proof (main_groups env outdir fs) as Eg. fold groups in Eg.
  destruct (proj2 (Path_mkdir_returns_iff env outdir fs) Hout) as (fs1 & HM).
  rewrite HM in Eg |- *. cbn [snd] in Eg. rewrite Eg.
  pose proof (@Path_mkdir_well_formed env outdir fs fs1 _ W HM) as W1.
  pose proof (Path_mkdir_grows _ _ _ HM) as GA.
  destruct (Path_mkdir_spec _ _ _ HM) as (So & _ & FA & _).
  destruct (@scan_groups env (mkPath false []) (Some outdir) outdir fs1 W1)
    as (Nk & Ns & Hk & Hsrc).
  cbv zeta in Nk, Ns, Hk, Hsrc. rewrite Eg in Nk, Ns, Hk, Hsrc.
  destruct (@consolidate_all_returns env outdir groups fs1 Nk Ns Hk) as (fs2 & H2);
    [| exact So | |].
  - intros k es e Hin He'. destruct (Hsrc k es e Hin He') as (Sc & Ho & Sd).
    split; [exact Sc|]. split; [now apply Ho | exact Sd].
  - intros k es Hin. destruct (Hfree k es Hin) as (F1 & D1 & O1). split.
    + intros q r d E S. apply (F1 q r d E). now apply FA.
    + intros S. destruct (GA (locate env (dest_path outdir k))) as [E | (_ & _ & r & E)].
      * congruence.
      * now apply (O1 r).
  - rewrite H2. now destruct groups.
Qed.

Lemma X14_main_returns_witness :
  status (main ex_env (Some (s "out")) None ex_disk_out) = inr 0%Z.
Proof.
  assert (W : well_formed (Dir ex_disk_out) = true) by (vm_compute; reflexivity).
  assert (Ha : parse_args (Some (s "out")) None = Some (s "out")) by reflexivity.
  assert (Hn : s "out" <> []) by (vm_compute; discriminate).
  assert (He : expanduser ex_env (Path_of (s "out")) = inr (mkPath false [s "out"]))
    by (vm_compute; reflexivity).
  refine (eq_trans (@X14_main_returns ex_env (Some (s "out")) None ex_disk_out (s "out")
                      (mkPath false [s "out"]) W Ha Hn He _ _) _).
  - intros q r d E. vm_compute in E.
    destruct q as [|a [|b [|x q]]]; simpl in E; inversion E; subst;
      vm_compute; discriminate.
  - intros k es Hin. vm_compute in Hin. destruct Hin as [E | []].
    inversion E; subst k es. clear E. split; [|split].
    + intros q r d E. vm_compute in E.
      destruct q as [|a [|b [|c [|x q]]]]; simpl in E; inversion E; subst;
        vm_compute; discriminate.
    + vm_compute. discriminate.
    + intros r E. vm_compute in E. discriminate.
  - vm_compute. reflexivity.
Defined.

(** ** The operations keep the tree well formed *)

Lemma well_formed_update f p fs :
  (forall o, (forall n, o = Some n -> well_formed n = true) ->
             forall n, f o = Some n -> well_formed n = true) ->
  well_formed (Dir fs) = true -> Forall plain_name p ->
  well_formed (Dir (update f p fs)) = true.
Proof.
  intros Hf W Pp. unfold update.
  destruct (alter f p (root fs)) as [[d | es]|] eqn:E; try exact W.
  apply (@well_formed_alter f p Hf Pp (root fs)) with (n := Dir es); [|exact E].
  intros n H. inversion H. exact W.
Qed.

Lemma os_unlink_well_formed p fs fs' r :
  os_unlink p fs = (r, fs') -> well_formed (Dir fs) = true -> Forall plain_name p ->
  well_formed (Dir fs') = true.
Proof.
  unfold os_unlink. intros H W Pp.
  destruct (stat fs p) as [[d|]|]; inversion H; subst; try exact W.
  apply well_formed_update; try assumption. intros o _ n E. discriminate.
Qed.

Lemma open_wb_well_formed p fs fs' r :
  open_wb p fs = (r, fs') -> well_formed (Dir fs) = true -> Forall plain_name p ->
  well_formed (Dir fs') = true.
Proof.
  unfold open_wb. intros H W Pp.
  assert (G : well_formed (Dir (update (fun _ => Some (File [])) p fs)) = true).
  { apply well_formed_update; try assumption. intros o _ n E. now inversion E. }
  destruct (stat fs p) as [[d|]|]; [| |destruct (stat fs (removelast p)) as [[d|]|]];
    inversion H; subst; assumption.
Qed.

Lemma write_handle_well_formed p d fs fs' r :
  write_handle p d fs = (r, fs') -> well_formed (Dir fs) = true -> Forall plain_name p ->
  well_formed (Dir fs') = true.
Proof.
  unfold write_handle. intros H W Pp. inversion H; subst.
  apply well_formed_update; try assumption.
  intros [[d0 | es]|] Ho n E; inversion E; subst; [reflexivity | now apply Ho].
Qed.

Lemma os_rename_well_formed sl dl fs fs' r :
  os_rename sl dl fs = (r, fs') -> well_formed (Dir fs) = true ->
  Forall plain_name sl -> Forall plain_name dl ->
  well_formed (Dir fs') = true.
Proof.
  unfold os_rename. intros H W Ps Pd.
  destruct (lookup (root fs) sl) as [n|] eqn:L; [|now inversion H; subst].
  assert (Wn : well_formed n = true) by (eapply well_formed_lookup; [exact W | exact L]).
  assert (G : well_formed (Dir (update (fun _ => Some n) dl
                                       (update (fun _ => None) sl fs))) = true).
  { apply well_formed_update; try assumption.
    - intros o _ n' E. now inversion E; subst.
    - apply well_formed_update; try assumption. intros o _ n' E. discriminate. }
  destruct (list_eq_dec str_eq_dec sl dl); [now inversion H; subst|].
  destruct n as [d | es].
  - destruct (stat fs dl) as [[d'|]|]; try (now inversion H; subst);
      destruct (stat fs (removelast dl)) as [[d''|]|]; inversion H; subst; assumption.
  - destruct (stat fs dl) as [k|]; [now inversion H; subst|].
    destruct (is_prefix sl dl); [now inversion H; subst|].
    destruct (stat fs (removelast dl)) as [[d''|]|]; inversion H; subst; assumption.
Qed.

Lemma shutil_move_well_formed env src dst fs fs' r :
  shutil_move env src dst fs = (r, fs') -> well_formed (Dir fs) = true ->
  well_formed (Dir fs') = true.
Proof.
  unfold shutil_move. intros H W.
  destruct (stat fs (locate env dst)) as [[d|]|].
  - eapply os_rename_well_formed; eauto using locate_plain.
  - destruct (list_eq_dec str_eq_dec (locate env src) (locate env dst));
      [now inversion H; subst|].
    destruct (stat fs (locate env (joinpath dst (last (parts src) (s "."))))).
    + now inversion H; subst.
    + eapply os_rename_well_formed; eauto using locate_plain.
  - eapply os_rename_well_formed; eauto using locate_plain.
Qed.

Lemma for_each_well_formed {A} (body : A -> M unit) l :
  (forall x fs fs' r, In x l -> body x fs = (r, fs') -> well_formed (Dir fs) = true ->
                      well_formed (Dir fs') = true) ->
  forall fs fs' r, for_each body l fs = (r, fs') -> well_formed (Dir fs) = true ->
                   well_formed (Dir fs') = true.
Proof.
  induction l as [|x l IH]; intros Hb fs fs' r H W; simpl in H.
  - now inversion H; subst.
  - apply bind_cases in H. destruct H as [(ex & H & _) | ([] & fs1 & H1 & H)].
    + eapply Hb; [now left | exact H | exact W].
    + eapply IH; [| exact H |].
      * intros y ? ? ? Hy. apply Hb. now right.
      * eapply Hb; [now left | exact H1 | exact W].
Qed.

Lemma concatenate_well_formed env files dest fs fs' r :
  concatenate env files dest fs = (r, fs') -> well_formed (Dir fs) = true ->
  well_formed (Dir fs') = true.
Proof.
  unfold concatenate. intros H W.
  apply bind_cases in H. destruct H as [(ex & H & _) | ([] & fsA & HA & H)].
  { eapply Path_mkdir_well_formed; eauto. }
  pose proof (@Path_mkdir_well_formed env _ fs fsA _ W HA) as WA.
  apply bind_cases in H. destruct H as [(ex & H & _) | ([] & fsB & HB & H)].
  { eapply open_wb_well_formed; eauto using locate_plain. }
  pose proof (@open_wb_well_formed _ fsA fsB _ HB WA (locate_plain env dest)) as WB.
  eapply for_each_well_formed; [| exact H | exact WB].
  intros x fs0 fs0' r0 _ H0 W0.
  apply bind_cases in H0. destruct H0 as [(ex & H0 & _) | (d & fs1 & H1 & H0)].
  - apply read_rb_same in H0. now subst.
  - apply read_rb_same in H1. subst fs1.
    eapply write_handle_well_formed; eauto using locate_plain.
Qed.

Lemma relocate_well_formed env entries dest fs fs' r :
  relocate env entries dest fs = (r, fs') -> well_formed (Dir fs) = true ->
  well_formed (Dir fs') = true.
Proof.
  intros H W. destruct (Nat.eq_dec (length entries) 1) as [L1 | L1].
  - destruct entries as [|e [|? ?]]; try discriminate. unfold relocate in H.
    apply bind_cases in H. destruct H as [(ex & H & _) | ([] & fsA & HA & H)].
    + exact (@Path_mkdir_well_formed env _ fs fs' _ W H).
    + eapply shutil_move_well_formed; [exact H|].
      exact (@Path_mkdir_well_formed env _ fs fsA _ W HA).
  - rewrite relocate_multi_eq in H by assumption.
    apply bind_cases in H. destruct H as [(ex & H & _) | ([] & fsA & HA & H)].
    { exact (@Path_mkdir_well_formed env _ fs fs' _ W H). }
    pose proof (@Path_mkdir_well_formed env _ fs fsA _ W HA) as WA.
    apply bind_cases in H. destruct H as [(ex & H & _) | ([] & fsB & HB & H)].
    { exact (@concatenate_well_formed env entries dest fsA fs' _ H WA). }
    pose proof (@concatenate_well_formed env entries dest fsA fsB _ HB WA) as WB.
    eapply for_each_well_formed; [| exact H | exact WB].
    intros x fs0 fs0' r0 _ H0 W0.
    exact (@os_unlink_well_formed _ fs0 fs0' r0 H0 W0 (locate_plain env (path x))).
Qed.

(** ** A second run *)

Lemma find_fastqs_complete env top exclude fs rel f m d :
  well_formed (Dir fs) = true ->
  stat fs (locate env top ++ rel ++ [f]) = Some (KFile d) ->
  FASTQ_RE f = Some m ->
  (forall x, exclude = Some x ->
             ~ strictly_above (locate env x) (locate env top ++ rel)) ->
  exists e, In (key_of m, e) (find_fastqs env top exclude fs) /\
            locate env (path e) = locate env top ++ rel ++ [f].
Proof.
  intros W S Hm Hx.
  apply stat_file_lookup in S. rewrite app_assoc, lookup_app in S.
  destruct (lookup (root fs) (locate env top ++ rel)) as [[d'|es]|] eqn:Le;
    simpl in S; try discriminate.
  destruct (find_entry f es) as [nf|] eqn:F; simpl in S; [|discriminate].
  inversion S; subst nf. apply find_entry_some in F.
  rewrite lookup_app in Le.
  destruct (lookup (root fs) (locate env top)) as [n|] eqn:L;
    [|now rewrite lookup_none in Le].
  assert (Wn : well_formed n = true) by (eapply well_formed_lookup; [exact W | exact L]).
  apply (dirs_of_lookup _ rel es Wn) in Le.
  assert (Hf : In f (filenames es)) by (apply in_filenames; eauto).
  destruct (@emitted_file env top fs n rel es f W L Le Hf) as (_ & Prel & El & _).
  exists (mkEntry (joinpath (fold_left joinpath rel top) f)
                  (int_of_digits (group "lane" m))).
  split; [|exact El].
  apply find_fastqs_in. exists n, rel, es, f, m. repeat split; try assumption.
  intros x Ex Hin. apply (Hx x Ex). apply in_parents_resolve in Hin.
  now rewrite locate_fold_joinpath in Hin.
Qed.

Lemma dest_below_outdir env outdir k :
  key_ok k -> fst (fst k) <> s ".." ->
  strictly_above (locate env outdir) (locate env (dest_path outdir k)).
Proof.
  destruct k as [[sample read] ext]. intros (Hs & _) Hdd. cbn [fst] in Hdd.
  destruct (locate_dest env outdir (sample, read, ext)) as (pl & Ed & Ep).
  assert (E : pl = locate env (joinpath outdir sample)).
  { rewrite <- Ep. unfold dest_path. now rewrite parent_joinpath by apply dest_name_plain. }
  rewrite Ed, E. destruct (str_eq_dec sample (s ".")) as [-> | Hdot].
  - exists [dest_name (s ".", read, ext)]. split; [discriminate|]. reflexivity.
  - exists [sample; dest_name (sample, read, ext)]. split; [discriminate|].
    rewrite locate_joinpath by (repeat split; assumption). now rewrite <- app_assoc.
Qed.

Lemma main_exit_0_run env opt_outdir environ_OUTDIR fs arg expanded :
  parse_args opt_outdir environ_OUTDIR = Some arg -> arg <> [] ->
  expanduser env (Path_of arg) = inr expanded ->
  status (main env opt_outdir environ_OUTDIR fs) = inr 0%Z ->
  let outdir := resolve env expanded in
  exists fs1 fs2,
    Path_mkdir env outdir fs = (inr tt, fs1) /\
    for_each (fun g => relocate env (snd g) (dest_path outdir (fst g)))
             (collect (find_fastqs env (mkPath false []) (Some outdir) fs1)) fs1
    = (inr tt, fs2) /\
    on_disk (main env opt_outdir environ_OUTDIR fs) = fs2.
Proof.
  intros Ha Hne He H0 outdir.
  rewrite (@main_with_outdir env opt_outdir environ_OUTDIR fs arg expanded Ha Hne He) in *.
  fold outdir in H0 |- *. cbv zeta in H0 |- *.
  destruct (Path_mkdir env outdir fs) as [[ex | []] fs1]; [discriminate|].
  exists fs1.
  destruct (collect (find_fastqs env (mkPath false []) (Some outdir) fs1)) as [|g gs];
    [discriminate|].
  destruct (for_each (fun g => relocate env (snd g) (dest_path outdir (fst g)))
                     (g :: gs) fs1) as [[ex | []] fs2]; [discriminate|].
  exists fs2. auto.
Qed.

(** X16: a second run finds nothing to do.  When [main] has returned 0
    on a well-formed tree where no sample is named [..] (the destination
    of such a sample lies beside the output directory, not in it),
    running [main] again with the same arguments on the tree it left
    matches no file: it prints the diagnostic, returns 1 and leaves the
    tree as it is. *)
Theorem X16_second_run_finds_nothing env opt_outdir environ_OUTDIR fs arg expanded :
  well_formed (Dir fs) = true ->
  parse_args opt_outdir environ_OUTDIR = Some arg -> arg <> [] ->
  expanduser env (Path_of arg) = inr expanded ->
  let outdir := resolve env expanded in
  let out := main env opt_outdir environ_OUTDIR fs in
  status out = inr 0%Z ->
  (forall k es, In (k, es) (collect (find_fastqs env (mkPath false []) (Some outdir) fs)) ->
                fst (fst k) <> s "..") ->
  main env opt_outdir environ_OUTDIR (on_disk out)
  = mkOutcome (inr 1%Z) (on_disk out) [msg_no_match].
Proof.
  intros W Ha Hne He outdir out H0 Hdd.
  destruct (@main_exit_0_run env opt_outdir environ_OUTDIR fs arg expanded Ha Hne He H0)
    as (fs1 & fs2 & HM & HL & Eo).
  fold outdir in HM, HL. fold out in Eo. rewrite Eo. clear Eo.
  pose proof (main_groups env outdir fs) as Eg. rewrite HM in Eg. cbn [snd] in Eg.
  rewrite <- Eg in Hdd.
  pose proof (@Path_mkdir_well_formed env outdir fs fs1 _ W HM) as W1.
  pose proof (proj1 (@Path_mkdir_spec env outdir fs fs1 HM)) as So.
  destruct (@scan_groups env (mkPath false []) (Some outdir) outdir fs1 W1)
    as (Nk & Ns & Hk & Hsrc).
  cbv zeta in Nk, Ns, Hk, Hsrc.
  pose proof (collect_spec (find_fastqs env (mkPath false []) (Some outdir) fs1))
    as (_ & Hc).
  set (groups := collect (find_fastqs env (mkPath false []) (Some outdir) fs1)) in *.
  assert (W2 : well_formed (Dir fs2) = true).
  { eapply for_each_well_formed; [| exact HL | exact W1].
    intros g fsa fsb r _ H Wa.
    exact (@relocate_well_formed env _ _ fsa fsb r H Wa). }
  destruct (@consolidate_all env outdir groups fs1 fs2 (inr tt) Nk Ns Hk) as (A & B & C & _);
    [| exact HL |].
  { intros k es e Hin He'. destruct (Hsrc k es e Hin He') as (Sc & Ho & Sd).
    split; [exact Sc|]. split; [now apply Ho | exact Sd]. }
  assert (So2 : stat fs2 (locate env outdir) = Some KDir) by (apply (B _ _ So); now left).
  assert (HM2 : Path_mkdir env outdir fs2 = (inr tt, fs2))
    by (unfold Path_mkdir; apply makedirs_existing; exact So2).
  rewrite (@main_with_outdir env opt_outdir environ_OUTDIR fs2 arg expanded Ha Hne He).
  fold outdir. cbv zeta. rewrite HM2.
  assert (Hnone : find_fastqs env (mkPath false []) (Some outdir) fs2 = []);
    [|now rewrite Hnone].
  destruct (find_fastqs env (mkPath false []) (Some outdir) fs2) as [|em l] eqn:E2;
    [reflexivity|]. exfalso.
  assert (Hin : In em (find_fastqs env (mkPath false []) (Some outdir) fs2))
    by (rewrite E2; now left).
  apply find_fastqs_in in Hin.
  destruct Hin as (n & rel & es' & f & m & L & Hd & Hx & Hf & Hm & _).
  destruct (@emitted_file env (mkPath false []) fs2 n rel es' f W2 L Hd Hf)
    as (_ & Prel & _ & _ & d & S2).
  assert (Hx' : ~ strictly_above (locate env outdir) (locate env (mkPath false []) ++ rel)).
  { intros Ha'. apply (Hx outdir eq_refl). apply in_parents_resolve.
    now rewrite locate_fold_joinpath. }
  set (q := locate env (mkPath false []) ++ rel ++ [f]) in *.
  (* [q] is no destination, no source, and no file moved into a directory *)
  assert (P1 : forall k es, In (k, es) groups -> q <> locate env (dest_path outdir k)).
  { intros k es Hin E. destruct (locate_dest env outdir k) as (pl & Ed & _).
    unfold q in E. rewrite Ed, app_assoc in E. apply app_inj_tail in E.
    destruct E as (_ & ->). rewrite (dest_name_unmatched _ (Hk k es Hin)) in Hm.
    discriminate. }
  assert (P2 : forall k es e, In (k, es) groups -> In e es ->
            locate env (path e) <> q /\
            (es = [e] -> q <> moved_into env (dest_path outdir k) e)).
  { intros k es e Hin He'. destruct (Hsrc k es e Hin He') as (Sc & _). split.
    - intros E. rewrite <- E, (C eq_refl k es e Hin He') in S2. discriminate.
    - intros _ E. destruct (scanned_name env Sc) as (X & f' & m' & _ & _ & _ & Mv).
      unfold q in E. rewrite Mv, app_assoc in E. apply app_inj_tail in E.
      destruct E as (E & _). apply Hx'. rewrite E.
      apply dest_below_outdir; [apply (Hk k es Hin) | apply (Hdd k es Hin)]. }
  destruct (A q P1 P2) as [E | (_ & E & _)]; [|congruence].
  rewrite S2 in E. symmetry in E.
  destruct (@find_fastqs_complete env (mkPath false []) (Some outdir) fs1 rel f m d W1 E Hm)
    as (e & Hem & El).
  { intros x Ex. now inversion Ex; subst. }
  assert (Hg : In (key_of m, group_of (key_of m)
                     (find_fastqs env (mkPath false []) (Some outdir) fs1)) groups).
  { apply Hc. split; [|reflexivity]. change (key_of m) with (fst (key_of m, e)).
    now apply in_map. }
  apply (proj1 (P2 _ _ e Hg (proj2 (in_group_of _ _ _) Hem))). exact El.
Qed.

Lemma X16_second_run_finds_nothing_witness :
  let fs2 := on_disk (main ex_env (Some (s "out")) None ex_disk) in
  main ex_env (Some (s "out")) None fs2 = mkOutcome (inr 1%Z) fs2 [msg_no_match].
Proof.
  assert (W : well_formed (Dir ex_disk) = true) by (vm_compute; reflexivity).
  assert (Ha : parse_args (Some (s "out")) None = Some (s "out")) by reflexivity.
  assert (Hn : s "out" <> []) by (vm_compute; discriminate).
  assert (He : expanduser ex_env (Path_of (s "out")) = inr (mkPath false [s "out"]))
    by (vm_compute; reflexivity).
  apply (@X16_second_run_finds_nothing ex_env (Some (s "out")) None ex_disk (s "out")
           (mkPath false [s "out"]) W Ha Hn He).
  - vm_compute. reflexivity.
  - intros k es Hin. vm_compute in Hin.
    destruct Hin as [E | [E | [E | []]]]; inversion E; subst; vm_compute; discriminate.
Defined.

(** ** Destinations and their directories *)

(** Where nothing stands in the way, [relocate] returns, and the
    directories down to the parent of the destination exist afterwards:
    those that were missing have been made. *)
Lemma relocate_makes_directories env es dest fs :
  let dl := locate env dest in
  dl <> [] ->
  locate env (parent dest) = removelast dl ->
  (forall e, In e es ->
             locate env (path e) <> dl /\
             exists d, stat fs (locate env (path e)) = Some (KFile d)) ->
  NoDup (map (fun e => locate env (path e)) es) ->
  (forall q r d, removelast dl = q ++ r -> stat fs q <> Some (KFile d)) ->
  stat fs dl <> Some KDir ->
  exists fs',
    relocate env es dest fs = (inr tt, fs') /\
    (forall q r, removelast dl = q ++ r -> stat fs' q = Some KDir) /\
    stat fs' dl
    = Some (KFile (flat_map (fun e => content fs (locate env (path e)))
                            (sorted_by_lane es))).
Proof.
  intros dl Hd Hp Hsrc Nd Hway Hk.
  destruct (proj2 (@relocate_returns env es dest fs Hd Hp Hsrc)) as (fs' & H).
  { split; [exact Hway|]. split; [exact Nd|]. intros S. now elim Hk. }
  exists fs'. split; [exact H|].
  destruct (@relocate_cases env es dest fs fs' (inr tt) Hd Hp Hsrc H)
    as (_ & [(ex & E & _) | [Cat | (e & _ & _ & S & _)]]);
    [discriminate | | now elim Hk].
  split; [|exact Cat]. intros q r E.
  assert (E' : dl = q ++ (r ++ [last dl []])).
  { rewrite app_assoc, <- E. now apply app_removelast_last. }
  fold dl in Cat. rewrite E' in Cat. apply stat_prefix_dir in Cat; [exact Cat|].
  destruct r; discriminate.
Qed.

(** C6: the groups are a function of the emitted triples alone: every
    matched entry lies in the group of its (sample, read, extension),
    a group holds only entries of its triple, there is one group per
    triple, and two matched entries have the same destination exactly
    when their triples are equal, wherever the files were found. The
    destination of a group is [outdir / sample / (sample_R<read><ext>)],
    which for an ordinary sample name is the file of that name in the
    directory [sample] of the output directory. Consolidation first
    makes the missing directories down to the parent of the destination:
    for distinct regular files as sources, when no regular file lies on
    the way to that parent and the destination is not a directory, the
    consolidation of a group returns, every directory down to the parent
    then exists, and the destination holds the contents of the group. *)
Theorem C6_groups_and_destinations env top exclude fs0 outdir :
  let ems := find_fastqs env top exclude fs0 in
  let groups := collect ems in
  (forall k e, In (k, e) ems -> exists es, In (k, es) groups /\ In e es) /\
  (forall k es e, In (k, es) groups -> In e es -> In (k, e) ems) /\
  NoDup (map fst groups) /\
  (forall k1 e1 k2 e2, In (k1, e1) ems -> In (k2, e2) ems ->
     (locate env (dest_path outdir k1) = locate env (dest_path outdir k2)
      <-> k1 = k2)) /\
  (forall sample read ext,
     dest_path outdir (sample, read, ext)
     = joinpath (joinpath outdir sample) (sample ++ s "_R" ++ read ++ ext)) /\
  (forall sample read ext,
     plain_name sample ->
     locate env (dest_path outdir (sample, read, ext))
     = locate env outdir ++ [sample; sample ++ s "_R" ++ read ++ ext]) /\
  (forall k es fs fs',
     In (k, es) groups ->
     relocate env es (dest_path outdir k) fs = (inr tt, fs') ->
     exists fs1, Path_mkdir env (parent (dest_path outdir k)) fs = (inr tt, fs1) /\
                 stat fs1 (locate env (parent (dest_path outdir k))) = Some KDir) /\
  (forall k es fs,
     In (k, es) groups ->
     NoDup (map (fun e => locate env (path e)) es) ->
     (forall e, In e es -> exists d, stat fs (locate env (path e)) = Some (KFile d)) ->
     (forall q r d, removelast (locate env (dest_path outdir k)) = q ++ r ->
                    stat fs q <> Some (KFile d)) ->
     stat fs (locate env (dest_path outdir k)) <> Some KDir ->
     exists fs',
       relocate env es (dest_path outdir k) fs = (inr tt, fs') /\
       (forall q r, removelast (locate env (dest_path outdir k)) = q ++ r ->
                    stat fs' q = Some KDir) /\
       stat fs' (locate env (dest_path outdir k))
       = Some (KFile (flat_map (fun e => content fs (locate env (path e)))
                               (sorted_by_lane es)))).
Proof.
  intros ems groups. destruct (collect_spec ems) as (Hnd & Hc).
  split; [|split; [|split; [exact Hnd | split; [|split; [|split; [|split]]]]]].
  - intros k e H. exists (group_of k ems). split; [|now apply in_group_of].
    apply Hc. split; [|reflexivity]. change k with (fst (k, e)). now apply in_map.
  - intros k es e H He. apply Hc in H. destruct H as (_ & ->).
    now apply in_group_of.
  - intros k1 e1 k2 e2 H1 H2. split; [|now intros ->].
    apply locate_dest_inj; eapply scanned_key_ok, find_fastqs_scanned; eauto.
  - reflexivity.
  - intros sa rd x Hsa. unfold dest_path.
    rewrite locate_joinpath by apply dest_name_plain.
    rewrite locate_joinpath by assumption.
    now rewrite <- app_assoc.
  - intros k es fs fs' _ H. eapply relocate_makes_parent; eauto.
  - intros k es fs Hin Nd Hfiles Hway Hk.
    destruct (@group_sources env top exclude fs0 outdir k es Hin) as (_ & _ & Hsrc).
    apply relocate_makes_directories; try assumption.
    + apply locate_dest_not_root.
    + apply locate_dest_parent.
    + intros e He. split; [apply (Hsrc e He) | now apply Hfiles].
Qed.

(** The group of sample [C] on the example tree: the directory [/w/out/C]
    is missing, the consolidation returns, and then the directory exists
    and holds the file. *)
Lemma C6_groups_and_destinations_witness :
  stat ex_disk [s "w"; s "out"; s "C"] = None /\
  exists fs',
    relocate ex_env [ex_C] (dest_path ex_outdir ex_key_C) ex_disk = (inr tt, fs') /\
    stat fs' [s "w"; s "out"; s "C"] = Some KDir /\
    stat fs' [s "w"; s "out"; s "C"; s "C_R1.fq"] = Some (KFile (bytes "sea")).
Proof.
  split; [vm_compute; reflexivity|].
  destruct (proj2 (proj2 (proj2 (proj2 (proj2 (proj2 (proj2
             (C6_groups_and_destinations ex_env (mkPath false []) (Some ex_outdir)
                                         ex_disk ex_outdir)))))))
             ex_key_C [ex_C] ex_disk) as (fs' & H & Hdirs & Hdest).
  - vm_compute. right. right. left. reflexivity.
  - vm_compute. repeat constructor. intros [].
  - intros e [<- | []]. eexists. vm_compute. reflexivity.
  - intros q r d E. vm_compute in E.
    destruct q as [|a [|b [|c [|x q]]]]; simpl in E; inversion E; subst;
      vm_compute; discriminate.
  - vm_compute. discriminate.
  - exists fs'. split; [exact H|]. split.
    + apply (Hdirs [s "w"; s "out"; s "C"] []). vm_compute. reflexivity.
    + assert (El : locate ex_env (dest_path ex_outdir ex_key_C)
                   = [s "w"; s "out"; s "C"; s "C_R1.fq"])
        by (vm_compute; reflexivity).
      rewrite El in Hdest. rewrite Hdest. vm_compute. reflexivity.
Defined.

(** * The Matcher on Unicode text *)

Section UnicodeMatcher.
Import Uni.

(** The decimal digits of the interpreter's Unicode database; on ASCII
    they are [0-9] in every version of it. *)
Variable is_decimal : char -> bool.
Hypothesis decimal_ascii :
  forall x, (x < 128)%N -> is_decimal x = true -> (48 <= x <= 57)%N.

Lemma last_separator_uni (P : char -> Prop) :
  forall (v v' : ustr) a a' w w',
    Forall P w -> Forall P w' -> ~ P a -> ~ P a' ->
    v ++ a :: w = v' ++ a' :: w' ->
    v = v' /\ a = a' /\ w = w'.
Proof.
  induction v as [|x v IH]; intros v' a a' w w' Hw Hw' Ha Ha' E.
  - destruct v' as [|y v']; simpl in E.
    + now inversion E.
    + inversion E; subst. exfalso. apply Ha'.
      rewrite Forall_forall in Hw. apply Hw. apply in_or_app. right. now left.
  - destruct v' as [|y v']; simpl in E.
    + inversion E; subst. exfalso. apply Ha.
      rewrite Forall_forall in Hw'. apply Hw'. apply in_or_app. right. now left.
    + inversion E; subst.
      destruct (IH v' a a' w w' Hw Hw' Ha Ha' H1) as (-> & -> & ->). auto.
Qed.

Lemma plus_cls_spec_uni icase k t t' :
  In t' (plus_cls is_decimal icase k t) <->
  exists w, w <> [] /\ Forall (fun x => in_cls is_decimal icase k x = true) w /\
            t = w ++ t'.
Proof.
  revert t'. induction t as [|x t IH]; intros t'; simpl.
  - split; [tauto|]. intros (w & Hw & _ & E).
    destruct w; [congruence | discriminate].
  - destruct (in_cls is_decimal icase k x) eqn:Hx.
    + rewrite in_app_iff, IH. simpl. split.
      * intros [(w & Hw & Hall & ->) | [<- | []]].
        -- exists (x :: w). repeat split; [discriminate | now constructor].
        -- exists [x]. repeat split; [discriminate | now repeat constructor].
      * intros (w & Hw & Hall & E). destruct w as [|y w]; [congruence|].
        inversion E; subst. inversion Hall; subst.
        destruct w as [|z w]; [right; left; reflexivity|].
        left. exists (z :: w). repeat split; [discriminate | assumption].
    + split; [intros []|]. intros (w & Hw & Hall & E).
      destruct w as [|y w]; [congruence|]. inversion E; subst.
      inversion Hall; subst. congruence.
Qed.

Lemma run_spec_uni subject icase r :
  forall t e t' e',
    In (t', e') (run is_decimal subject icase r t e)
    <-> den is_decimal subject icase r t t' e e'.
Proof.
  induction r as [| |c|k|k|a IHa b IHb|a IHa|name a IHa]; intros t e t' e'; simpl.
  - destruct (Nat.eqb_spec (length t) (length subject)); simpl.
    + split; [intros [H|[]]; inversion H; subst; auto | intros (_ & -> & ->); auto].
    + split; [tauto | intros (? & _); contradiction].
  - destruct t as [|x [|y t]]; simpl.
    + split; [intros [H|[]]; inversion H; subst; auto | intros (_ & -> & ->); auto].
    + destruct (N.eqb_spec x LF); simpl.
      * subst. split; [intros [H|[]]; inversion H; subst; auto | intros (_ & -> & ->); auto].
      * split; [tauto | intros ([H|H] & _); [discriminate | inversion H; congruence]].
    + split; [tauto | intros ([H|H] & _); discriminate].
  - destruct t as [|x t]; simpl.
    + split; [tauto | intros (x & H & _); discriminate].
    + destruct (lit_eqb icase c x) eqn:Hx; simpl.
      * split; [intros [H|[]]; inversion H; subst; eauto
               | intros (y & H & _ & ->); inversion H; subst; auto].
      * split; [tauto | intros (y & H & Hy & _); inversion H; subst; congruence].
  - rewrite in_map_iff. split.
    + intros (t0 & H & Hin). inversion H; subst.
      apply plus_cls_spec_uni in Hin. destruct Hin as (w & ? & ? & ?). eauto.
    + intros (w & ? & ? & ? & ->). exists t'. split; [reflexivity|].
      apply plus_cls_spec_uni. eauto.
  - destruct t as [|x t]; simpl.
    + split; [tauto | intros (x & H & _); discriminate].
    + destruct (in_cls is_decimal icase k x) eqn:Hx; simpl.
      * split; [intros [H|[]]; inversion H; subst; eauto
               | intros (y & H & _ & ->); inversion H; subst; auto].
      * split; [tauto | intros (y & H & Hy & _); inversion H; subst; congruence].
  - rewrite in_flat_map. split.
    + intros ((t1, e1) & H1 & H2). apply IHa in H1. apply IHb in H2. eauto.
    + intros (t1 & e1 & H1 & H2). exists (t1, e1). split; [now apply IHa | now apply IHb].
  - rewrite in_app_iff, IHa. simpl. split.
    + intros [H | [H | []]]; [auto | inversion H; subst; auto].
    + intros [H | (-> & ->)]; auto.
  - rewrite in_map_iff. split.
    + intros ((t1, e1) & H & Hin). simpl in H. inversion H; subst.
      apply IHa in Hin. eauto.
    + intros (e1 & H & ->). exists (t', e1). split; [reflexivity | now apply IHa].
Qed.

Lemma firstn_consumed_uni (w t' : ustr) :
  firstn (length (w ++ t') - length t') (w ++ t') = w.
Proof.
  rewrite length_app, Nat.add_sub. rewrite firstn_app, Nat.sub_diag.
  simpl. rewrite app_nil_r. apply firstn_all.
Qed.

Lemma firstn_consumed1_uni (x : char) (t' : ustr) :
  firstn (length (x :: t') - length t') (x :: t') = [x].
Proof. exact (firstn_consumed_uni [x] t'). Qed.

(** ** Characters of the pattern *)

Ltac fold_cases :=
  unfold fold;
  repeat match goal with
         | |- context [(?a <=? ?b)%N] => destruct (N.leb_spec a b)
         | |- context [(?a =? ?b)%N] => destruct (N.eqb_spec a b)
         end;
  cbn [andb orb negb]; try lia.

Lemma fold_underscore x : fold x = 95%N <-> x = 95%N.
Proof. fold_cases. Qed.

Lemma fold_letter x n :
  (97 <= n <= 122)%N -> n <> 105%N -> n <> 107%N -> n <> 115%N ->
  fold x = n <-> x = n \/ x = (n - 32)%N.
Proof. intros. fold_cases. Qed.

Lemma fold_s x : fold x = 115%N <-> x = 115%N \/ x = 83%N \/ x = 383%N.
Proof. fold_cases. Qed.

Lemma fold_dot x : fold x = 46%N <-> x = 46%N.
Proof. fold_cases. Qed.

Ltac calc_chars :=
  repeat match goal with
         | |- context [fold (of_ascii ?c)] =>
             let v := eval vm_compute in (fold (of_ascii c)) in
             change (fold (of_ascii c)) with v
         | |- context [of_ascii ?c] =>
             let v := eval vm_compute in (of_ascii c) in
             change (of_ascii c) with v
         | |- context [upper ?c] =>
             let v := eval vm_compute in (upper c) in change (upper c) with v
         | |- context [lower ?c] =>
             let v := eval vm_compute in (lower c) in change (lower c) with v
         end.

(** A literal letter of the pattern matches the spellings of its lower case. *)
Lemma lit_eqb_spells c x :
  In c ["."; "f"; "a"; "s"; "t"; "q"; "g"; "z"; "L"; "R"]%char ->
  lit_eqb true c x = true <-> spells (lower c) x.
Proof.
  intros H. unfold lit_eqb, spells. rewrite N.eqb_eq.
  cbv [In] in H.
  repeat (destruct H as [<- | H]; [calc_chars|]); try contradiction.
  - rewrite fold_dot. intuition discriminate.
  - rewrite fold_letter by lia. cbn. intuition discriminate.
  - rewrite fold_letter by lia. cbn. intuition discriminate.
  - rewrite fold_s. cbn. intuition.
  - rewrite fold_letter by lia. cbn. intuition discriminate.
  - rewrite fold_letter by lia. cbn. intuition discriminate.
  - rewrite fold_letter by lia. cbn. intuition discriminate.
  - rewrite fold_letter by lia. cbn. intuition discriminate.
  - rewrite fold_letter by lia. cbn. intuition discriminate.
  - rewrite fold_letter by lia. cbn. intuition discriminate.
Qed.

Lemma lit_eqb_underscore x : lit_eqb true "_" x = true <-> x = 95%N.
Proof. unfold lit_eqb. rewrite N.eqb_eq. calc_chars. apply fold_underscore. Qed.

Lemma in_cls_any_uni x : in_cls is_decimal true Any x = true <-> x <> LF.
Proof.
  unfold in_cls. destruct (N.eqb_spec x LF); cbn; intuition congruence.
Qed.

Lemma in_cls_not_underscore_uni x :
  in_cls is_decimal true (Not "_") x = true <-> x <> 95%N.
Proof.
  unfold in_cls. rewrite negb_true_iff, <- not_true_iff_false.
  now rewrite lit_eqb_underscore.
Qed.

Lemma in_cls_read_uni x :
  in_cls is_decimal true (OneOf ["1"; "2"]%char) x = true
  <-> x = 49%N \/ x = 50%N.
Proof.
  unfold in_cls, existsb, lit_eqb. rewrite !orb_true_iff, !N.eqb_eq.
  calc_chars. fold_cases.
Qed.

Lemma spells_plain c x :
  In c (s ".fastqgzlr") -> spells c x ->
  x <> 49%N /\ x <> 50%N /\ x <> LF /\ x <> 95%N /\ (x < 128 \/ x = 383)%N /\
  ~ (48 <= x <= 57)%N.
Proof.
  intros H Hs. unfold spells, LF in *. cbv [s list_ascii_of_string In] in H.
  repeat (destruct H as [<- | H]; [revert Hs; calc_chars; intros Hs|]);
    try contradiction;
    destruct Hs as [-> | [-> | (_ & ->)]]; repeat split; lia.
Qed.

Lemma spells_not_decimal c x :
  In c (s ".fastqgzlr") -> spells c x -> c <> "s"%char -> is_decimal x <> true.
Proof.
  intros H Hs Hc Hd.
  destruct (@spells_plain c x H Hs) as (_ & _ & _ & _ & Hx & Hn).
  destruct Hx as [Hx | ->].
  - apply Hn. now apply decimal_ascii.
  - destruct Hs as [Hs | [Hs | (-> & _)]]; [| | congruence];
      cbv [s list_ascii_of_string In] in H;
      repeat (destruct H as [<- | H]; [vm_compute in Hs; try discriminate Hs|]);
      try contradiction; congruence.
Qed.

Lemma ext_letters w :
  In w [s ".fastq"; s ".fq"; s ".fastq.gz"; s ".fq.gz"] ->
  Forall (fun c => In c (s ".fastqgzlr")) w.
Proof.
  cbv [s list_ascii_of_string].
  intros [<- | [<- | [<- | [<- | []]]]];
    repeat (apply Forall_cons; [cbv [In]; tauto|]); apply Forall_nil.
Qed.

Lemma ext_ok_chars_uni x :
  ext_ok x -> Forall (fun c => c <> 49%N /\ c <> 50%N /\ c <> LF) x.
Proof.
  intros (w & Hw & F). apply ext_letters in Hw.
  induction F as [|c y w x Hcy F IH]; constructor.
  - inversion Hw; subst.
    destruct (@spells_plain c y) as (? & ? & ? & _); auto.
  - apply IH. now inversion Hw.
Qed.

Ltac spell_lits :=
  repeat match goal with
         | H : lit_eqb true "_" _ = true |- _ => apply lit_eqb_underscore in H
         | H : lit_eqb true ?c _ = true |- _ =>
             apply lit_eqb_spells in H; [| cbv [In]; tauto];
             let v := eval vm_compute in (lower c) in change (lower c) with v in H
         end.

Ltac lit_spelled :=
  first [ apply lit_eqb_underscore; reflexivity
        | apply lit_eqb_spells; [cbv [In]; tauto | assumption] ].

Ltac strip_tail_uni L T :=
  match L with
  | T => constr:(@nil char)
  | ?a :: ?L' => let r := strip_tail_uni L' T in constr:(a :: r)
  end.

Ltac lit_step := eexists; split; [reflexivity | split; [lit_spelled | reflexivity]].

Lemma ext_den_uni subject t t' e e' :
  den is_decimal subject true ext_pattern t t' e e' <->
  exists x, ext_ok x /\ t = x ++ t' /\ e' = e.
Proof.
  unfold ext_pattern. cbn [den]. split.
  - intros H. break_ex.
    repeat match goal with H : _ \/ _ |- _ => destruct H end;
      break_ex; subst; spell_lits;
      match goal with
      | |- exists x, ext_ok x /\ ?L = x ++ ?T /\ _ =>
          let w := strip_tail_uni L T in exists w; split; [| split; reflexivity]
      end;
      unfold ext_ok; eexists; (split; [| repeat (constructor; [eassumption|]); constructor]);
      cbv [s list_ascii_of_string In]; tauto.
  - intros (x & (w & Hw & F) & -> & ->).
    cbv [s list_ascii_of_string In] in Hw.
    destruct Hw as [<- | [<- | [<- | [<- | []]]]];
      repeat match goal with
             | H : Forall2 _ _ _ |- _ => inversion H; clear H; subst
             end; cbn [app].
    + eexists _, _. split; [lit_step|].
      eexists _, _. split.
      * eexists _, _. split; [lit_step|].
        eexists _, _. split.
        -- left. eexists _, _. split; [lit_step|].
           eexists _, _. split; lit_step.
        -- lit_step.
      * right. split; reflexivity.
    + eexists _, _. split; [lit_step|].
      eexists _, _. split.
      * eexists _, _. split; [lit_step|].
        eexists _, _. split.
        -- right. split; reflexivity.
        -- lit_step.
      * right. split; reflexivity.
    + eexists _, _. split; [lit_step|].
      eexists _, _. split.
      * eexists _, _. split; [lit_step|].
        eexists _, _. split.
        -- left. eexists _, _. split; [lit_step|].
           eexists _, _. split; lit_step.
        -- lit_step.
      * left. eexists _, _. split; [lit_step|].
        eexists _, _. split; lit_step.
    + eexists _, _. split; [lit_step|].
      eexists _, _. split.
      * eexists _, _. split; [lit_step|].
        eexists _, _. split.
        -- right. split; reflexivity.
        -- lit_step.
      * left. eexists _, _. split; [lit_step|].
        eexists _, _. split; lit_step.
Qed.

Lemma Forall_notin_uni (P : char -> bool) (c : char) (w : ustr) :
  (forall x, P x = true <-> x <> c) ->
  Forall (fun x => P x = true) w <-> ~ In c w.
Proof.
  intros HP. rewrite Forall_forall. split.
  - intros H Hin. apply H in Hin. apply HP in Hin. congruence.
  - intros H x Hx. apply HP. intros ->. contradiction.
Qed.

Lemma FASTQ_den_iff_uni f t' e :
  den is_decimal f true FASTQ_pattern f t' [] e <->
  exists prefix sample lane read ext,
    lane_split is_decimal f prefix sample lane read ext t' /\
    e = groups_env prefix sample lane read ext.
Proof.
  unfold FASTQ_pattern. cbn [den]. split.
  - intros H. break_ex.
    match goal with
    | H : den _ _ _ ext_pattern _ _ _ _ |- _ => apply ext_den_uni in H
    end.
    break_ex.
    repeat match goal with
    | E : ?t = ?w ++ ?t1, H : context [firstn (length ?t - length ?t1) ?t] |- _ =>
        rewrite E, firstn_consumed_uni in H
    | E : ?t = ?x :: ?t1, H : context [firstn (length ?t - length ?t1) ?t] |- _ =>
        rewrite E, firstn_consumed1_uni in H
    end.
    subst. spell_lits. subst.
    match goal with
    | Hp : Forall (fun x => in_cls _ true Any x = true) ?p,
      Hs : Forall (fun x => in_cls _ true (Not _) x = true) ?sa,
      Hd : Forall (fun x => in_cls _ true Digit x = true) ?dg,
      Hl : spells "l" ?l, Hr : spells "r" ?r,
      Hrd : in_cls _ true (OneOf _) ?d = true, Hx : ext_ok ?x |- _ =>
        exists p, sa, dg, [d], x; split; [| reflexivity];
        exists l, r;
        apply (proj1 (@Forall_notin_uni (in_cls is_decimal true Any) LF p
                                        in_cls_any_uni)) in Hp;
        apply (proj1 (@Forall_notin_uni (in_cls is_decimal true (Not "_")) 95%N sa
                                        in_cls_not_underscore_uni)) in Hs;
        apply in_cls_read_uni in Hrd;
        repeat split; auto;
        destruct Hrd as [-> | ->]; [left | right]; reflexivity
    end.
  - intros (p & sa & dg & rd & x & (l & r & -> & Hp & Hpn & Hs & Hsn & Hl & Hd & Hdd & Hr & Hrd & Hx & Ht) & ->).
    apply (proj2 (@Forall_notin_uni (in_cls is_decimal true Any) LF p
                                    in_cls_any_uni)) in Hpn.
    apply (proj2 (@Forall_notin_uni (in_cls is_decimal true (Not "_")) 95%N sa
                                    in_cls_not_underscore_uni)) in Hsn.
    eexists _, _. split; [repeat split; reflexivity|].
    eexists _, _. split.
    { eexists. split; [exists p; repeat split; try assumption; reflexivity | reflexivity]. }
    eexists _, _. split; [lit_step|].
    eexists _, _. split.
    { eexists. split; [exists sa; repeat split; try assumption; reflexivity | reflexivity]. }
    eexists _, _. split; [lit_step|].
    eexists _, _. split; [lit_step|].
    eexists _, _. split.
    { eexists. split; [exists dg; repeat split; try assumption; reflexivity | reflexivity]. }
    eexists _, _. split; [lit_step|].
    eexists _, _. split; [lit_step|].
    assert (Hd1 : exists d, rd = [d] /\
                            in_cls is_decimal true (OneOf ["1"; "2"]%char) d = true).
    { destruct Hrd as [-> | ->]; eexists; split; reflexivity. }
    destruct Hd1 as (d & -> & Hd1).
    exists (x ++ t'). eexists. split.
    { eexists. split; [exists d; repeat split; assumption | reflexivity]. }
    exists t'. eexists. split.
    { eexists. split; [apply ext_den_uni; exists x; repeat split; assumption | reflexivity]. }
    repeat split; [assumption|].
    unfold groups_env. cbn [app].
    now rewrite !firstn_consumed_uni, firstn_consumed1_uni.
Qed.

Lemma tail_unique_uni (x x' tl tl' : ustr) :
  ~ In LF x -> ~ In LF x' ->
  (tl = [] \/ tl = [LF]) -> (tl' = [] \/ tl' = [LF]) ->
  x ++ tl = x' ++ tl' -> x = x' /\ tl = tl'.
Proof.
  intros Hx Hx' [-> | ->] [-> | ->] E.
  - rewrite !app_nil_r in E. auto.
  - rewrite app_nil_r in E. subst x. exfalso. apply Hx.
    apply in_or_app. right. now left.
  - rewrite app_nil_r in E. subst x'. exfalso. apply Hx'.
    apply in_or_app. right. now left.
  - apply app_inj_tail in E. tauto.
Qed.

Lemma ext_no_LF_uni x : ext_ok x -> ~ In LF x.
Proof.
  intros H Hin. apply ext_ok_chars_uni in H. rewrite Forall_forall in H.
  apply H in Hin. tauto.
Qed.

Lemma read_char_uni rd : rd = u "1" \/ rd = u "2" ->
  exists d, rd = [d] /\ (d = 49 \/ d = 50)%N.
Proof. intros [-> | ->]; eexists; split; try reflexivity; auto. Qed.

Lemma ext_tail_chars_uni x tl :
  ext_ok x -> (tl = [] \/ tl = [LF]) ->
  Forall (fun c => c <> 49 /\ c <> 50)%N (x ++ tl).
Proof.
  intros Hx Ht. apply Forall_app. split.
  - apply ext_ok_chars_uni in Hx. eapply Forall_impl; [|exact Hx]. simpl. tauto.
  - destruct Ht as [-> | ->]; [constructor|].
    constructor; [unfold LF; lia | constructor].
Qed.

Lemma spells_l_not_decimal l : spells "l" l -> is_decimal l <> true.
Proof.
  intros H. apply (@spells_not_decimal "l"%char l); [| exact H | discriminate].
  cbv [s list_ascii_of_string In]. tauto.
Qed.

(** A name has the shape in one way only. *)
Lemma lane_split_unique_uni f p sa dg rd x tl p' sa' dg' rd' x' tl' :
  lane_split is_decimal f p sa dg rd x tl ->
  lane_split is_decimal f p' sa' dg' rd' x' tl' ->
  p = p' /\ sa = sa' /\ dg = dg' /\ rd = rd' /\ x = x' /\ tl = tl'.
Proof.
  intros (l & r & E & Hp & Hpn & Hs & Hsn & Hl & Hd & Hdd & Hr & Hrd & Hx & Ht)
         (l' & r' & E' & Hp' & Hpn' & Hs' & Hsn' & Hl' & Hd' & Hdd' & Hr' & Hrd' & Hx' & Ht').
  rewrite E in E'. clear E.
  change (of_ascii "_") with 95%N in *.
  apply read_char_uni in Hrd, Hrd'.
  destruct Hrd as (d & -> & Hd1), Hrd' as (d' & -> & Hd1').
  cbn [app] in E'.
  (* the cut at the read digit *)
  assert (E1 : (p ++ 95 :: sa ++ 95 :: l :: dg ++ [95; r])%N ++ d :: (x ++ tl)
             = (p' ++ 95 :: sa' ++ 95 :: l' :: dg' ++ [95; r'])%N ++ d' :: (x' ++ tl'))
    by (list_norm; exact E').
  apply (@last_separator_uni (fun c => c <> 49 /\ c <> 50)%N) in E1;
    [| now apply ext_tail_chars_uni | now apply ext_tail_chars_uni
     | lia | lia].
  destruct E1 as (E1 & -> & E2).
  apply tail_unique_uni in E2; try assumption; try now apply ext_no_LF_uni.
  destruct E2 as (-> & ->).
  (* the literals [_R] *)
  assert (E3 : ((p ++ 95 :: sa ++ 95 :: l :: dg) ++ [95])%N ++ [r]
             = ((p' ++ 95 :: sa' ++ 95 :: l' :: dg') ++ [95])%N ++ [r'])
    by (list_norm; exact E1).
  apply app_inj_tail in E3. destruct E3 as (E3 & _).
  apply app_inj_tail in E3. destruct E3 as (E3 & _).
  (* the cut at [L], before the digits *)
  assert (E4 : (p ++ 95 :: sa ++ [95])%N ++ l :: dg
             = (p' ++ 95 :: sa' ++ [95])%N ++ l' :: dg')
    by (list_norm; exact E3).
  apply (@last_separator_uni (fun c => is_decimal c = true)) in E4;
    [| assumption | assumption
     | now apply spells_l_not_decimal | now apply spells_l_not_decimal].
  destruct E4 as (E4 & _ & ->).
  (* the cut at the underscore before the sample *)
  assert (E5 : (p ++ 95 :: sa)%N ++ [95%N] = (p' ++ 95 :: sa')%N ++ [95%N])
    by (list_norm; exact E4).
  apply app_inj_tail in E5. destruct E5 as (E5 & _).
  apply (@last_separator_uni (fun c => c <> 95%N)) in E5;
    [| apply Forall_forall; intros c Hc ->; contradiction
     | apply Forall_forall; intros c Hc ->; contradiction
     | tauto | tauto].
  destruct E5 as (-> & _ & ->). repeat split.
Qed.

(** A match of [FASTQ_RE] has the accepted shape, with the groups as the
    text of its parts. *)
Lemma FASTQ_RE_some_uni f e :
  FASTQ_RE is_decimal f = Some e ->
  exists tl, lane_split is_decimal f (group "prefix" e) (group "sample" e)
                        (group "lane" e) (group "read" e) (group "ext" e) tl.
Proof.
  unfold FASTQ_RE, match_. intros H.
  destruct (run is_decimal f true FASTQ_pattern f []) as [|[t' e'] rest] eqn:R;
    [discriminate|].
  inversion H; subst e'. clear H.
  assert (Hin : In (t', e) (run is_decimal f true FASTQ_pattern f []))
    by (rewrite R; now left).
  apply run_spec_uni, FASTQ_den_iff_uni in Hin.
  destruct Hin as (p & sa & dg & rd & x & Hs & ->). exists t'. exact Hs.
Qed.

(** A name of the accepted shape is matched, and the groups are the
    parts of the shape. *)
Lemma FASTQ_RE_complete_uni f p sa dg rd x tl :
  lane_split is_decimal f p sa dg rd x tl ->
  exists e, FASTQ_RE is_decimal f = Some e /\
            match_groups e = mkMatch p sa dg rd x.
Proof.
  intros Hs.
  assert (Hin : In (tl, groups_env p sa dg rd x)
                   (run is_decimal f true FASTQ_pattern f [])).
  { apply run_spec_uni, FASTQ_den_iff_uni. exists p, sa, dg, rd, x. auto. }
  destruct (FASTQ_RE is_decimal f) as [e|] eqn:R.
  - exists e. split; [reflexivity|].
    destruct (FASTQ_RE_some_uni _ R) as (tl' & Hs').
    destruct (lane_split_unique_uni Hs Hs') as (-> & -> & -> & -> & -> & _).
    reflexivity.
  - unfold FASTQ_RE, match_ in R.
    destruct (run is_decimal f true FASTQ_pattern f []) as [|[? ?] ?];
      [contradiction|discriminate].
Qed.

Lemma lane_split_no_LF_uni f p sa dg rd x tl :
  ~ In LF f -> lane_split is_decimal f p sa dg rd x tl -> tl = [].
Proof.
  intros Hf (l & r & E & H).
  destruct H as (_ & _ & _ & _ & _ & _ & _ & _ & _ & _ & [-> | ->]);
    [reflexivity|].
  exfalso. apply Hf. rewrite E.
  apply in_or_app; right; right.
  apply in_or_app; right; right; right.
  apply in_or_app; right; right; right.
  apply in_or_app; right. apply in_or_app; right. now left.
Qed.

(** On every name, [FASTQ_RE] gives the groups of the one way in which
    the name has the shape, and nothing when it has not. *)
Lemma FASTQ_RE_shape f :
  (forall p sa dg rd x,
      (exists m, FASTQ_RE is_decimal f = Some m /\
                 match_groups m = mkMatch p sa dg rd x) <->
      (exists tl, lane_split is_decimal f p sa dg rd x tl)) /\
  (FASTQ_RE is_decimal f = None <->
   forall p sa dg rd x tl, ~ lane_split is_decimal f p sa dg rd x tl).
Proof.
  split.
  - intros p sa dg rd x. split.
    + intros (m & Hm & Hg). destruct (FASTQ_RE_some_uni _ Hm) as (tl & Hs).
      unfold match_groups in Hg. inversion Hg; subst. eauto.
    + intros (tl & Hs). eapply FASTQ_RE_complete_uni; eauto.
  - split.
    + intros Hn p sa dg rd x tl Hs. apply FASTQ_RE_complete_uni in Hs.
      destruct Hs as (e & He & _). congruence.
    + intros Hn. destruct (FASTQ_RE is_decimal f) as [m|] eqn:Hm; [|reflexivity].
      exfalso. destruct (FASTQ_RE_some_uni _ Hm) as (tl & Hs).
      exact (Hn _ _ _ _ _ _ Hs).
Qed.

End UnicodeMatcher.

(** ** Names of Latin-1 characters

    On a name whose characters all lie in U+0000..U+00FF the Unicode
    matcher is the matcher on [list ascii] of the rest of the
    development, given that the decimal digits of that range are [0-9]. *)

Section Latin1.

Variable is_decimal : Uni.char -> bool.
Hypothesis decimal_latin1 :
  forall x, (x < 256)%N -> is_decimal x = ((48 <=? x) && (x <=? 57))%N.

Lemma fold_of_ascii c : Uni.fold (Uni.of_ascii c) = Uni.of_ascii (lower c).
Proof. all_ascii c. Qed.

Lemma of_ascii_eqb a b : (Uni.of_ascii a =? Uni.of_ascii b)%N = Ascii.eqb a b.
Proof.
  destruct (Ascii.eqb_spec a b) as [-> | Hn].
  - apply N.eqb_refl.
  - apply N.eqb_neq. intros E. apply Hn.
    rewrite <- (ascii_N_embedding a), <- (ascii_N_embedding b).
    unfold Uni.of_ascii in E. now rewrite E.
Qed.

Lemma lit_eqb_latin1 icase c x :
  Uni.lit_eqb icase c (Uni.of_ascii x) = lit_eqb icase c x.
Proof.
  unfold Uni.lit_eqb, lit_eqb. destruct icase.
  - now rewrite !fold_of_ascii, of_ascii_eqb.
  - apply of_ascii_eqb.
Qed.

Lemma is_decimal_latin1 x : is_decimal (Uni.of_ascii x) = is_digit x.
Proof.
  rewrite decimal_latin1 by apply N_ascii_bounded.
  all_ascii x.
Qed.

Lemma in_cls_latin1 icase k x :
  Uni.in_cls is_decimal icase k (Uni.of_ascii x) = in_cls icase k x.
Proof.
  destruct k as [|c| |cs]; cbn [Uni.in_cls in_cls].
  - f_equal. exact (of_ascii_eqb x LF).
  - f_equal. fold (lit_eqb icase c x). apply lit_eqb_latin1.
  - apply is_decimal_latin1.
  - induction cs as [|c cs IH]; [reflexivity|]. cbn [existsb].
    rewrite IH. f_equal. fold (lit_eqb icase c x). apply lit_eqb_latin1.
Qed.

Lemma plus_cls_latin1 icase k t :
  Uni.plus_cls is_decimal icase k (Uni.of_str t)
  = map Uni.of_str (plus_cls icase k t).
Proof.
  induction t as [|x t IH]; [reflexivity|].
  cbn [Uni.of_str map Uni.plus_cls plus_cls]. rewrite in_cls_latin1.
  destruct (in_cls icase k x); [|reflexivity].
  fold (Uni.of_str t). now rewrite IH, map_app.
Qed.

Lemma run_latin1 subject icase r :
  forall t e,
    Uni.run is_decimal (Uni.of_str subject) icase r (Uni.of_str t) (Uni.of_env e)
    = map (fun te => (Uni.of_str (fst te), Uni.of_env (snd te)))
          (run subject icase r t e).
Proof.
  induction r as [| |c|k|k|a IHa b IHb|a IHa|name a IHa]; intros t e;
    cbn [Uni.run run].
  - unfold Uni.of_str. rewrite !length_map.
    now destruct (length t =? length subject).
  - destruct t as [|x [|y t]]; try reflexivity.
    cbn [Uni.of_str map]. change Uni.LF with (Uni.of_ascii LF).
    rewrite of_ascii_eqb. now destruct (Ascii.eqb x LF).
  - destruct t as [|x t]; [reflexivity|].
    cbn [Uni.of_str map]. rewrite lit_eqb_latin1.
    now destruct (lit_eqb icase c x).
  - rewrite plus_cls_latin1, !map_map. reflexivity.
  - destruct t as [|x t]; [reflexivity|].
    cbn [Uni.of_str map]. rewrite in_cls_latin1.
    now destruct (in_cls icase k x).
  - rewrite IHa, flat_map_map, map_flat_map.
    apply flat_map_ext. intros [t1 e1]. apply IHb.
  - now rewrite IHa, map_app.
  - rewrite IHa, !map_map. apply map_ext. intros [t1 e1]. cbn [fst snd].
    cbn [Uni.of_env map fst snd]. unfold Uni.of_str.
    now rewrite !length_map, firstn_map.
Qed.

(** [FASTQ_RE] on a name of Latin-1 characters, seen as Unicode text. *)
Lemma FASTQ_RE_latin1 (filename : str) :
  Uni.FASTQ_RE is_decimal (Uni.of_str filename)
  = option_map Uni.of_env (FASTQ_RE filename).
Proof.
  unfold Uni.FASTQ_RE, Uni.match_, FASTQ_RE, match_.
  change (@nil (string * Uni.ustr)) with (Uni.of_env []).
  rewrite (run_latin1 filename true FASTQ_pattern filename []).
  now destruct (run filename true FASTQ_pattern filename []) as [|[t e] l].
Qed.

End Latin1.

(** ** The decimal digits of Unicode 14.0 *)

Lemma is_decimal_14_latin1 x :
  (x < 256)%N -> Uni.is_decimal_14 x = ((48 <=? x) && (x <=? 57))%N.
Proof.
  intros Hx. unfold Uni.is_decimal_14, Uni.zeros_14.
  cbn [existsb].
  repeat match goal with
         | |- context [((?z <=? x) && (x <? ?z + 10))%N] =>
             lazymatch z with
             | 48%N => fail
             | _ => replace ((z <=? x) && (x <? z + 10))%N with false
                 by (symmetry; apply andb_false_iff; left; apply N.leb_gt; lia)
             end
         end.
  cbn [orb]. rewrite !orb_false_r. f_equal.
  destruct (N.ltb_spec x (48 + 10)), (N.leb_spec x 57); try reflexivity; lia.
Qed.

Lemma is_decimal_14_ascii x :
  (x < 128)%N -> Uni.is_decimal_14 x = true -> (48 <= x <= 57)%N.
Proof.
  intros Hx H. rewrite is_decimal_14_latin1 in H by lia.
  apply andb_true_iff in H. destruct H as (H1 & H2).
  apply N.leb_le in H1, H2. lia.
Qed.

(** ** The Matcher, on every name *)

(** C3 (amended): a file name is a string of Unicode characters. For a
    name without a newline character, the Matcher accepts exactly the
    names made of a non-empty prefix followed by
    [_<sample>_L<digits>_R<1|2><ext>]: the sample is not empty and holds
    no underscore, the digits are one or more decimal digits of the
    Unicode database (of any script, as [\d] matches them), the letters
    [L] and [R] come in either case, and the extension is one of
    [.fastq], [.fq], [.fastq.gz], [.fq.gz] in any mix of cases, where the
    long s (U+017F) counts as an [s]. The groups of the match are exactly
    those parts of the name, as they are written; every other such name
    gets no match. This holds for whatever table of decimal digits the
    interpreter has, the ones of ASCII being [0-9]. *)
Theorem C3_matcher_accepts (is_decimal : Uni.char -> bool) (filename : Uni.ustr) :
  (forall x, (x < 128)%N -> is_decimal x = true -> (48 <= x <= 57)%N) ->
  ~ In Uni.LF filename ->
  (forall prefix sample lane read ext,
      (exists m, Uni.FASTQ_RE is_decimal filename = Some m /\
                 Uni.match_groups m = Uni.mkMatch prefix sample lane read ext) <->
      Uni.lane_split is_decimal filename prefix sample lane read ext []) /\
  (Uni.FASTQ_RE is_decimal filename = None <->
   forall prefix sample lane read ext,
     ~ Uni.lane_split is_decimal filename prefix sample lane read ext []).
Proof.
  intros Hd Hf.
  destruct (@FASTQ_RE_shape is_decimal Hd filename) as (Hsome & Hnone).
  split.
  - intros p sa dg rd x. rewrite Hsome. split.
    + intros (tl & Hs).
      assert (tl = []) by (eapply lane_split_no_LF_uni; eauto). now subst tl.
    + intros Hs. now exists [].
  - rewrite Hnone. split.
    + intros Hn p sa dg rd x. apply Hn.
    + intros Hn p sa dg rd x tl Hs.
      assert (tl = []) by (eapply lane_split_no_LF_uni; eauto). subst tl.
      exact (Hn _ _ _ _ _ Hs).
Qed.

(** The name [S1_A_l<U+0661><U+0967>_r2.FA<U+017F>tQ.gZ], with digits of
    two scripts and a long s, under the digits of Unicode 14.0. *)
Lemma C3_matcher_accepts_witness :
  let filename := (Uni.u "S1_A_l" ++ [1633; 2407] ++ Uni.u "_r2.FA" ++ [383]
                         ++ Uni.u "tQ.gZ")%N in
  ~ In Uni.LF filename /\
  Uni.lane_split Uni.is_decimal_14 filename
                 (Uni.u "S1") (Uni.u "A") [1633; 2407]%N (Uni.u "2")
                 (Uni.u ".FA" ++ [383%N] ++ Uni.u "tQ.gZ") [].
Proof.
  intros filename.
  assert (H : ~ In Uni.LF filename)
    by (vm_compute; intuition discriminate).
  split; [exact H|].
  apply (proj1 (proj1 (@C3_matcher_accepts Uni.is_decimal_14 filename
                         is_decimal_14_ascii H) _ _ _ _ _)).
  eexists. split; vm_compute; reflexivity.
Defined.

(** X1: on every name of Unicode characters, with or without newline,
    [FASTQ_RE] accepts exactly the names made of a non-empty prefix
    without newline, [_<sample>_L<digits>_R<1|2><ext>] (decimal digits
    of any script, [L] and [R] in either case, the extension in any mix
    of cases with the long s as an [s]) and, as [$] allows it, at most
    one newline at the very end; the groups are the parts of the name,
    and a name of no such shape is not matched. So a matched name
    followed by one newline is matched with the same groups. *)
Theorem X1_matcher_on_every_name (is_decimal : Uni.char -> bool) (filename : Uni.ustr) :
  (forall x, (x < 128)%N -> is_decimal x = true -> (48 <= x <= 57)%N) ->
  (forall prefix sample lane read ext,
      (exists m, Uni.FASTQ_RE is_decimal filename = Some m /\
                 Uni.match_groups m = Uni.mkMatch prefix sample lane read ext) <->
      (exists tail, Uni.lane_split is_decimal filename prefix sample lane read ext tail)) /\
  (Uni.FASTQ_RE is_decimal filename = None <->
   forall prefix sample lane read ext tail,
     ~ Uni.lane_split is_decimal filename prefix sample lane read ext tail) /\
  (forall m, Uni.FASTQ_RE is_decimal filename = Some m -> ~ In Uni.LF filename ->
             exists m', Uni.FASTQ_RE is_decimal (filename ++ [Uni.LF]) = Some m' /\
                        Uni.match_groups m' = Uni.match_groups m).
Proof.
  intros Hd.
  destruct (@FASTQ_RE_shape is_decimal Hd filename) as (Hsome & Hnone).
  split; [exact Hsome|]. split; [exact Hnone|].
  intros m Hm Hf. destruct (@FASTQ_RE_some_uni is_decimal filename m Hm) as (tl & Hs).
  assert (tl = []) by (eapply lane_split_no_LF_uni; eauto). subst tl.
  unfold Uni.match_groups.
  apply (@FASTQ_RE_complete_uni is_decimal Hd) with (tl := [Uni.LF]).
  destruct Hs as (l & r & E & H). exists l, r. split.
  - rewrite E. list_norm. reflexivity.
  - intuition.
Qed.

(** The name [S1_A_L007_R1.fq] followed by a newline. *)
Lemma X1_matcher_on_every_name_witness :
  exists m, Uni.FASTQ_RE Uni.is_decimal_14 (Uni.u "S1_A_L007_R1.fq" ++ [Uni.LF]) = Some m /\
            Uni.match_groups m
            = Uni.mkMatch (Uni.u "S1") (Uni.u "A") (Uni.u "007") (Uni.u "1") (Uni.u ".fq").
Proof.
  destruct (proj2 (proj2 (@X1_matcher_on_every_name Uni.is_decimal_14
                            (Uni.u "S1_A_L007_R1.fq") is_decimal_14_ascii))
                  (Uni.groups_env (Uni.u "S1") (Uni.u "A") (Uni.u "007") (Uni.u "1")
                                  (Uni.u ".fq")))
    as (m' & Hm' & Hg).
  - vm_compute. reflexivity.
  - vm_compute. intuition discriminate.
  - exists m'. split; [exact Hm'|]. rewrite Hg. vm_compute. reflexivity.
Defined.

(** ** The lane number is the decimal value of its digits

    [int(text)] of the program is compared with the decimal numerals of
    the standard library: [uint_of_string] reads a run of digits as a
    numeral, [N.of_uint] is its value and [N.to_uint] the numeral of a
    number, without leading zeros. *)

Lemma printed_length u :
  N.of_nat (length (s (DecimalString.NilEmpty.string_of_uint u)))
  = DecimalPos.Unsigned.usize u.
Proof.
  induction u; cbn [DecimalString.NilEmpty.string_of_uint s list_ascii_of_string
                    length DecimalPos.Unsigned.usize];
    [reflexivity | fold (s (DecimalString.NilEmpty.string_of_uint u));
                   rewrite Nat2N.inj_succ; now f_equal ..].
Qed.

Lemma int_of_digits_printed u :
  int_of_digits (s (DecimalString.NilEmpty.string_of_uint u)) = N.of_uint u.
Proof.
  unfold N.of_uint.
  induction u;
    [reflexivity
    | cbn [DecimalString.NilEmpty.string_of_uint s list_ascii_of_string];
      fold (s (DecimalString.NilEmpty.string_of_uint u));
      match goal with
      | |- int_of_digits (?c :: ?l) = Pos.of_uint ?d =>
          change (c :: l) with ([c] ++ l);
          rewrite int_of_digits_app, printed_length, IHu;
          rewrite (DecimalPos.Unsigned.of_uint_alt d);
          let v := eval vm_compute in (int_of_digits [c]) in
          change (int_of_digits [c]) with v
      end;
      unfold Decimal.rev; cbn [Decimal.revapp];
      rewrite DecimalPos.Unsigned.of_lu_revapp;
      fold (Decimal.rev u); rewrite <- DecimalPos.Unsigned.of_uint_alt;
      cbn [DecimalPos.Unsigned.of_lu]; lia ..].
Qed.

Lemma digits_parse ds :
  Forall (fun c => is_digit c = true) ds ->
  exists u, DecimalString.NilEmpty.uint_of_string (string_of_list_ascii ds) = Some u.
Proof.
  induction 1 as [|c ds Hc _ (u & IH)]; [now exists Decimal.Nil|].
  cbn [string_of_list_ascii DecimalString.NilEmpty.uint_of_string]. rewrite IH.
  destruct c as [[] [] [] [] [] [] [] []]; try discriminate Hc;
    eexists; reflexivity.
Qed.

Lemma printed_zeros k u :
  s (DecimalString.NilEmpty.string_of_uint (Nat.iter k Decimal.D0 u))
  = repeat "0"%char k ++ s (DecimalString.NilEmpty.string_of_uint u).
Proof.
  induction k as [|k IH]; [reflexivity|].
  cbn [Nat.iter nat_rect repeat app]. rewrite <- IH. reflexivity.
Qed.

(** A run of digits is the numeral of its value behind leading zeros. *)
Lemma digits_numeral ds :
  ds <> [] -> Forall (fun c => is_digit c = true) ds ->
  exists u, DecimalString.NilEmpty.uint_of_string (string_of_list_ascii ds) = Some u /\
            int_of_digits ds = N.of_uint u /\
            exists k, ds = repeat "0"%char k
                           ++ s (DecimalString.NilEmpty.string_of_uint
                                   (N.to_uint (int_of_digits ds))).
Proof.
  intros Hne Hd. destruct (digits_parse Hd) as (u & Hu). exists u.
  assert (E : ds = s (DecimalString.NilEmpty.string_of_uint u)).
  { apply DecimalString.NilEmpty.sus in Hu. unfold s. rewrite Hu.
    now rewrite list_ascii_of_string_of_list_ascii. }
  assert (V : int_of_digits ds = N.of_uint u)
    by (rewrite E at 1; apply int_of_digits_printed).
  split; [exact Hu|]. split; [exact V|].
  assert (Hn : u <> Decimal.Nil) by (intros ->; now apply Hne).
  exists (Decimal.nb_digits u - Decimal.nb_digits (Decimal.unorm u)).
  rewrite V, DecimalN.Unsigned.to_of, <- printed_zeros.
  now rewrite DecimalFacts.iter_D0_unorm.
Qed.

(** X2: the lane of the entry emitted for a matched name is the decimal
    value of the digits of the name. The digits, read as a decimal
    numeral, have the lane as their value; they are the decimal numeral
    of the lane behind leading zeros; and whenever the digits are the
    numeral of a number [n] behind any number of zeros, the lane is [n]
    ([L001] and [L1] are the same lane, and [L10] comes after [L9]). *)
Theorem X2_lane_is_decimal_value dirpath filename m :
  FASTQ_RE filename = Some m ->
  let digits := group "lane" m in
  let lanes := map (fun em => lane (snd em)) (match_file dirpath filename) in
  (exists u, DecimalString.NilEmpty.uint_of_string (string_of_list_ascii digits)
             = Some u /\
             lanes = [N.of_uint u]) /\
  (exists n k, lanes = [n] /\
               digits = repeat "0"%char k
                        ++ s (DecimalString.NilEmpty.string_of_uint (N.to_uint n))) /\
  (forall n k, digits = repeat "0"%char k
                        ++ s (DecimalString.NilEmpty.string_of_uint (N.to_uint n)) ->
               lanes = [n]) /\
  (forall n ds, int_of_digits (repeat "0"%char n ++ ds) = int_of_digits ds) /\
  (forall ds d, int_of_digits (ds ++ [d])
                = (10 * int_of_digits ds + digit_val d)%N).
Proof.
  intros Hm digits lanes.
  assert (El : lanes = [int_of_digits digits])
    by (unfold lanes, match_file; now rewrite Hm).
  destruct (FASTQ_RE_some _ Hm) as (tl & l & r & _ & _ & _ & _ & _ & _ & Hne & Hd & _).
  fold digits in Hne, Hd.
  destruct (digits_numeral Hne Hd) as (u & Hu & V & k & Hk).
  split; [exists u; split; [exact Hu | now rewrite El, V]|].
  split; [exists (int_of_digits digits), k; now split|].
  split; [|split].
  - intros n k' E. rewrite El, E, int_of_digits_app, int_of_digits_zeros.
    rewrite int_of_digits_printed. cbn [N.mul N.add].
    now rewrite DecimalN.Unsigned.of_to.
  - intros n ds. rewrite int_of_digits_app, int_of_digits_zeros. reflexivity.
  - intros ds d. rewrite int_of_digits_app.
    change (int_of_digits [d]) with (10 * 0 + digit_val d)%N.
    change (N.of_nat (length [d])) with 1%N. rewrite N.pow_1_r. lia.
Qed.

(** The name [S1_A_L0012_R1.fq]: two zeros and the numeral of twelve. *)
Lemma X2_lane_is_decimal_value_witness :
  FASTQ_RE (s "S1_A_L0012_R1.fq")
  = Some (groups_env (s "S1") (s "A") (s "0012") (s "1") (s ".fq")) /\
  map (fun em => lane (snd em)) (match_file (mkPath false []) (s "S1_A_L0012_R1.fq"))
  = [12%N].
Proof.
  assert (H : FASTQ_RE (s "S1_A_L0012_R1.fq")
              = Some (groups_env (s "S1") (s "A") (s "0012") (s "1") (s ".fq")))
    by (vm_compute; reflexivity).
  split; [exact H|].
  apply (proj1 (proj2 (proj2 (@X2_lane_is_decimal_value (mkPath false []) _ _ H)))
               12%N 2).
  vm_compute. reflexivity.
Defined.
